(** * The pipeline orchestration engine of [neo4j_genai.experimental.pipeline]

    A shallow embedding of [pipeline.py]: the task node with its run status,
    the orchestrator that resolves inputs and finds the next tasks, and the
    [Pipeline] assembly API ([connect], [validate_inputs_config], [run]).

    Python dictionaries whose iteration order the code never observes are
    [gmap]s; dictionaries that the code iterates over ([input_config],
    [_nodes], [_edges]) are lists in insertion order.  Exceptions are values
    of [exn] carried by [result]; code that mutates objects runs in a small
    state-and-error monad over [World]. *)

From Stdlib Require Import Ascii String.
From stdpp Require Import gmap strings list fin_maps.

#[local] Set Warnings "-register-all".
#[local] Open Scope string_scope.
#[local] Open Scope list_scope.

(** ** Python values *)

(** The values that flow between components: [Any] restricted to the JSON-like
    shapes a [model_dump()] produces. *)
Inductive value : Type :=
  | VNone
  | VBool (b : bool)
  | VInt (z : Z)
  | VStr (s : string)
  | VList (l : list value)
  | VDict (d : gmap string value).

(** A [dict[str, Any]]. *)
Abbreviation pydict := (gmap string value).

(** ** Exceptions *)

(** The three exception classes of [exceptions.py], the built-in exceptions the
    code can meet, and the failure of a component: whatever a component
    raises is its own kind of failure, never one of the pipeline's. *)
Inductive exn : Type :=
  | PipelineStatusUpdateError
  | PipelineMissingDependencyError
  | PipelineDefinitionError
  | KeyError (key : string)
  | ValueError
  | AttributeError
  | ComponentFailure (msg : string).

Inductive result (A : Type) : Type :=
  | Ok (a : A)
  | Raise (e : exn).
Arguments Ok {A} a.
Arguments Raise {A} e.

(** ** [RunStatus], [RunResult] *)

Inductive RunStatus : Type :=
  | UNKNOWN | SCHEDULED | WAITING | RUNNING | SKIP | DONE.

#[global] Instance RunStatus_eq_dec : EqDecision RunStatus.
Proof. solve_decision. Defined.

(** [RunResult]: the [timestamp] field (wall-clock time) is left out. *)
Record RunResult : Type := mkRunResult {
  rr_status : RunStatus;
  rr_result : option pydict
}.

(** ** The component contract *)

(** Modelled from the spec: [Component], of [component.py].  A component
    declares its inputs (parameter name to [has_default]) and its outputs
    (field names), and runs on keyword arguments.  [run] either fails with a
    component-specific message or returns its data model ([None] is allowed by
    [RunResult.result : Optional[DataModel]]); a data model is represented by
    its [model_dump()]. *)
Record Component : Type := mkComponent {
  component_inputs : gmap string bool;
  component_outputs : gset string;
  component_run : pydict -> string + option pydict
}.

(** ** [TaskPipelineNode] *)

Record TaskPipelineNode : Type := mkTask {
  name : string;
  component : Component;
  status : RunStatus
}.

Definition with_status (s : RunStatus) (self : TaskPipelineNode) : TaskPipelineNode :=
  {| name := name self; component := component self; status := s |}.

(** [TaskPipelineNode.__init__] *)
Definition new_task (n : string) (c : Component) : TaskPipelineNode :=
  {| name := n; component := c; status := UNKNOWN |}.

(** [TaskPipelineNode.set_status]: the body runs under the node's lock, so it
    is one atomic transition on the node. *)
Definition set_status (s : RunStatus) (self : TaskPipelineNode) : result TaskPipelineNode :=
  if decide (s = status self) then Raise PipelineStatusUpdateError
  else if decide (s = RUNNING /\ status self = DONE) then Raise PipelineStatusUpdateError
  else Ok (with_status s self).

(** [TaskPipelineNode.read_status] *)
Definition read_status (self : TaskPipelineNode) : RunStatus := status self.

(** [TaskPipelineNode.reinitialize] *)
Definition task_reinitialize (self : TaskPipelineNode) : TaskPipelineNode :=
  with_status SCHEDULED self.

(** [execute], first half (lines 128-132): the attempt to move to [RUNNING].
    [Ok None] is the [return None] of the [except PipelineStatusUpdateError]
    clause; any other exception would pass through the [try]. *)
Definition execute_begin (self : TaskPipelineNode) : result (option TaskPipelineNode) :=
  match set_status RUNNING self with
  | Ok self' => Ok (Some self')
  | Raise PipelineStatusUpdateError => Ok None
  | Raise e => Raise e
  end.

(** [execute], second half (lines 134-141), once [component.run] has returned
    [component_result]. *)
Definition execute_finish (component_result : option pydict) (self : TaskPipelineNode)
  : result (RunResult * TaskPipelineNode) :=
  match set_status DONE self with
  | Raise e => Raise e
  | Ok self' =>
      Ok ({| rr_status := status self'; rr_result := component_result |}, self')
  end.

(** What a call of [execute] leaves behind: the value returned or the exception
    raised, the node afterwards, and the keyword arguments of every call of
    [component.run] it made. *)
Record Executed : Type := mkExecuted {
  returned : result (option RunResult);
  node_after : TaskPipelineNode;
  invocations : list pydict
}.

(** [TaskPipelineNode.execute], run without interruption. *)
Definition execute (self : TaskPipelineNode) (kwargs : pydict) : Executed :=
  match execute_begin self with
  | Raise e => mkExecuted (Raise e) self []
  | Ok None => mkExecuted (Ok None) self []
  | Ok (Some running) =>
      match component_run (component running) kwargs with
      | inl msg => mkExecuted (Raise (ComponentFailure msg)) running [kwargs]
      | inr component_result =>
          match execute_finish component_result running with
          | Raise e => mkExecuted (Raise e) running [kwargs]
          | Ok (run_result, done) => mkExecuted (Ok (Some run_result)) done [kwargs]
          end
      end
  end.

(** ** Mapping references *)

(** [str.split(sep)] for a one-character separator: [n] separators give
    [n + 1] pieces, empty pieces included. *)
Fixpoint split (sep : ascii) (s : string) : list string :=
  match s with
  | EmptyString => [EmptyString]
  | String c rest =>
      if decide (c = sep) then EmptyString :: split sep rest
      else match split sep rest with
           | [] => [String c EmptyString]
           | piece :: pieces => String c piece :: pieces
           end
  end.

(** The [try: component, output_param = mapping.split(".")] /
    [except ValueError] block shared by [get_component_inputs] and
    [validate_inputs_config_for_task]: the unpacking succeeds on exactly two
    pieces; otherwise the whole string is the component name and no output
    parameter is selected. *)
Definition parse_mapping (mapping : string) : string * option string :=
  match split "."%char mapping with
  | [component_; output_param] => (component_, Some output_param)
  | _ => (mapping, None)
  end.

(** Number of occurrences of a character. *)
Fixpoint occurrences (sep : ascii) (s : string) : nat :=
  match s with
  | EmptyString => 0
  | String c rest => (if decide (c = sep) then 1 else 0) + occurrences sep rest
  end.

(** ** The graph container *)

(** An [input_config]: parameter name to mapping reference, in insertion
    order. *)
Abbreviation input_config_t := (list (string * string)).

(** Modelled from the spec: [PipelineEdge], of [pipeline_graph.py].  [data] is
    [None] or a dictionary whose only entry read by the pipeline is
    ["input_config"], itself optional. *)
Record PipelineEdge : Type := mkEdge {
  start : string;
  end_ : string;
  data : option (option input_config_t)
}.

(** [Pipeline(PipelineGraph)]: the nodes and edges of the graph in insertion
    order (the fields of [PipelineGraph], which [show_as_dict] iterates over),
    the result store and the store of final results. *)
Record Pipeline : Type := mkPipeline {
  _nodes : list TaskPipelineNode;
  _edges : list PipelineEdge;
  _store : gmap string value;
  _final_results : gmap string value
}.

Definition with_nodes (ns : list TaskPipelineNode) (self : Pipeline) : Pipeline :=
  {| _nodes := ns; _edges := _edges self;
     _store := _store self; _final_results := _final_results self |}.

Definition with_edges (es : list PipelineEdge) (self : Pipeline) : Pipeline :=
  {| _nodes := _nodes self; _edges := es;
     _store := _store self; _final_results := _final_results self |}.

Definition node_names (self : Pipeline) : list string := name <$> _nodes self.

Fixpoint find_node (n : string) (ns : list TaskPipelineNode) : option TaskPipelineNode :=
  match ns with
  | [] => None
  | t :: ns' => if decide (name t = n) then Some t else find_node n ns'
  end.

(** Assignment to the node stored under a name ([self._nodes[name] = node]
    for an existing name): used for [set_node] and for the writes a node
    method makes to [self.status]. *)
Fixpoint replace_node (t : TaskPipelineNode) (ns : list TaskPipelineNode)
  : list TaskPipelineNode :=
  match ns with
  | [] => []
  | t' :: ns' => if decide (name t' = name t) then t :: ns' else t' :: replace_node t ns'
  end.

(** Modelled from the spec: [PipelineGraph.get_node_by_name], of
    [pipeline_graph.py]; a lookup in [_nodes], failing with a lookup error on
    an absent name as [add_edge] does. *)
Definition get_node_by_name (n : string) (self : Pipeline) : result TaskPipelineNode :=
  match find_node n (_nodes self) with
  | Some t => Ok t
  | None => Raise (KeyError n)
  end.

(** Modelled from the spec: [PipelineGraph.add_node], of [pipeline_graph.py];
    fails on a name that is already present. *)
Definition add_node (t : TaskPipelineNode) (self : Pipeline) : result Pipeline :=
  if decide (name t ∈ node_names self) then Raise ValueError
  else Ok (with_nodes (_nodes self ++ [t]) self).

(** Modelled from the spec: [PipelineGraph.set_node], of [pipeline_graph.py];
    replaces an existing node in place and fails on a name that is not
    present. *)
Definition set_node (t : TaskPipelineNode) (self : Pipeline) : result Pipeline :=
  if decide (name t ∈ node_names self)
  then Ok (with_nodes (replace_node t (_nodes self)) self)
  else Raise ValueError.

(** Insertion of an edge keyed by [(start, end)]: an existing edge with the
    same key is overwritten where it stands. *)
Fixpoint upsert_edge (e : PipelineEdge) (es : list PipelineEdge) : list PipelineEdge :=
  match es with
  | [] => [e]
  | e' :: es' =>
      if decide (start e' = start e /\ end_ e' = end_ e) then e :: es'
      else e' :: upsert_edge e es'
  end.

(** Modelled from the spec: [PipelineGraph.add_edge], of [pipeline_graph.py];
    fails with a lookup error if either endpoint is absent, otherwise inserts
    or overwrites. *)
Definition add_edge (e : PipelineEdge) (self : Pipeline) : result Pipeline :=
  if decide (start e ∈ node_names self) then
    if decide (end_ e ∈ node_names self) then
      Ok (with_edges (upsert_edge e (_edges self)) self)
    else Raise (KeyError (end_ e))
  else Raise (KeyError (start e)).

(** Modelled from the spec: [previous_edges] and [next_edges], of
    [pipeline_graph.py]; the edges ending and starting at a name, in insertion
    order. *)
Definition previous_edges (n : string) (self : Pipeline) : list PipelineEdge :=
  filter (fun e => end_ e = n) (_edges self).

(** Modelled from the spec: [next_edges], of [pipeline_graph.py]. *)
Definition next_edges (n : string) (self : Pipeline) : list PipelineEdge :=
  filter (fun e => start e = n) (_edges self).

(** Modelled from the spec: [roots], of [pipeline_graph.py]; the nodes with no
    incoming edge. *)
Definition roots (self : Pipeline) : list TaskPipelineNode :=
  filter (fun t => previous_edges (name t) self = []) (_nodes self).

(** Modelled from the spec: [is_leaf], of [pipeline_graph.py]; no outgoing
    edge. *)
Definition is_leaf (n : string) (self : Pipeline) : bool :=
  bool_decide (next_edges n self = []).

Definition successors (self : Pipeline) (n : string) : list string :=
  end_ <$> next_edges n self.

(** Depth-first visit with the three colours: [gray] is the stack of nodes
    being visited, [black] the nodes whose visit is over, every other node is
    white.  Returns whether an edge back to a gray node was met, and the black
    nodes afterwards.  [fuel] bounds the depth of the stack; a graph of [k]
    nodes never needs more than [k + 1]. *)
Fixpoint dfs_visit (succ : string -> list string) (fuel : nat)
    (gray black : list string) (n : string) : bool * list string :=
  match fuel with
  | 0 => (true, black)
  | S fuel' =>
      if decide (n ∈ gray) then (true, black)
      else if decide (n ∈ black) then (false, black)
      else
        let fix visit_all (ss : list string) (black : list string) :=
          match ss with
          | [] => (false, black)
          | s :: ss' =>
              let '(found, black') := dfs_visit succ fuel' (n :: gray) black s in
              if found then (true, black') else visit_all ss' black'
          end in
        let '(found, black') := visit_all (succ n) black in
        if found then (true, black') else (false, n :: black')
  end.

(** The loop over the successors of a node, and the loop over the roots of the
    search. *)
Fixpoint dfs_all (succ : string -> list string) (fuel : nat)
    (gray : list string) (ss : list string) (black : list string) : bool * list string :=
  match ss with
  | [] => (false, black)
  | s :: ss' =>
      let '(found, black') := dfs_visit succ fuel gray black s in
      if found then (true, black') else dfs_all succ fuel gray ss' black'
  end.

(** Modelled from the spec: [PipelineGraph.is_cyclic], of [pipeline_graph.py];
    a depth-first search with white, gray and black nodes started from every
    node, a back edge to a gray node signalling a cycle. *)
Definition is_cyclic (self : Pipeline) : bool :=
  fst (dfs_all (successors self) (S (length (_nodes self))) [] (node_names self) []).

(** ** [Pipeline]: assembling the graph *)

(** [Pipeline.add_component] *)
Definition add_component (c : Component) (n : string) (self : Pipeline) : result Pipeline :=
  add_node (new_task n c) self.

(** [Pipeline.set_component] *)
Definition set_component (n : string) (c : Component) (self : Pipeline) : result Pipeline :=
  set_node (new_task n c) self.

(** [Pipeline.connect].  The pipeline is mutated in place, so the result pairs
    the outcome with the pipeline as the call leaves it. *)
Definition connect (start_component_name end_component_name : string)
    (input_config : option input_config_t) (self : Pipeline) : result unit * Pipeline :=
  let edge := mkEdge start_component_name end_component_name (Some input_config) in
  match add_edge edge self with
  | Raise (KeyError _) => (Raise PipelineDefinitionError, self)
  | Raise e => (Raise e, self)
  | Ok self' =>
      if is_cyclic self' then (Raise PipelineDefinitionError, self')
      else (Ok tt, self')
  end.

(** ** Sequencing computations that may raise *)

Definition rbind {A B} (r : result A) (k : A -> result B) : result B :=
  match r with
  | Ok a => k a
  | Raise e => Raise e
  end.

Notation "x <-? r ;; k" := (rbind r (fun x => k))
  (at level 100, r at next level, k at level 200, right associativity,
   format "'[v' x  <-?  r  ;; '/' k ']'").

(** A [for] loop whose body may raise: stops at the first exception. *)
Fixpoint for_each {A} (body : A -> result unit) (l : list A) : result unit :=
  match l with
  | [] => Ok tt
  | a :: l' => _ <-? body a ;; for_each body l'
  end.

(** ** The orchestrator: what only reads the pipeline *)

(** [Orchestrator.check_dependencies_complete] *)
Definition check_dependencies_complete (task : TaskPipelineNode) (self : Pipeline)
  : result unit :=
  let dependencies := previous_edges (name task) self in
  for_each (fun d =>
    start_node <-? get_node_by_name (start d) self ;;
    let d_status := read_status start_node in
    if decide (d_status <> DONE) then Raise PipelineMissingDependencyError
    else Ok tt) dependencies.

(** The loop of [Orchestrator.next] over the outgoing edges.  The generator is
    consumed by a list comprehension before any of the tasks it yields is
    started, and it only suspends on locks that nobody holds, so it is a
    function from the state of the pipeline to the list of nodes yielded. *)
Fixpoint next_loop (possible_nexts : list PipelineEdge) (self : Pipeline)
  : result (list TaskPipelineNode) :=
  match possible_nexts with
  | [] => Ok []
  | next_edge :: rest =>
      next_node <-? get_node_by_name (end_ next_edge) self ;;
      let next_node_status := read_status next_node in
      if decide (next_node_status ∈ [RUNNING; DONE]) then next_loop rest self
      else
        match check_dependencies_complete next_node self with
        | Raise PipelineMissingDependencyError => next_loop rest self
        | Raise e => Raise e
        | Ok _ =>
            yielded <-? next_loop rest self ;;
            Ok (next_node :: yielded)
        end
  end.

(** [Orchestrator.next] *)
Definition next (task : TaskPipelineNode) (self : Pipeline)
  : result (list TaskPipelineNode) :=
  next_loop (next_edges (name task) self) self.

(** [dict.update] on a dictionary kept in insertion order: an existing key
    keeps its place and takes the new value, a new key goes to the end. *)
Fixpoint dict_set {V} (k : string) (v : V) (d : list (string * V)) : list (string * V) :=
  match d with
  | [] => [(k, v)]
  | (k', v') :: d' => if decide (k' = k) then (k, v) :: d' else (k', v') :: dict_set k v d'
  end.

Definition dict_update {V} (d new : list (string * V)) : list (string * V) :=
  foldl (fun acc kv => dict_set kv.1 kv.2 acc) d new.

(** [(edge.data or {}).get("input_config") or {}] *)
Definition edge_input_config (e : PipelineEdge) : input_config_t :=
  match data e with
  | Some (Some cfg) => cfg
  | _ => []
  end.

(** The loop of [Orchestrator.get_input_config_for_task] over the incoming
    edges, [input_config] being the dictionary built so far. *)
Fixpoint input_config_loop (prev_edges : list PipelineEdge) (input_config : input_config_t)
    (self : Pipeline) : result input_config_t :=
  match prev_edges with
  | [] => Ok input_config
  | prev_edge :: rest =>
      prev_node <-? get_node_by_name (start prev_edge) self ;;
      let prev_status := read_status prev_node in
      if decide (prev_status <> DONE) then Raise PipelineMissingDependencyError
      else input_config_loop rest (dict_update input_config (edge_input_config prev_edge)) self
  end.

(** [Orchestrator.get_input_config_for_task] *)
Definition get_input_config_for_task (task : TaskPipelineNode) (self : Pipeline)
  : result input_config_t :=
  input_config_loop (previous_edges (name task) self) [] self.

(** ** Result stores *)

(** Modelled from the spec: [InMemoryStore], of [stores.py]; [add] inserts or
    overwrites, [get] returns the value or fails with a lookup error, [empty]
    clears the store, [all] is the whole mapping. *)
Definition store_add (k : string) (v : value) (st : gmap string value) : gmap string value :=
  <[k := v]> st.

(** Modelled from the spec: [InMemoryStore.get]; the value or a lookup
    error. *)
Definition store_get (k : string) (st : gmap string value) : result value :=
  match st !! k with
  | Some v => Ok v
  | None => Raise (KeyError k)
  end.

(** Modelled from the spec: [InMemoryStore.empty]. *)
Definition store_empty : gmap string value := ∅.

Definition with_stores (st fin : gmap string value) (self : Pipeline) : Pipeline :=
  {| _nodes := _nodes self; _edges := _edges self; _store := st; _final_results := fin |}.

(** [Pipeline.add_result_for_component] *)
Definition add_result_for_component (n : string) (res : value) (is_final : bool)
    (self : Pipeline) : Pipeline :=
  with_stores (store_add n res (_store self))
              (if is_final then store_add n res (_final_results self)
               else _final_results self) self.

(** [Pipeline.on_task_complete]: a data model is saved as its dump, the absence
    of one as [None]. *)
Definition pipeline_on_task_complete (task : TaskPipelineNode) (res : RunResult)
    (self : Pipeline) : Pipeline :=
  let res_to_save :=
    match rr_result res with
    | Some dumped => VDict dumped
    | None => VNone
    end in
  add_result_for_component (name task) res_to_save (is_leaf (name task) self) self.

(** [Pipeline.get_results_for_component] *)
Definition get_results_for_component (n : string) (self : Pipeline) : result value :=
  store_get n (_store self).

(** [Pipeline.reinitialize] *)
Definition reinitialize (self : Pipeline) : Pipeline :=
  {| _nodes := task_reinitialize <$> _nodes self; _edges := _edges self;
     _store := store_empty; _final_results := store_empty |}.

(** ** The world: the pipeline and the caller's objects *)

(** The run input is a dictionary from component names to dictionaries.  The
    inner dictionaries are objects that the orchestrator writes to, so they
    live in a heap and the outer dictionary holds their addresses. *)
Abbreviation loc := nat.
Abbreviation input_data_t := (gmap string loc).

Record Warning : Type := mkWarning {
  warned_component : string;
  warned_parameter : string;
  warned_mapping : string
}.

Record World : Type := mkWorld {
  pipeline : Pipeline;
  heap : gmap loc pydict;
  warnings : list Warning
}.

Definition with_pipeline (p : Pipeline) (w : World) : World :=
  {| pipeline := p; heap := heap w; warnings := warnings w |}.

Definition with_heap (h : gmap loc pydict) (w : World) : World :=
  {| pipeline := pipeline w; heap := h; warnings := warnings w |}.

Definition deref (l : loc) (w : World) : pydict := default ∅ (heap w !! l).

(** Computations that read and write the world and may raise; what was written
    before an exception stays written. *)
Definition M (A : Type) : Type := World -> result A * World.

Definition pure {A} (a : A) : M A := fun w => (Ok a, w).
Definition raise {A} (e : exn) : M A := fun w => (Raise e, w).
Definition lift {A} (r : result A) : M A := fun w => (r, w).
Definition gets {A} (f : World -> A) : M A := fun w => (Ok (f w), w).
Definition modify (f : World -> World) : M unit := fun w => (Ok tt, f w).
Definition bind {A B} (m : M A) (k : A -> M B) : M B :=
  fun w => match m w with
           | (Ok a, w') => k a w'
           | (Raise e, w') => (Raise e, w')
           end.

Notation "x <- m ;; k" := (bind m (fun x => k))
  (at level 100, m at next level, k at level 200, right associativity,
   format "'[v' x  <-  m  ;; '/' k ']'").

Fixpoint for_eachM {A} (body : A -> M unit) (l : list A) : M unit :=
  match l with
  | [] => pure tt
  | a :: l' => _ <- body a ;; for_eachM body l'
  end.

(** ** The orchestrator: resolving the inputs of a component *)

(** [component_result.get(output_param)]: only a dictionary has [get]; an
    absent key gives [None]. *)
Definition value_get (v : value) (k : string) : result value :=
  match v with
  | VDict d => Ok (default VNone (d !! k))
  | _ => Raise AttributeError
  end.

(** [input_data.get(component_name, {})]: the caller's own dictionary when
    there is one, a new empty one otherwise. *)
Definition input_data_get (component_name : string) (input_data : input_data_t) : M loc :=
  fun w =>
    match input_data !! component_name with
    | Some l => (Ok l, w)
    | None =>
        let l := fresh (dom (heap w)) in
        (Ok l, with_heap (<[l := ∅]> (heap w)) w)
    end.

(** [component_inputs[parameter] = value] *)
Definition setitem (l : loc) (k : string) (v : value) : M unit :=
  modify (fun w => with_heap (<[l := <[k := v]> (deref l w)]> (heap w)) w).

Definition warn (msg : Warning) : M unit :=
  modify (fun w => {| pipeline := pipeline w; heap := heap w;
                      warnings := warnings w ++ [msg] |}).

(** The body of the loop of [get_component_inputs] over [input_config.items()]. *)
Definition resolve_parameter (component_name : string) (component_inputs : loc)
    (item : string * string) : M unit :=
  let '(parameter, mapping) := item in
  let '(component_, output_param) := parse_mapping mapping in
  component_result <- (fun w => (get_results_for_component component_ (pipeline w), w)) ;;
  value_ <- lift (match output_param with
                  | Some field => value_get component_result field
                  | None => Ok component_result
                  end) ;;
  present <- gets (fun w => bool_decide (is_Some (deref component_inputs w !! parameter))) ;;
  _ <- (if present then warn (mkWarning component_name parameter mapping) else pure tt) ;;
  setitem component_inputs parameter value_.

(** [Orchestrator.get_component_inputs].  It returns the address of the
    dictionary it filled in. *)
Definition get_component_inputs (component_name : string) (input_config : input_config_t)
    (input_data : input_data_t) : M loc :=
  component_inputs <- input_data_get component_name input_data ;;
  _ <- for_eachM (resolve_parameter component_name component_inputs) input_config ;;
  pure component_inputs.

(** ** [Pipeline]: validating the inputs *)

(** The body of the inner loop of [validate_inputs_config_for_task]: a mapping
    that names an output parameter must name a declared output of the source
    component.  The [except ValueError: continue] branch is the [None] case;
    an empty parameter name passes the [if param_name and ...] test. *)
Definition check_mapped_output (self : Pipeline) (item : string * string) : result unit :=
  let '(param, path) := item in
  match parse_mapping path with
  | (_, None) => Ok tt
  | (source_component_name, Some param_name) =>
      source_node <-? get_node_by_name source_component_name self ;;
      let source_component := component source_node in
      let source_component_outputs := component_outputs source_component in
      if decide (param_name <> "" /\ param_name ∉ source_component_outputs)
      then Raise PipelineDefinitionError
      else Ok tt
  end.

(** The loop over the incoming edges, [actual_inputs] being the list built so
    far. *)
Fixpoint validate_edges (prev_edges : list PipelineEdge) (actual_inputs : list string)
    (self : Pipeline) : result (list string) :=
  match prev_edges with
  | [] => Ok actual_inputs
  | edge :: rest =>
      let edge_inputs := edge_input_config edge in
      _ <-? for_each (check_mapped_output self) edge_inputs ;;
      validate_edges rest (actual_inputs ++ (fst <$> edge_inputs)) self
  end.

(** The keys of [input_data.get(task.name, {})]. *)
Definition supplied_keys (n : string) (input_data : input_data_t) (h : gmap loc pydict)
  : list string :=
  match input_data !! n with
  | Some l => elements (dom (default ∅ (h !! l)))
  | None => []
  end.

(** [Pipeline.validate_inputs_config_for_task] *)
Definition validate_inputs_config_for_task (task : TaskPipelineNode)
    (input_data : input_data_t) (h : gmap loc pydict) (self : Pipeline) : result bool :=
  let component_ := component task in
  let expected_mandatory_inputs : gset string :=
    dom (filter (fun item => item.2 = false) (component_inputs component_)) in
  let actual_inputs := supplied_keys (name task) input_data h in
  let prev_edges := previous_edges (name task) self in
  actual_inputs <-? validate_edges prev_edges actual_inputs self ;;
  if decide (expected_mandatory_inputs ∖ list_to_set actual_inputs = ∅)
  then Ok true
  else Raise PipelineDefinitionError.

(** [Pipeline.validate_inputs_config] *)
Definition validate_inputs_config (input_data : input_data_t) (h : gmap loc pydict)
    (self : Pipeline) : result unit :=
  for_each (fun task =>
    _ <-? validate_inputs_config_for_task task input_data h self ;; Ok tt) (_nodes self).

(** ** Running the pipeline *)

Definition get_node (n : string) : M TaskPipelineNode :=
  fun w => (get_node_by_name n (pipeline w), w).

(** A write to an attribute of a node: the node stored in the graph is the
    object every holder of the node sees. *)
Definition put_node (t : TaskPipelineNode) : M unit :=
  modify (fun w =>
    with_pipeline (with_nodes (replace_node t (_nodes (pipeline w))) (pipeline w)) w).

(** [Orchestrator.run_task] as far as the [await] of [component.run] in
    [execute]: the inputs are resolved, then the node is moved to
    [RUNNING].  Returns the keyword arguments handed to the component, or
    [None] when the move was rejected and [execute] returned [None]. *)
Definition run_task_begin (n : string) (input_data : input_data_t) : M (option pydict) :=
  task <- get_node n ;;
  input_config <- (fun w => (get_input_config_for_task task (pipeline w), w)) ;;
  inputs <- get_component_inputs (name task) input_config input_data ;;
  kwargs <- gets (deref inputs) ;;
  started <- lift (execute_begin task) ;;
  match started with
  | None => pure None
  | Some running => _ <- put_node running ;; pure (Some kwargs)
  end.

(** [Orchestrator.run_task] from the moment [component.run] is over: the rest
    of [execute], then [TaskPipelineNode.run] calls back
    [Orchestrator.on_task_complete], which saves the result and collects the
    tasks found by [next].  Returns the names of the tasks handed to
    [asyncio.gather]. *)
Definition run_task_finish (n : string) (kwargs : pydict) : M (list string) :=
  task <- get_node n ;;
  match component_run (component task) kwargs with
  | inl msg => raise (ComponentFailure msg)
  | inr component_result =>
      finished <- lift (execute_finish component_result task) ;;
      _ <- put_node finished.2 ;;
      _ <- modify (fun w =>
             with_pipeline (pipeline_on_task_complete finished.2 finished.1 (pipeline w)) w) ;;
      nexts <- (fun w => (next finished.2 (pipeline w), w)) ;;
      pure (name <$> nexts)
  end.

(** The state of one [Orchestrator.run]: the world, the [run_task] coroutines
    that [asyncio.gather] has created and the event loop has not started yet,
    the tasks suspended in [component.run] with the keyword arguments they
    were called with, and every call of a component made so far. *)
Record Sched : Type := mkSched {
  world : World;
  pending : list string;
  inflight : list (string * pydict);
  invoked : list (string * pydict)
}.

(** The event loop resumes one coroutine at a time, and a coroutine only
    suspends inside [component.run]; so a run is a sequence of two kinds of
    atomic steps, taken in any order the loop may choose. *)
Inductive event : Type :=
  | Start (n : string)
  | Complete (n : string).

Inductive outcome : Type :=
  | Stuck
  | Aborted (e : exn) (w : World)
  | Continue (s : Sched).

Fixpoint remove_first (n : string) (l : list string) : list string :=
  match l with
  | [] => []
  | x :: l' => if decide (x = n) then l' else x :: remove_first n l'
  end.

Fixpoint find_inflight (n : string) (l : list (string * pydict)) : option pydict :=
  match l with
  | [] => None
  | (x, kwargs) :: l' => if decide (x = n) then Some kwargs else find_inflight n l'
  end.

Fixpoint remove_inflight (n : string) (l : list (string * pydict)) : list (string * pydict) :=
  match l with
  | [] => []
  | (x, kwargs) :: l' => if decide (x = n) then l' else (x, kwargs) :: remove_inflight n l'
  end.

Definition step (input_data : input_data_t) (ev : event) (s : Sched) : outcome :=
  match ev with
  | Start n =>
      if decide (n ∈ pending s) then
        match run_task_begin n input_data (world s) with
        | (Raise e, w) => Aborted e w
        | (Ok None, w) =>
            Continue (mkSched w (remove_first n (pending s)) (inflight s) (invoked s))
        | (Ok (Some kwargs), w) =>
            Continue (mkSched w (remove_first n (pending s))
                        (inflight s ++ [(n, kwargs)]) (invoked s ++ [(n, kwargs)]))
        end
      else Stuck
  | Complete n =>
      match find_inflight n (inflight s) with
      | None => Stuck
      | Some kwargs =>
          match run_task_finish n kwargs (world s) with
          | (Raise e, w) => Aborted e w
          | (Ok nexts, w) =>
              Continue (mkSched w (pending s ++ nexts)
                          (remove_inflight n (inflight s)) (invoked s))
          end
      end
  end.

Fixpoint run_events (input_data : input_data_t) (evs : list event) (s : Sched) : outcome :=
  match evs with
  | [] => Continue s
  | ev :: evs' =>
      match step input_data ev s with
      | Continue s' => run_events input_data evs' s'
      | stopped => stopped
      end
  end.

(** [Orchestrator.run] gathers one [run_task] per root. *)
Definition orchestrator_start (w : World) : Sched :=
  mkSched w (name <$> roots (pipeline w)) [] [].

(** Nothing left to start and nothing suspended: every gathered coroutine has
    returned. *)
Definition quiescent (s : Sched) : bool :=
  bool_decide (pending s = [] /\ inflight s = []).

(** [Pipeline.run] under the schedule [evs] chosen by the event loop: the
    value returned or the exception raised, with the world the call leaves.
    [None] when [evs] is not a complete schedule of this run. *)
Definition run (input_data : input_data_t) (evs : list event) (w : World)
  : option (result (gmap string value) * World) :=
  match validate_inputs_config input_data (heap w) (pipeline w) with
  | Raise e => Some (Raise e, w)
  | Ok _ =>
      let w1 := with_pipeline (reinitialize (pipeline w)) w in
      match run_events input_data evs (orchestrator_start w1) with
      | Stuck => None
      | Aborted e w' => Some (Raise e, w')
      | Continue s =>
          if quiescent s then Some (Ok (_final_results (pipeline (world s))), world s)
          else None
      end
  end.

(** ** Well-formed pipelines and readiness *)

(** What the assembly API maintains: node names are unique and every edge
    joins two nodes of the graph. *)
Definition wf_pipeline (self : Pipeline) : Prop :=
  NoDup (node_names self) /\
  Forall (fun e => start e ∈ node_names self /\ end_ e ∈ node_names self) (_edges self).

Definition status_of (n : string) (self : Pipeline) : option RunStatus :=
  status <$> find_node n (_nodes self).

(** Every predecessor of [n] reads [DONE]. *)
Definition dependencies_done (self : Pipeline) (n : string) : Prop :=
  Forall (fun d => status_of (start d) self = Some DONE) (previous_edges n self).

(** The two checks of [next] on a child, in the words of its docstring: not
    already running or done, and all dependencies met. *)
Definition ready (self : Pipeline) (n : string) : Prop :=
  status_of n self <> Some RUNNING /\ status_of n self <> Some DONE /\
  dependencies_done self n.

#[global] Instance wf_pipeline_dec self : Decision (wf_pipeline self).
Proof. unfold wf_pipeline. apply _. Defined.

#[global] Instance dependencies_done_dec self n : Decision (dependencies_done self n).
Proof. unfold dependencies_done. apply _. Defined.

#[global] Instance ready_dec self n : Decision (ready self n).
Proof. unfold ready. apply _. Defined.

(** ** Cycles *)

(** A non-empty path along the edges of the graph. *)
Inductive path (succ : string -> list string) : string -> string -> Prop :=
  | path_edge x y : y ∈ succ x -> path succ x y
  | path_step x y z : y ∈ succ x -> path succ y z -> path succ x z.

(** The graph contains a cycle. *)
Definition cyclic (self : Pipeline) : Prop :=
  exists n, path (successors self) n n.

(** The black nodes in the order they were finished, last first: no node
    twice, and every successor of a node was finished before it. *)
Inductive finished (succ : string -> list string) : list string -> Prop :=
  | finished_nil : finished succ []
  | finished_cons b l :
      finished succ l -> b ∉ l -> (forall s, s ∈ succ b -> s ∈ l) ->
      finished succ (b :: l).

(** ** What a mapping reference denotes *)

(** The value a reference stands for, given the result store: the whole result
    stored for the component, or one field of it. *)
Definition resolved (st : gmap string value) (mapping : string) : result value :=
  let '(component_, output_param) := parse_mapping mapping in
  component_result <-? store_get component_ st ;;
  match output_param with
  | Some field => value_get component_result field
  | None => Ok component_result
  end.

(** The warnings due for a configuration laid over the dictionary [d]: one per
    parameter that [d] already defines. *)
Definition expected_warnings (component_name : string) (d : pydict)
    (input_config : input_config_t) : list Warning :=
  (fun item => mkWarning component_name item.1 item.2) <$>
    filter (fun item => is_Some (d !! item.1)) input_config.

(** The dictionary obtained by laying every resolved entry of a configuration
    over [d], in order. *)
Definition overlay (st : gmap string value) (d : pydict) (cfg : input_config_t) : pydict :=
  foldl (fun acc item =>
           match resolved st item.2 with
           | Ok v => <[item.1 := v]> acc
           | Raise _ => acc
           end) d cfg.

(** ** What validation looks for *)

(** The parameter names mapped by the incoming edges of a task. *)
Definition edge_parameters (e : PipelineEdge) : list string :=
  (edge_input_config e).*1.

Definition mapped_parameters (n : string) (self : Pipeline) : list string :=
  previous_edges n self ≫= edge_parameters.

(** A mandatory input of the task (declared without a default) that neither
    the user nor an incoming edge supplies. *)
Definition missing_mandatory_input (input_data : input_data_t) (h : gmap loc pydict)
    (self : Pipeline) (task : TaskPipelineNode) : Prop :=
  exists k, component_inputs (component task) !! k = Some false /\
            (k ∉ supplied_keys (name task) input_data h) /\
            (k ∉ mapped_parameters (name task) self).

(** An incoming edge of the task maps a reference [c.f] whose field [f] is not
    a declared output of the component [c]. *)
Definition maps_undeclared_field (self : Pipeline) (task : TaskPipelineNode)
    (f : string) : Prop :=
  exists edge item c src,
    edge ∈ previous_edges (name task) self /\ item ∈ edge_input_config edge /\
    parse_mapping item.2 = (c, Some f) /\
    find_node c (_nodes self) = Some src /\
    f ∉ component_outputs (component src).

(** Every reference of the form [c.f] on an edge names a component of the
    pipeline. *)
Definition references_known (self : Pipeline) : Prop :=
  forall edge item c f,
    edge ∈ _edges self -> item ∈ edge_input_config edge ->
    parse_mapping item.2 = (c, Some f) -> c ∈ node_names self.

(** An entry of an edge's configuration that [check_mapped_output] rejects. *)
Definition rejected_item (self : Pipeline) (item : string * string) : Prop :=
  exists c f src, parse_mapping item.2 = (c, Some f) /\ f <> "" /\
    find_node c (_nodes self) = Some src /\ f ∉ component_outputs (component src).

(** ** What holds throughout a run *)

Definition component_of (n : string) (self : Pipeline) : option Component :=
  component <$> find_node n (_nodes self).

(** What [Pipeline.on_task_complete] saves for a component result. *)
Definition saved (out : option pydict) : value :=
  match out with
  | Some dumped => VDict dumped
  | None => VNone
  end.

(** The state of a run of the pipeline whose graph is that of [p0]. *)
Record run_invariant (p0 : Pipeline) (s : Sched) : Prop := mkRunInvariant {
  inv_names : node_names (pipeline (world s)) = node_names p0;
  inv_edges : _edges (pipeline (world s)) = _edges p0;
  inv_components : forall n, component_of n (pipeline (world s)) = component_of n p0;
  inv_inflight_running : forall n kwargs,
    (n, kwargs) ∈ inflight s -> status_of n (pipeline (world s)) = Some RUNNING;
  inv_inflight_nodup : NoDup (inflight s).*1;
  inv_running_inflight : forall n,
    status_of n (pipeline (world s)) = Some RUNNING -> n ∈ (inflight s).*1;
  inv_inflight_invoked : forall item, item ∈ inflight s -> item ∈ invoked s;
  inv_invoked_nodup : NoDup (invoked s).*1;
  inv_invoked_status : forall n,
    n ∈ (invoked s).*1 <->
    status_of n (pipeline (world s)) = Some RUNNING \/
    status_of n (pipeline (world s)) = Some DONE;
  inv_invoked_deps : forall n,
    n ∈ (invoked s).*1 -> dependencies_done (pipeline (world s)) n;
  inv_ready_scheduled : forall n,
    n ∈ node_names (pipeline (world s)) -> dependencies_done (pipeline (world s)) n ->
    n ∈ pending s \/
    status_of n (pipeline (world s)) = Some RUNNING \/
    status_of n (pipeline (world s)) = Some DONE;
  inv_final_sound : forall n v,
    _final_results (pipeline (world s)) !! n = Some v ->
    is_leaf n (pipeline (world s)) = true /\
    status_of n (pipeline (world s)) = Some DONE /\
    exists kwargs c out,
      (n, kwargs) ∈ invoked s /\ component_of n (pipeline (world s)) = Some c /\
      component_run c kwargs = inr out /\ v = saved out;
  inv_final_complete : forall n,
    is_leaf n (pipeline (world s)) = true ->
    status_of n (pipeline (world s)) = Some DONE ->
    is_Some (_final_results (pipeline (world s)) !! n)
}.

(** A bound on the number of steps a run can still take: one per coroutine to
    start, and for every task that is suspended or has not run yet, its own
    steps and one start per outgoing edge. *)
Definition out_degree (self : Pipeline) (n : string) : nat :=
  length (next_edges n self).

Definition steps_left (s : Sched) : nat :=
  let p := pipeline (world s) in
  length (pending s)
  + sum_list_with (fun item => 1 + out_degree p item.1) (inflight s)
  + sum_list_with (fun t => if decide (status t = RUNNING \/ status t = DONE) then 0
                            else 2 + out_degree p (name t)) (_nodes p).

(** The assignment of a status to the node called [n]. *)
Definition set_node_status (n : string) (st : RunStatus) (self : Pipeline) : Pipeline :=
  match find_node n (_nodes self) with
  | Some task => with_nodes (replace_node (with_status st task) (_nodes self)) self
  | None => self
  end.

(** ** Example pipelines *)

(** A source with one output, [y = 5]. *)
Definition component_P1 : Component :=
  mkComponent ∅ {["y"]} (fun _ => inr (Some {["y" := VInt 5]})).

(** A consumer with one mandatory input [x], which it returns as [z]. *)
Definition component_P2 : Component :=
  mkComponent {["x" := false]} {["z"]}
    (fun kwargs => inr (Some {["z" := default VNone (kwargs !! "x")]})).

(** A component that always fails. *)
Definition component_failing : Component :=
  mkComponent ∅ ∅ (fun _ => inl "boom").

Definition empty_pipeline : Pipeline := mkPipeline [] [] ∅ ∅.

(** [P1 -> P2], the edge mapping parameter [x] of [P2] from [reference]. *)
Definition chain (reference : string) : Pipeline :=
  mkPipeline [new_task "P1" component_P1; new_task "P2" component_P2]
             [mkEdge "P1" "P2" (Some (Some [("x", reference)]))] ∅ ∅.

(** A consumer of two inputs, which it returns as they came. *)
Definition component_both : Component :=
  mkComponent {["x" := false; "z" := false]} {["x"; "z"]} (fun kwargs => inr (Some kwargs)).

(** Two roots [A] and [B] and the consumer [C] of both. *)
Definition diamond : Pipeline :=
  mkPipeline [new_task "A" component_P1; new_task "B" component_P1;
              new_task "C" component_both]
             [mkEdge "A" "C" (Some (Some [("x", "A.y")]));
              mkEdge "B" "C" (Some (Some [("z", "B.y")]))] ∅ ∅.

(** [A -> B] closed by [B -> A], and [A -> B -> C]. *)
Definition two_cycle : Pipeline :=
  mkPipeline [new_task "A" component_P1; new_task "B" component_P1]
             [mkEdge "A" "B" None; mkEdge "B" "A" None] ∅ ∅.

Definition three_chain : Pipeline :=
  mkPipeline [new_task "A" component_P1; new_task "B" component_P1;
              new_task "C" component_P1]
             [mkEdge "A" "B" None; mkEdge "B" "C" None] ∅ ∅.

(** The chain [P1 -> P2] once [P1] is done and its result is stored. *)
Definition chain_P1_done : Pipeline :=
  mkPipeline [with_status DONE (new_task "P1" component_P1);
              with_status SCHEDULED (new_task "P2" component_P2)]
             [mkEdge "P1" "P2" (Some (Some [("x", "P1.y")]))]
             {["P1" := VDict {["y" := VInt 5]}]} ∅.

(** A caller whose input holds, for [P2], a dictionary that already defines
    [x]. *)
Definition caller_data : input_data_t := {["P2" := 0]}.
Definition caller_heap : gmap loc pydict := {[0 := {["x" := VInt 1]}]}.

(** What [invoked] holds at the end of a schedule, if the schedule runs
    through. *)
Definition calls_of (o : outcome) : option (list (string * pydict)) :=
  match o with
  | Continue s => Some (invoked s)
  | _ => None
  end.

(** Whether a schedule ran through and left nothing to do. *)
Definition at_rest (o : outcome) : bool :=
  match o with
  | Continue s => quiescent s
  | _ => false
  end.

(** ** Building a pipeline from a template *)

(** Modelled from the spec: [ComponentConfig], of [types.py], with the fields
    [name] and [component] that [from_template] reads. *)
Record ComponentConfig : Type := mkComponentConfig {
  cc_name : string;
  cc_component : Component
}.

(** Modelled from the spec: [ConnectionConfig], of [types.py], with the fields
    [start], [end] and [input_config] that [from_template] reads; the last
    one is passed on as it is, [None] included. *)
Record ConnectionConfig : Type := mkConnectionConfig {
  conn_start : string;
  conn_end : string;
  conn_input_config : option input_config_t
}.

(** Modelled from the spec: [PipelineConfig], of [types.py]: the components
    and the connections, in the order [from_template] goes through them. *)
Record PipelineConfig : Type := mkPipelineConfig {
  components : list ComponentConfig;
  connections : list ConnectionConfig
}.

(** [Pipeline.__init__]: an empty graph over the given store, or over a new
    one. *)
Definition new_pipeline (store : option (gmap string value)) : Pipeline :=
  mkPipeline [] [] (default store_empty store) store_empty.

(** The first loop of [from_template]. *)
Fixpoint add_components (cs : list ComponentConfig) (self : Pipeline) : result Pipeline :=
  match cs with
  | [] => Ok self
  | c :: cs' =>
      self' <-? add_component (cc_component c) (cc_name c) self ;;
      add_components cs' self'
  end.

(** The edge that [from_template] builds for a connection. *)
Definition template_edge (edge : ConnectionConfig) : PipelineEdge :=
  mkEdge (conn_start edge) (conn_end edge) (Some (conn_input_config edge)).

(** The second loop of [from_template]. *)
Fixpoint add_connections (es : list ConnectionConfig) (self : Pipeline) : result Pipeline :=
  match es with
  | [] => Ok self
  | edge :: es' =>
      self' <-? add_edge (template_edge edge) self ;;
      add_connections es' self'
  end.

(** [Pipeline.from_template] *)
Definition from_template (pipeline_template : PipelineConfig)
    (store : option (gmap string value)) : result Pipeline :=
  pipeline_ <-? add_components (components pipeline_template) (new_pipeline store) ;;
  add_connections (connections pipeline_template) pipeline_.

(** ** Dictionaries in insertion order *)

(** [d.get(k)] on a dictionary kept in insertion order. *)
Fixpoint dict_get {V} (k : string) (d : list (string * V)) : option V :=
  match d with
  | [] => None
  | (k', v) :: d' => if decide (k' = k) then Some v else dict_get k d'
  end.

(** The value of the last assignment to [k] in a sequence of assignments. *)
Fixpoint last_assigned {V} (k : string) (l : list (string * V)) : option V :=
  match l with
  | [] => None
  | (k', v) :: l' =>
      match last_assigned k l' with
      | Some v' => Some v'
      | None => if decide (k' = k) then Some v else None
      end
  end.

(** Every entry of the configurations of the edges into [n], in the order
    [get_input_config_for_task] meets them. *)
Definition incoming_config (n : string) (self : Pipeline) : input_config_t :=
  previous_edges n self ≫= edge_input_config.

(** The keys of the edges: ordered pairs of names. *)
Definition edge_keys (self : Pipeline) : list (string * string) :=
  (fun e => (start e, end_ e)) <$> _edges self.

(** The task that [add_component] creates for an entry of a template. *)
Definition template_task (c : ComponentConfig) : TaskPipelineNode :=
  new_task (cc_name c) (cc_component c).

(** ** More of what holds throughout a run *)

(** The leaves of the graph. *)
Definition leaves (self : Pipeline) : list string :=
  filter (fun n => is_leaf n self = true) (node_names self).

(** The state of a run started from the heap [h0]: the coroutines waiting to
    start have all their dependencies done; the result store holds exactly the
    saved outputs of the tasks that are done; no dictionary of the heap has
    lost a key; and a component is called after the components it depends
    on. *)
Record run_store_invariant (h0 : gmap loc pydict) (s : Sched) : Prop :=
  mkRunStoreInvariant {
  inv_pending_ready : forall n,
    n ∈ pending s ->
    n ∈ node_names (pipeline (world s)) /\ dependencies_done (pipeline (world s)) n;
  inv_store_done : forall n,
    status_of n (pipeline (world s)) = Some DONE ->
    exists kwargs c out,
      (n, kwargs) ∈ invoked s /\ component_of n (pipeline (world s)) = Some c /\
      component_run c kwargs = inr out /\
      _store (pipeline (world s)) !! n = Some (saved out);
  inv_store_sound : forall n,
    is_Some (_store (pipeline (world s)) !! n) ->
    status_of n (pipeline (world s)) = Some DONE;
  inv_heap_grows : forall l,
    dom (default ∅ (h0 !! l)) ⊆ dom (deref l (world s));
  inv_invoked_order : forall i n kwargs d,
    invoked s !! i = Some (n, kwargs) ->
    d ∈ previous_edges n (pipeline (world s)) ->
    exists j kwargs', j < i /\ invoked s !! j = Some (start d, kwargs')
}.

(** The world an outcome leaves, if the schedule could be followed. *)
Definition outcome_world (o : outcome) : option World :=
  match o with
  | Stuck => None
  | Aborted _ w => Some w
  | Continue s => Some (world s)
  end.

(** What a run never does to the heap of a caller who passed [input_data]:
    take a key away from a dictionary, or touch a dictionary that
    [input_data] does not hold. *)
Definition heap_extends (input_data : input_data_t) (w w' : World) : Prop :=
  (forall l, dom (deref l w) ⊆ dom (deref l w')) /\
  (forall l d, heap w !! l = Some d -> (forall n, input_data !! n <> Some l) ->
     heap w' !! l = Some d).

(** Every component of the pipeline returns a data model, whatever its
    inputs: it neither fails nor returns [None]. *)
Definition components_return_models (self : Pipeline) : Prop :=
  forall t kwargs, t ∈ _nodes self ->
    exists d, component_run (component t) kwargs = inr (Some d).

(** Every reference on an edge into a task names a component with an edge into
    that task. *)
Definition references_predecessors (self : Pipeline) : Prop :=
  Forall (fun e =>
    Forall (fun item =>
      Exists (fun d => start d = (parse_mapping item.2).1)
             (previous_edges (end_ e) self))
      (edge_input_config e)) (_edges self).

#[global] Instance references_predecessors_dec self :
  Decision (references_predecessors self).
Proof. unfold references_predecessors. apply _. Defined.

(** The configuration that [get_input_config_for_task] builds for the task
    [n] once its dependencies are done. *)
Definition task_config (self : Pipeline) (n : string) : input_config_t :=
  dict_update [] (incoming_config n self).

(** What the caller passed for the task [n] in the heap [h0]. *)
Definition user_inputs (input_data : input_data_t) (h0 : gmap loc pydict) (n : string)
  : pydict :=
  match input_data !! n with
  | Some l0 => default ∅ (h0 !! l0)
  | None => ∅
  end.

(** The inputs of the calls of a run started from the heap [h0]: the
    dictionary passed for a task is as the caller left it until the task
    starts; a component is called on the caller's inputs overlaid with the
    values of its references, which the store still holds; and the components
    it refers to were called before it. *)
Record run_inputs_invariant (p0 : Pipeline) (input_data : input_data_t)
    (h0 : gmap loc pydict) (s : Sched) : Prop := mkRunInputsInvariant {
  inv_untouched : forall n l0,
    input_data !! n = Some l0 -> n ∉ (invoked s).*1 ->
    heap (world s) !! l0 = h0 !! l0;
  inv_kwargs : forall n kwargs,
    (n, kwargs) ∈ invoked s ->
    Forall (fun item => exists v, resolved (_store (pipeline (world s))) item.2 = Ok v)
           (task_config p0 n) /\
    kwargs = overlay (_store (pipeline (world s))) (user_inputs input_data h0 n)
               (task_config p0 n);
  inv_references_before : forall i n kwargs item,
    invoked s !! i = Some (n, kwargs) -> item ∈ task_config p0 n ->
    exists j kwargs', j < i /\
      invoked s !! j = Some ((parse_mapping item.2).1, kwargs')
}.

(** The dictionaries of [input_data] exist in the heap, and no two components
    are given the same one. *)
Definition separate_inputs (input_data : input_data_t) (h0 : gmap loc pydict) : Prop :=
  (forall n l, input_data !! n = Some l -> is_Some (h0 !! l)) /\
  (forall n m l, input_data !! n = Some l -> input_data !! m = Some l -> n = m).

(** ** More example pipelines *)

(** Two roots [A] and [B], and a consumer [C] of [A] whose input is mapped
    from the result of [B]. *)
Definition crossed : Pipeline :=
  mkPipeline [new_task "A" component_P1; new_task "B" component_P1;
              new_task "C" component_P2]
             [mkEdge "A" "C" (Some (Some [("x", "B.y")]))] ∅ ∅.

(** The template of [A -> B] closed by [B -> A]. *)
Definition two_cycle_template : PipelineConfig :=
  mkPipelineConfig
    [mkComponentConfig "A" component_P1; mkComponentConfig "B" component_P1]
    [mkConnectionConfig "A" "B" None; mkConnectionConfig "B" "A" None].

(** A pipeline of one task, whose component fails. *)
Definition failing_pipeline : Pipeline :=
  mkPipeline [new_task "F" component_failing] [] ∅ ∅.

(** What a run may do to the values in the heap of a caller who passed
    [input_data] to the pipeline [p]: a dictionary stays in the heap, and a
    key keeps its value unless an edge maps that key into a component to
    which [input_data] gives the dictionary. *)
Definition writes_only_mapped (input_data : input_data_t) (p : Pipeline)
    (w w' : World) : Prop :=
  forall l d k,
    heap w !! l = Some d ->
    (forall n, input_data !! n = Some l -> k ∉ mapped_parameters n p) ->
    exists d', heap w' !! l = Some d' /\ d' !! k = d !! k.

(** A caller's heap whose dictionary for [P2] holds [x], which the edge of the
    chain maps, and [keep], which no edge maps. *)
Definition caller_heap_keep : gmap loc pydict :=
  {[0 := {["x" := VInt 1; "keep" := VInt 7]}]}.

(** * Properties *)

(** ** The status machine *)

Lemma set_status_raises s self e :
  set_status s self = Raise e -> e = PipelineStatusUpdateError.
Proof.
  unfold set_status. repeat case_decide; congruence.
Qed.

(** C1. [set_status s] is rejected with a status-update error exactly when [s]
    is the node's current status or when [s] is [RUNNING] and the node is
    [DONE]; it raises nothing else; every other pair succeeds and leaves the
    node with status [s], its name and component untouched. *)
Theorem set_status_transitions (self : TaskPipelineNode) (s : RunStatus) :
  (set_status s self = Raise PipelineStatusUpdateError <->
     s = status self \/ (s = RUNNING /\ status self = DONE)) /\
  (forall e, set_status s self = Raise e -> e = PipelineStatusUpdateError) /\
  (~ (s = status self \/ (s = RUNNING /\ status self = DONE)) ->
     exists self', set_status s self = Ok self' /\ status self' = s /\
       name self' = name self /\ component self' = component self).
Proof.
  split; [|split].
  - unfold set_status. repeat case_decide; split; intros H'; try done; tauto.
  - intros e. apply set_status_raises.
  - intros Hrej. exists (with_status s self). unfold set_status.
    repeat case_decide; tauto.
Qed.

(** ** [execute] *)

Lemma execute_begin_rejected self :
  status self = RUNNING \/ status self = DONE -> execute_begin self = Ok None.
Proof.
  unfold execute_begin, set_status. intros [H|H]; rewrite H; reflexivity.
Qed.

Lemma execute_begin_accepted self :
  status self <> RUNNING -> status self <> DONE ->
  execute_begin self = Ok (Some (with_status RUNNING self)).
Proof.
  unfold execute_begin, set_status. intros H1 H2.
  destruct (decide (RUNNING = status self)) as [E|_]; [congruence|].
  destruct (decide (RUNNING = RUNNING /\ status self = DONE)) as [[_ E]|_];
    [congruence|reflexivity].
Qed.

Lemma execute_begin_cases self :
  (execute_begin self = Ok None /\ (status self = RUNNING \/ status self = DONE)) \/
  (execute_begin self = Ok (Some (with_status RUNNING self)) /\
   status self <> RUNNING /\ status self <> DONE).
Proof.
  destruct (decide (status self = RUNNING)) as [H|H1].
  { left. split; [apply execute_begin_rejected|]; auto. }
  destruct (decide (status self = DONE)) as [H|H2].
  { left. split; [apply execute_begin_rejected|]; auto. }
  right. split; [apply execute_begin_accepted|]; auto.
Qed.

Lemma execute_finish_running out self :
  status self = RUNNING ->
  execute_finish out self = Ok (mkRunResult DONE out, with_status DONE self).
Proof.
  unfold execute_finish, set_status. intros H. rewrite H. reflexivity.
Qed.

(** C2. A node that is already [RUNNING] or [DONE] makes [execute] return
    [None] with no call of the component and no change to the node.  Any other
    node has its component called exactly once, with the given inputs; when
    that call returns [out] the node ends [DONE] and [execute] returns a
    [RunResult] with status [DONE] and result [out].  The only exception that
    leaves [execute] is the failure of the component itself, the node then
    staying [RUNNING]; the status-update error never leaves it. *)
Theorem execute_guarded (self : TaskPipelineNode) (kwargs : pydict) :
  (status self = RUNNING \/ status self = DONE ->
     execute self kwargs = mkExecuted (Ok None) self []) /\
  (status self <> RUNNING -> status self <> DONE ->
     invocations (execute self kwargs) = [kwargs] /\
     forall out, component_run (component self) kwargs = inr out ->
       returned (execute self kwargs) = Ok (Some (mkRunResult DONE out)) /\
       node_after (execute self kwargs) = with_status DONE self) /\
  (forall e, returned (execute self kwargs) = Raise e ->
     exists msg, e = ComponentFailure msg /\
       component_run (component self) kwargs = inl msg /\
       node_after (execute self kwargs) = with_status RUNNING self) /\
  returned (execute self kwargs) <> Raise PipelineStatusUpdateError.
Proof.
  split_and!.
  - intros H. unfold execute. rewrite execute_begin_rejected; auto.
  - intros H1 H2. unfold execute. rewrite execute_begin_accepted by done.
    cbn [component with_status].
    destruct (component_run _ _) as [msg|out'] eqn:Hrun.
    + split; [done|]. intros out Hout. congruence.
    + rewrite execute_finish_running by done. split; [done|].
      intros out Hout. injection Hout as <-. done.
  - intros e. unfold execute.
    destruct (execute_begin_cases self) as [[-> _]|[-> _]]; [done|].
    cbn [component with_status].
    destruct (component_run _ _) as [msg|out] eqn:Hrun.
    + intros [= <-]. by exists msg.
    + rewrite execute_finish_running by done. done.
  - unfold execute.
    destruct (execute_begin_cases self) as [[-> _]|[-> _]]; [done|].
    cbn [component with_status].
    destruct (component_run _ _); [done|].
    rewrite execute_finish_running by done. done.
Qed.

(** ** Looking nodes up *)

Lemma find_node_Some n ns t :
  find_node n ns = Some t -> name t = n /\ t ∈ ns.
Proof.
  induction ns as [|t' ns IH]; simpl; [done|].
  case_decide as Hn.
  - intros [= <-]. split; [done|]. apply list_elem_of_here.
  - intros H. destruct (IH H) as [? ?]. split; [done|]. by apply list_elem_of_further.
Qed.

Lemma find_node_None n ns :
  find_node n ns = None <-> n ∉ name <$> ns.
Proof.
  induction ns as [|t' ns IH]; simpl.
  - split; [intros _; apply not_elem_of_nil | done].
  - case_decide as Hn.
    + split; [done|]. intros H. exfalso. apply H. subst. apply list_elem_of_here.
    + rewrite IH, not_elem_of_cons. split; [intros ?; split; [congruence|done]|tauto].
Qed.

Lemma find_node_is_Some n ns :
  n ∈ name <$> ns -> exists t, find_node n ns = Some t.
Proof.
  intros Hin. destruct (find_node n ns) as [t|] eqn:E; [eauto|].
  apply find_node_None in E. done.
Qed.

Lemma get_node_by_name_Ok n p t :
  get_node_by_name n p = Ok t <-> find_node n (_nodes p) = Some t.
Proof.
  unfold get_node_by_name. destruct (find_node n (_nodes p)); naive_solver.
Qed.

Lemma get_node_by_name_in n p :
  n ∈ node_names p -> exists t, get_node_by_name n p = Ok t /\ name t = n /\ t ∈ _nodes p.
Proof.
  intros Hin. destruct (find_node_is_Some _ _ Hin) as [t Ht].
  exists t. split; [by apply get_node_by_name_Ok|]. by apply find_node_Some.
Qed.

Lemma status_of_node n p t :
  find_node n (_nodes p) = Some t -> status_of n p = Some (status t).
Proof. unfold status_of. by intros ->. Qed.

Lemma previous_edges_in d n p :
  d ∈ previous_edges n p <-> d ∈ _edges p /\ end_ d = n.
Proof. unfold previous_edges. rewrite list_elem_of_filter. tauto. Qed.

Lemma next_edges_in d n p :
  d ∈ next_edges n p <-> d ∈ _edges p /\ start d = n.
Proof. unfold next_edges. rewrite list_elem_of_filter. tauto. Qed.

Lemma wf_edge_endpoints p e :
  wf_pipeline p -> e ∈ _edges p -> start e ∈ node_names p /\ end_ e ∈ node_names p.
Proof. intros [_ Hed] Hin. rewrite Forall_forall in Hed. by apply Hed. Qed.

(** ** [check_dependencies_complete] and [next] *)

Lemma check_dependencies_loop p ds :
  Forall (fun d => start d ∈ node_names p) ds ->
  for_each (fun d =>
    start_node <-? get_node_by_name (start d) p ;;
    if decide (read_status start_node <> DONE) then Raise PipelineMissingDependencyError
    else Ok tt) ds
  = if decide (Forall (fun d => status_of (start d) p = Some DONE) ds)
    then Ok tt else Raise PipelineMissingDependencyError.
Proof.
  unfold read_status. induction 1 as [|d ds Hd Hds IH]; simpl.
  - done.
  - destruct (get_node_by_name_in _ _ Hd) as (t & Ht & _ & _).
    rewrite Ht. simpl. apply get_node_by_name_Ok in Ht.
    pose proof (status_of_node _ _ _ Ht) as Hst.
    destruct (decide (status t <> DONE)) as [Hne|Heq].
    + rewrite decide_False; [done|]. rewrite Forall_cons. intros [H' _]. congruence.
    + apply dec_stable in Heq. rewrite IH.
      destruct (decide (Forall _ ds)) as [Hall|Hnall].
      * rewrite decide_True; [done|]. constructor; [congruence|done].
      * rewrite decide_False; [done|]. rewrite Forall_cons. tauto.
Qed.

Lemma check_dependencies_complete_spec p c :
  wf_pipeline p ->
  check_dependencies_complete c p
  = if decide (dependencies_done p (name c)) then Ok tt
    else Raise PipelineMissingDependencyError.
Proof.
  intros Hwf. unfold check_dependencies_complete, dependencies_done.
  rewrite check_dependencies_loop; [done|].
  apply Forall_forall. intros d Hd. apply previous_edges_in in Hd as [Hd _].
  by apply (wf_edge_endpoints p d Hwf).
Qed.

Lemma next_loop_spec p es :
  wf_pipeline p ->
  Forall (fun e => end_ e ∈ node_names p) es ->
  exists ys, next_loop es p = Ok ys /\
    Forall (fun c => c ∈ _nodes p) ys /\
    name <$> ys = filter (ready p) (end_ <$> es).
Proof.
  intros Hwf. induction 1 as [|e es He Hes IH]; csimpl.
  - exists []. split; [done|]. split; [constructor|done].
  - destruct IH as (ys & Hys & Hin & Hnames).
    destruct (get_node_by_name_in _ _ He) as (c & Hc & Hcn & Hcin).
    rewrite Hc. csimpl. apply get_node_by_name_Ok in Hc.
    pose proof (status_of_node _ _ _ Hc) as Hst.
    rewrite filter_cons. unfold read_status.
    destruct (decide (status c ∈ [RUNNING; DONE])) as [Hrd|Hrd].
    + rewrite decide_False; [eauto|].
      intros (H1 & H2 & _). rewrite Hst in H1, H2.
      rewrite !elem_of_cons, elem_of_nil in Hrd. destruct Hrd as [E|[E|[]]]; congruence.
    + rewrite check_dependencies_complete_spec by done. rewrite Hcn.
      destruct (decide (dependencies_done p (end_ e))) as [Hdd|Hdd].
      * rewrite Hys. csimpl. exists (c :: ys). split; [done|].
        split; [by constructor|].
        rewrite decide_True.
        { csimpl. by rewrite Hcn, Hnames. }
        split_and!; [| |done]; rewrite Hst; intros [= E]; apply Hrd; rewrite E;
          rewrite !elem_of_cons; auto.
      * rewrite decide_False; [eauto|]. intros (_ & _ & ?). done.
Qed.

Lemma next_names p task ys :
  wf_pipeline p -> next task p = Ok ys ->
  name <$> ys = filter (ready p) (successors p (name task)).
Proof.
  intros Hwf Hnext. unfold next, successors in *.
  destruct (next_loop_spec p (next_edges (name task) p) Hwf) as (ys' & Hys' & _ & Hnames).
  { apply Forall_forall. intros e He. apply next_edges_in in He as [He _].
    by apply (wf_edge_endpoints p e Hwf). }
  congruence.
Qed.

(** C3. On a well-formed pipeline [next task] raises nothing and yields nodes
    of the graph; a name is yielded exactly when it is the end of an outgoing
    edge of [task], its node is neither [RUNNING] nor [DONE], and every
    predecessor reads [DONE].  The names come in edge order, one per edge, so
    a child that fails a check hides no other child. *)
Theorem next_yields_ready_children (p : Pipeline) (task : TaskPipelineNode) :
  wf_pipeline p ->
  exists ys, next task p = Ok ys /\
    Forall (fun c => c ∈ _nodes p) ys /\
    name <$> ys = filter (ready p) (successors p (name task)) /\
    forall n, n ∈ name <$> ys <->
      n ∈ successors p (name task) /\
      status_of n p <> Some RUNNING /\ status_of n p <> Some DONE /\
      forall d, d ∈ previous_edges n p -> status_of (start d) p = Some DONE.
Proof.
  intros Hwf. unfold next, successors.
  destruct (next_loop_spec p (next_edges (name task) p) Hwf) as (ys & Hys & Hin & Hnames).
  { apply Forall_forall. intros e He. apply next_edges_in in He as [He _].
    by apply (wf_edge_endpoints p e Hwf). }
  exists ys. split_and!; [done..|].
  intros n. rewrite Hnames, list_elem_of_filter. unfold ready, dependencies_done.
  rewrite Forall_forall. tauto.
Qed.

(** ** The depth-first search finds exactly the cycles *)

Section DepthFirstSearch.
Variable succ : string -> list string.
Variable V : list string.
Hypothesis succ_closed : forall x y, y ∈ succ x -> y ∈ V.

Lemma dfs_visit_unfold fuel gray black n :
  dfs_visit succ (S fuel) gray black n =
  if decide (n ∈ gray) then (true, black)
  else if decide (n ∈ black) then (false, black)
  else let '(found, black') := dfs_all succ fuel (n :: gray) (succ n) black in
       if found then (true, black') else (false, n :: black').
Proof.
  simpl. repeat case_decide; try done.
  generalize (succ n) as ss. intros ss.
  match goal with
  | |- (let '(_, _) := ?f ss black in _) = _ =>
      assert (forall ss b, f ss b = dfs_all succ fuel (n :: gray) ss b) as Heq
  end.
  { clear. induction ss as [|s ss IH]; intros b; simpl; [done|].
    destruct (dfs_visit succ fuel (n :: gray) b s) as [[] b']; [done|]. apply IH. }
  by rewrite Heq.
Qed.

Lemma finished_closed l x y :
  finished succ l -> x ∈ l -> y ∈ succ x -> y ∈ l.
Proof.
  induction 1 as [|b l Hl IH Hb Hs]; intros Hx Hy.
  - by apply elem_of_nil in Hx.
  - apply elem_of_cons in Hx as [->|Hx]; apply elem_of_cons; right; auto.
Qed.

Lemma finished_path_closed l x y :
  finished succ l -> path succ x y -> x ∈ l -> y ∈ l.
Proof.
  intros Hl. induction 1 as [x y Hxy|x y z Hxy _ IH]; intros Hx.
  - by apply (finished_closed l x y).
  - apply IH. by apply (finished_closed l x y).
Qed.

Lemma finished_acyclic l x :
  finished succ l -> x ∈ l -> ~ path succ x x.
Proof.
  induction 1 as [|b l Hl IH Hb Hs]; intros Hx Hp.
  - by apply elem_of_nil in Hx.
  - apply elem_of_cons in Hx as [->|Hx]; [|by apply IH].
    apply Hb. inversion Hp as [x y Hxy|x y z Hxy Hyz]; subst.
    + by apply Hs.
    + apply (finished_path_closed l y b); auto.
Qed.

(** A search that reports no cycle only adds finished nodes, none of them
    gray, and leaves every node it was started on black. *)
Lemma dfs_no_cycle fuel :
  (forall gray black n black',
     finished succ black ->
     dfs_visit succ fuel gray black n = (false, black') ->
     finished succ black' /\ n ∈ black' /\
     exists new, black' = new ++ black /\ forall x, x ∈ new -> x ∉ gray) /\
  (forall gray ss black black',
     finished succ black ->
     dfs_all succ fuel gray ss black = (false, black') ->
     finished succ black' /\ (forall s, s ∈ ss -> s ∈ black') /\
     exists new, black' = new ++ black /\ forall x, x ∈ new -> x ∉ gray).
Proof.
  induction fuel as [|fuel [IHv IHa]].
  - assert (forall gray black n black',
       dfs_visit succ 0 gray black n = (false, black') -> False) as Hv0 by done.
    split; [intros ? ? ? ? _ H; by destruct (Hv0 _ _ _ _ H)|].
    intros gray ss. induction ss as [|s ss IH]; intros black black' Hb; simpl.
    + intros [= <-]. split; [done|]. split; [by intros ? ?%elem_of_nil|].
      exists []. split; [done|]. by intros ? ?%elem_of_nil.
    + done.
  - assert (forall gray black n black',
       finished succ black ->
       dfs_visit succ (S fuel) gray black n = (false, black') ->
       finished succ black' /\ n ∈ black' /\
       exists new, black' = new ++ black /\ forall x, x ∈ new -> x ∉ gray) as Hv.
    { intros gray black n black' Hb. rewrite dfs_visit_unfold.
      destruct (decide (n ∈ gray)) as [|Hng]; [done|].
      destruct (decide (n ∈ black)) as [Hnb|Hnb].
      { intros [= <-]. split; [done|]. split; [done|].
        exists []. split; [done|]. by intros ? ?%elem_of_nil. }
      destruct (dfs_all succ fuel (n :: gray) (succ n) black) as [[] b1] eqn:Hall; [done|].
      intros [= <-].
      destruct (IHa _ _ _ _ Hb Hall) as (Hb1 & Hsucc & new & -> & Hnew).
      split; [|split].
      - constructor; [done| |done].
        rewrite elem_of_app. intros [Hin|Hin]; [|done].
        apply (Hnew n Hin). apply list_elem_of_here.
      - apply list_elem_of_here.
      - exists (n :: new). split; [done|]. intros x [->|Hx]%elem_of_cons; [done|].
        intros Hg. apply (Hnew x Hx). by apply list_elem_of_further. }
    split; [exact Hv|].
    intros gray ss. induction ss as [|s ss IH]; intros black black' Hb; cbn [dfs_all].
    + intros [= <-]. split; [done|]. split; [by intros ? ?%elem_of_nil|].
      exists []. split; [done|]. by intros ? ?%elem_of_nil.
    + destruct (dfs_visit succ (S fuel) gray black s) as [[] b1] eqn:Hs; [done|].
      intros Hrest.
      destruct (Hv _ _ _ _ Hb Hs) as (Hb1 & Hs1 & new1 & -> & Hnew1).
      destruct (IH _ _ Hb1 Hrest) as (Hb2 & Hss & new2 & -> & Hnew2).
      split; [done|]. split.
      * intros x [->|Hx]%elem_of_cons; [|by apply Hss].
        rewrite elem_of_app. by right.
      * exists (new2 ++ new1). split; [by rewrite app_assoc|].
        intros x [Hx|Hx]%elem_of_app; auto.
Qed.

(** A search that reports a cycle has met a gray node, provided the fuel
    outlasts the longest possible stack; every gray node reaches the node
    being visited, so the graph has a cycle. *)
Lemma dfs_cycle fuel :
  (forall gray black n black',
     dfs_visit succ fuel gray black n = (true, black') ->
     NoDup gray -> (forall g, g ∈ gray -> g ∈ V) -> n ∈ V ->
     length V < fuel + length gray ->
     (forall g, g ∈ gray -> path succ g n) ->
     exists x, path succ x x) /\
  (forall gray ss black black',
     dfs_all succ fuel gray ss black = (true, black') ->
     NoDup gray -> (forall g, g ∈ gray -> g ∈ V) -> (forall s, s ∈ ss -> s ∈ V) ->
     length V < fuel + length gray ->
     (forall g s, g ∈ gray -> s ∈ ss -> path succ g s) ->
     exists x, path succ x x).
Proof.
  assert (forall gray, NoDup gray -> (forall g, g ∈ gray -> g ∈ V) ->
                       length gray <= length V) as Hbound.
  { intros gray Hnd Hsub. apply submseteq_length. by apply NoDup_submseteq. }
  assert (forall fuel,
    (forall gray black n black',
       dfs_visit succ fuel gray black n = (true, black') ->
       NoDup gray -> (forall g, g ∈ gray -> g ∈ V) -> n ∈ V ->
       length V < fuel + length gray ->
       (forall g, g ∈ gray -> path succ g n) ->
       exists x, path succ x x) ->
    (forall gray ss black black',
       dfs_all succ fuel gray ss black = (true, black') ->
       NoDup gray -> (forall g, g ∈ gray -> g ∈ V) -> (forall s, s ∈ ss -> s ∈ V) ->
       length V < fuel + length gray ->
       (forall g s, g ∈ gray -> s ∈ ss -> path succ g s) ->
       exists x, path succ x x)) as Hall.
  { intros f Hv gray ss. induction ss as [|s ss IH];
      intros black black' Hrun Hnd Hsub Hss Hlen Hreach; cbn [dfs_all] in Hrun; [done|].
    destruct (dfs_visit succ f gray black s) as [[] b1] eqn:Hs.
    - apply (Hv _ _ _ _ Hs); auto.
      + apply Hss, list_elem_of_here.
      + intros g Hg. apply Hreach; [done|apply list_elem_of_here].
    - apply (IH _ _ Hrun); auto.
      + intros x Hx. by apply Hss, list_elem_of_further.
      + intros g x Hg Hx. apply Hreach; [done|by apply list_elem_of_further]. }
  induction fuel as [|fuel [IHv IHa]].
  - assert (forall gray black n black',
       dfs_visit succ 0 gray black n = (true, black') ->
       NoDup gray -> (forall g, g ∈ gray -> g ∈ V) -> n ∈ V ->
       length V < 0 + length gray ->
       (forall g, g ∈ gray -> path succ g n) ->
       exists x, path succ x x) as Hv.
    { intros gray black n black' _ Hnd Hsub _ Hlen _.
      specialize (Hbound gray Hnd Hsub). lia. }
    split; [exact Hv|]. by apply Hall.
  - assert (forall gray black n black',
       dfs_visit succ (S fuel) gray black n = (true, black') ->
       NoDup gray -> (forall g, g ∈ gray -> g ∈ V) -> n ∈ V ->
       length V < S fuel + length gray ->
       (forall g, g ∈ gray -> path succ g n) ->
       exists x, path succ x x) as Hv.
    { intros gray black n black'. rewrite dfs_visit_unfold.
      destruct (decide (n ∈ gray)) as [Hg|Hng].
      { intros _ _ _ _ _ Hreach. exists n. by apply Hreach. }
      destruct (decide (n ∈ black)) as [|Hnb]; [done|].
      destruct (dfs_all succ fuel (n :: gray) (succ n) black) as [[] b1] eqn:Hrun; [|done].
      intros _ Hnd Hsub Hn Hlen Hreach.
      apply (IHa _ _ _ _ Hrun).
      - by constructor.
      - intros g [->|Hg]%elem_of_cons; auto.
      - intros s Hs. by apply (succ_closed n).
      - simpl. lia.
      - intros g s [->|Hg]%elem_of_cons Hs; [by constructor|].
        assert (path succ g n) as Hgn by auto.
        clear -Hgn Hs. induction Hgn as [x y Hxy|x y z Hxy _ IH].
        + eapply path_step; [done|]. by constructor.
        + eapply path_step; [done|]. by apply IH. }
    split; [exact Hv|]. by apply Hall.
Qed.

End DepthFirstSearch.

(** [is_cyclic] decides whether a well-formed graph contains a cycle. *)
Lemma is_cyclic_correct p :
  wf_pipeline p -> is_cyclic p = true <-> cyclic p.
Proof.
  intros Hwf. unfold is_cyclic, cyclic.
  assert (forall x y, y ∈ successors p x -> y ∈ node_names p) as Hclosed.
  { intros x y. unfold successors. rewrite list_elem_of_fmap.
    intros (e & -> & He). apply next_edges_in in He as [He _].
    by apply (wf_edge_endpoints p e Hwf). }
  destruct (dfs_all _ _ _ _ _) as [[] black'] eqn:Hrun; simpl.
  - split; [intros _|done].
    destruct (dfs_cycle (successors p) (node_names p) Hclosed (S (length (_nodes p))))
      as [_ Ha].
    apply (Ha _ _ _ _ Hrun).
    + constructor.
    + by intros ? ?%elem_of_nil.
    + done.
    + unfold node_names. rewrite length_fmap. simpl. lia.
    + by intros ? ? ?%elem_of_nil.
  - split; [done|]. intros [x Hx]. exfalso.
    destruct (dfs_no_cycle (successors p) (S (length (_nodes p)))) as [_ Ha].
    destruct (Ha _ _ _ _ (finished_nil _) Hrun) as (Hfin & Hall & _).
    apply (finished_acyclic (successors p) black' x Hfin); [|done].
    apply Hall.
    inversion Hx as [a b Hab|a b c Hab _]; subst;
      unfold successors in Hab; apply list_elem_of_fmap in Hab as (e & _ & He);
      apply next_edges_in in He as [He <-];
      by apply (wf_edge_endpoints p e Hwf).
Qed.

(** ** [connect] *)

Lemma upsert_edge_in e es x :
  x ∈ upsert_edge e es -> x = e \/ x ∈ es.
Proof.
  induction es as [|e' es IH]; simpl.
  - intros ->%list_elem_of_singleton. by left.
  - case_decide.
    + intros [->|Hx]%elem_of_cons; [by left|]. right. by apply list_elem_of_further.
    + intros [->|Hx]%elem_of_cons; [right; apply list_elem_of_here|].
      destruct (IH Hx); [by left|]. right. by apply list_elem_of_further.
Qed.

Lemma upsert_edge_here e es : e ∈ upsert_edge e es.
Proof.
  induction es as [|e' es IH]; simpl.
  - apply list_elem_of_here.
  - case_decide; [apply list_elem_of_here|by apply list_elem_of_further].
Qed.

Lemma wf_upsert_edge p e :
  wf_pipeline p -> start e ∈ node_names p -> end_ e ∈ node_names p ->
  wf_pipeline (with_edges (upsert_edge e (_edges p)) p).
Proof.
  intros [Hnd Hed] Hs He. split; [done|].
  apply Forall_forall. intros x Hx. simpl in Hx.
  apply upsert_edge_in in Hx as [->|Hx]; [done|].
  rewrite Forall_forall in Hed. by apply Hed.
Qed.

Lemma add_edge_ok e p :
  start e ∈ node_names p -> end_ e ∈ node_names p ->
  add_edge e p = Ok (with_edges (upsert_edge e (_edges p)) p).
Proof. intros Hs He. unfold add_edge. by rewrite !decide_True. Qed.

Lemma add_edge_missing e p :
  start e ∉ node_names p \/ end_ e ∉ node_names p ->
  exists k, add_edge e p = Raise (KeyError k).
Proof.
  intros H. unfold add_edge. repeat case_decide; try tauto; eauto.
Qed.

(** C4. On a well-formed pipeline [connect] raises a definition error, and
    leaves the pipeline as it was, when an endpoint is missing.  With both
    endpoints present the edge is inserted (or overwritten): if the graph so
    obtained has no cycle [connect] returns normally; if it has a cycle
    [connect] raises a definition error and the pipeline it leaves still
    holds the inserted edge. *)
Theorem connect_raises_on_missing_or_cycle (p : Pipeline) (s e : string)
    (cfg : option input_config_t) :
  wf_pipeline p ->
  let edge := mkEdge s e (Some cfg) in
  let p' := with_edges (upsert_edge edge (_edges p)) p in
  (s ∉ node_names p \/ e ∉ node_names p ->
     connect s e cfg p = (Raise PipelineDefinitionError, p)) /\
  (s ∈ node_names p -> e ∈ node_names p ->
     (~ cyclic p' -> connect s e cfg p = (Ok tt, p')) /\
     (cyclic p' ->
        connect s e cfg p = (Raise PipelineDefinitionError, p') /\
        edge ∈ _edges p')).
Proof.
  intros Hwf edge p'. split.
  - intros Hmiss. unfold connect.
    destruct (add_edge_missing (mkEdge s e (Some cfg)) p Hmiss) as [k ->]. done.
  - intros Hs He. unfold connect. rewrite add_edge_ok by done. fold edge p'.
    assert (wf_pipeline p') as Hwf' by by apply wf_upsert_edge.
    pose proof (is_cyclic_correct p' Hwf') as Hcyc.
    destruct (is_cyclic p') eqn:E; split.
    + intros Hn. exfalso. apply Hn. by apply Hcyc.
    + intros _. split; [done|]. apply upsert_edge_here.
    + done.
    + intros Hc. apply Hcyc in Hc. done.
Qed.

(** ** Mapping references *)

Lemma split_length sep s : length (split sep s) = S (occurrences sep s).
Proof.
  induction s as [|c s IH]; simpl; [done|].
  case_decide; simpl; [by rewrite IH|].
  destruct (split sep s); simpl in *; lia.
Qed.

Lemma split_no_separator sep s : occurrences sep s = 0 -> split sep s = [s].
Proof.
  induction s as [|c s IH]; simpl; [done|].
  case_decide; [done|]. simpl. intros Hs. by rewrite IH.
Qed.

Lemma split_one_separator sep s1 s2 :
  occurrences sep s1 = 0 ->
  split sep (s1 ++ String sep s2)%string = s1 :: split sep s2.
Proof.
  induction s1 as [|c s1 IH]; simpl.
  - intros _. by rewrite decide_True.
  - case_decide; [done|]. simpl. intros Hs. by rewrite IH.
Qed.

Lemma parse_mapping_field c f :
  occurrences "." c = 0 -> occurrences "." f = 0 ->
  parse_mapping (c ++ String "." f)%string = (c, Some f).
Proof.
  intros Hc Hf. unfold parse_mapping.
  by rewrite split_one_separator, (split_no_separator _ f).
Qed.

Lemma parse_mapping_bare c :
  occurrences "." c = 0 -> parse_mapping c = (c, None).
Proof. intros Hc. unfold parse_mapping. by rewrite split_no_separator. Qed.

Lemma parse_mapping_many_dots m :
  2 <= occurrences "." m -> parse_mapping m = (m, None).
Proof.
  intros Hm. unfold parse_mapping.
  pose proof (split_length "." m) as Hlen.
  destruct (split "." m) as [|a [|b [|c l]]]; simpl in Hlen; try done; lia.
Qed.

(** ** [get_component_inputs] *)

Lemma resolve_parameter_ok cname l p m v w :
  resolved (_store (pipeline w)) m = Ok v ->
  resolve_parameter cname l (p, m) w =
    (Ok tt,
     {| pipeline := pipeline w;
        heap := <[l := <[p := v]> (deref l w)]> (heap w);
        warnings := warnings w ++
          (if bool_decide (is_Some (deref l w !! p)) then [mkWarning cname p m] else []) |}).
Proof.
  unfold resolved, resolve_parameter, get_results_for_component.
  destruct (parse_mapping m) as [c f].
  unfold bind, lift, gets, setitem, modify, warn, pure.
  destruct (store_get c (_store (pipeline w))) as [cr|]; simpl; [|done].
  intros ->. simpl.
  destruct (bool_decide _) eqn:E; simpl.
  - done.
  - unfold with_heap. simpl. by rewrite app_nil_r.
Qed.

Lemma resolve_parameter_raises cname l p m e w :
  resolved (_store (pipeline w)) m = Raise e ->
  resolve_parameter cname l (p, m) w = (Raise e, w).
Proof.
  unfold resolved, resolve_parameter, get_results_for_component.
  destruct (parse_mapping m) as [c f].
  unfold bind, lift, gets, setitem, modify, warn, pure.
  destruct (store_get c (_store (pipeline w))) as [cr|]; simpl; [|congruence].
  by intros ->.
Qed.

Lemma overlay_lookup_other st cfg d k :
  k ∉ cfg.*1 -> overlay st d cfg !! k = d !! k.
Proof.
  revert d. induction cfg as [|[p m] cfg IH]; intros d Hk; simpl; [done|].
  rewrite fmap_cons, not_elem_of_cons in Hk. destruct Hk as [Hne Hk]. simpl in Hne.
  unfold overlay in *. simpl. rewrite IH by done.
  destruct (resolved st m); [|done]. by rewrite lookup_insert_ne.
Qed.

Lemma overlay_lookup st cfg d p m v :
  NoDup cfg.*1 -> (p, m) ∈ cfg -> resolved st m = Ok v ->
  overlay st d cfg !! p = Some v.
Proof.
  revert d. induction cfg as [|[p' m'] cfg IH]; intros d Hnd Hin Hv.
  - by apply elem_of_nil in Hin.
  - rewrite fmap_cons in Hnd. apply NoDup_cons in Hnd as [Hp' Hnd]. simpl in Hp'.
    apply elem_of_cons in Hin as [[= <- <-]|Hin].
    + unfold overlay. simpl. rewrite Hv.
      fold (overlay st (<[p := v]> d) cfg).
      rewrite overlay_lookup_other by done. by rewrite lookup_insert_eq.
    + unfold overlay. simpl. by apply IH.
Qed.

Lemma filter_ext_in {A} (P Q : A -> Prop)
    `{!forall x, Decision (P x)} `{!forall x, Decision (Q x)} (l : list A) :
  (forall x, x ∈ l -> P x <-> Q x) -> filter P l = filter Q l.
Proof.
  induction l as [|a l IH]; intros Hext; [done|].
  rewrite !filter_cons.
  assert (P a <-> Q a) as Ha by apply Hext, list_elem_of_here.
  rewrite IH by (intros x Hx; by apply Hext, list_elem_of_further).
  destruct (decide (P a)), (decide (Q a)); tauto.
Qed.

Lemma expected_warnings_insert cname d p v cfg :
  p ∉ cfg.*1 ->
  expected_warnings cname (<[p := v]> d) cfg = expected_warnings cname d cfg.
Proof.
  unfold expected_warnings. intros Hp. f_equal.
  apply filter_ext_in. intros [q m] Hq. simpl.
  rewrite lookup_insert_ne; [done|].
  intros ->. apply Hp. apply list_elem_of_fmap. by exists (q, m).
Qed.

(** The loop of [get_component_inputs] when every reference resolves. *)
Lemma resolve_loop_ok cname l cfg w :
  NoDup cfg.*1 ->
  Forall (fun item => exists v, resolved (_store (pipeline w)) item.2 = Ok v) cfg ->
  exists w',
    for_eachM (resolve_parameter cname l) cfg w = (Ok tt, w') /\
    pipeline w' = pipeline w /\
    (forall l', l' <> l -> heap w' !! l' = heap w !! l') /\
    (cfg <> [] -> heap w' !! l = Some (overlay (_store (pipeline w)) (deref l w) cfg)) /\
    deref l w' = overlay (_store (pipeline w)) (deref l w) cfg /\
    warnings w' = warnings w ++ expected_warnings cname (deref l w) cfg.
Proof.
  revert w. induction cfg as [|[p m] cfg IH]; intros w Hnd Hall.
  - exists w. simpl. unfold pure. split_and!; try done.
    unfold expected_warnings. simpl. by rewrite app_nil_r.
  - rewrite fmap_cons in Hnd. apply NoDup_cons in Hnd as [Hp Hnd]. simpl in Hp.
    apply Forall_cons in Hall as [[v Hv] Hall]. simpl in Hv.
    cbn [for_eachM]. unfold bind at 1.
    rewrite (resolve_parameter_ok _ _ _ _ v) by done.
    set (w1 := {| pipeline := pipeline w; heap := _; warnings := _ |}).
    destruct (IH w1 Hnd Hall) as (w' & Hrun & Hpipe & Hother & Hl & Hderef & Hwarn).
    exists w'. rewrite Hrun. simpl in Hpipe.
    assert (deref l w1 = <[p := v]> (deref l w)) as Hd1.
    { unfold deref, w1. simpl. by rewrite lookup_insert_eq. }
    assert (overlay (_store (pipeline w)) (deref l w1) cfg
            = overlay (_store (pipeline w)) (deref l w) ((p, m) :: cfg)) as Hov.
    { rewrite Hd1. unfold overlay. simpl. by rewrite Hv. }
    split_and!; try done.
    + intros l' Hl'. rewrite Hother by done. unfold w1. simpl.
      by rewrite lookup_insert_ne.
    + intros _. destruct cfg as [|item cfg'].
      * simpl in Hrun. unfold pure in Hrun. injection Hrun as <-.
        unfold w1. simpl. rewrite lookup_insert_eq. unfold overlay. simpl. by rewrite Hv.
      * rewrite Hl by done. by rewrite <- Hov.
    + by rewrite Hderef, <- Hov.
    + rewrite Hwarn. unfold w1 at 1. simpl. rewrite <- app_assoc. f_equal.
      rewrite Hd1, expected_warnings_insert by done.
      unfold expected_warnings. rewrite filter_cons. simpl.
      destruct (bool_decide (is_Some (deref l w !! p))) eqn:E.
      * apply bool_decide_eq_true in E. by rewrite decide_True.
      * apply bool_decide_eq_false in E. by rewrite decide_False.
Qed.

Lemma resolved_field st c f d :
  occurrences "." c = 0 -> occurrences "." f = 0 ->
  st !! c = Some (VDict d) ->
  resolved st (c ++ String "." f)%string = Ok (default VNone (d !! f)).
Proof.
  intros Hc Hf Hst. unfold resolved. rewrite parse_mapping_field by done.
  unfold store_get. by rewrite Hst.
Qed.

Lemma resolved_bare st c v :
  occurrences "." c = 0 -> st !! c = Some v -> resolved st c = Ok v.
Proof.
  intros Hc Hst. unfold resolved. rewrite parse_mapping_bare by done.
  unfold store_get. by rewrite Hst.
Qed.

Lemma resolved_many_dots st m :
  2 <= occurrences "." m -> resolved st m = store_get m st.
Proof.
  intros Hm. unfold resolved. rewrite parse_mapping_many_dots by done.
  by destruct (store_get m st).
Qed.

(** The dictionary [get_component_inputs] starts from. *)
Lemma input_data_get_spec cname (data : input_data_t) w :
  exists l w1,
    input_data_get cname data w = (Ok l, w1) /\
    pipeline w1 = pipeline w /\ warnings w1 = warnings w /\
    deref l w1 = match data !! cname with Some l0 => deref l0 w | None => ∅ end /\
    match data !! cname with
    | Some l0 => l = l0 /\ w1 = w
    | None => heap w !! l = None /\ heap w1 = <[l := ∅]> (heap w)
    end.
Proof.
  unfold input_data_get. destruct (data !! cname) as [l0|] eqn:E.
  - exists l0, w. split_and!; done.
  - eexists _, _. split; [done|]. split_and!; try done.
    + unfold deref. simpl. by rewrite lookup_insert_eq.
    + apply not_elem_of_dom. apply is_fresh.
Qed.

(** [get_component_inputs] when every reference of the configuration
    resolves. *)
Lemma get_component_inputs_ok cname cfg (data : input_data_t) w :
  NoDup cfg.*1 ->
  Forall (fun item => exists v, resolved (_store (pipeline w)) item.2 = Ok v) cfg ->
  let st := _store (pipeline w) in
  let user := match data !! cname with Some l0 => deref l0 w | None => ∅ end in
  exists l w',
    get_component_inputs cname cfg data w = (Ok l, w') /\
    pipeline w' = pipeline w /\
    (forall l0, data !! cname = Some l0 -> l = l0) /\
    (cfg <> [] -> heap w' !! l = Some (overlay st user cfg)) /\
    deref l w' = overlay st user cfg /\
    (forall l', l' <> l -> is_Some (heap w !! l') -> heap w' !! l' = heap w !! l') /\
    warnings w' = warnings w ++ expected_warnings cname user cfg.
Proof.
  intros Hnd Hall st user. unfold get_component_inputs.
  destruct (input_data_get_spec cname data w) as (l & w1 & Hget & Hp1 & Hw1 & Hd1 & Hcase).
  unfold bind at 1. rewrite Hget.
  rewrite <- Hp1 in Hall.
  destruct (resolve_loop_ok cname l cfg w1 Hnd Hall)
    as (w' & Hrun & Hpipe & Hother & Hl & Hderef & Hwarn).
  unfold bind. rewrite Hrun. unfold pure. exists l, w'.
  rewrite Hp1 in *. fold st in Hl, Hderef. rewrite Hd1 in Hl, Hderef, Hwarn. fold user in Hl, Hderef, Hwarn.
  split_and!; try done.
  - intros l0 E. rewrite E in Hcase. by destruct Hcase.
  - intros l' Hne Hsome. rewrite Hother by done.
    destruct (data !! cname); destruct Hcase as [Ha Hb]; [by subst|].
    rewrite Hb. rewrite lookup_insert_ne; [done|]. intros <-.
    rewrite Ha in Hsome. by destruct Hsome.
  - by rewrite Hwarn, Hw1.
Qed.

(** C10. A reference with two or more dots is read as a bare component name by
    both consumers: it selects no output field, it resolves to whatever the
    store holds under the whole string, [get_component_inputs] passes that
    value on, and the validation of mapped outputs accepts it without looking
    at any component, the parameter it maps counting as supplied. *)
Theorem many_dots_is_a_bare_reference (m : string) :
  2 <= occurrences "." m ->
  parse_mapping m = (m, None) /\
  (forall st, resolved st m = store_get m st) /\
  (forall cname p (data : input_data_t) w v,
     _store (pipeline w) !! m = Some v ->
     exists l w', get_component_inputs cname [(p, m)] data w = (Ok l, w') /\
                  deref l w' !! p = Some v) /\
  (forall self p, check_mapped_output self (p, m) = Ok tt) /\
  (forall self edge p acc,
     edge_input_config edge = [(p, m)] ->
     validate_edges [edge] acc self = Ok (acc ++ [p])).
Proof.
  intros Hm. split_and!.
  - by apply parse_mapping_many_dots.
  - intros st. by apply resolved_many_dots.
  - intros cname p data w v Hst.
    assert (resolved (_store (pipeline w)) m = Ok v) as Hres.
    { rewrite resolved_many_dots by done. unfold store_get. by rewrite Hst. }
    destruct (get_component_inputs_ok cname [(p, m)] data w)
      as (l & w' & Hrun & _ & _ & _ & Hderef & _).
    { apply NoDup_singleton. }
    { constructor; [by exists v|constructor]. }
    exists l, w'. split; [done|]. rewrite Hderef.
    apply (overlay_lookup _ _ _ p m v); [apply NoDup_singleton|apply list_elem_of_here|done].
  - intros self p. unfold check_mapped_output.
    by rewrite parse_mapping_many_dots.
  - intros self edge p acc Hcfg. cbn [validate_edges]. rewrite Hcfg.
    cbn [for_each]. unfold check_mapped_output.
    by rewrite parse_mapping_many_dots.
Qed.

(** ** [validate_inputs_config] *)

Lemma for_each_cases {A} (body : A -> result unit) l e :
  (forall a, a ∈ l -> body a = Ok tt \/ body a = Raise e) ->
  (for_each body l = Ok tt /\ forall a, a ∈ l -> body a = Ok tt) \/
  (for_each body l = Raise e /\ exists a, a ∈ l /\ body a = Raise e).
Proof.
  induction l as [|a l IH]; intros Hall.
  - left. split; [done|]. by intros ? ?%elem_of_nil.
  - destruct (Hall a) as [Ha|Ha]; [apply list_elem_of_here|..].
    + destruct IH as [[Hrun Hok]|[Hrun (b & Hb & Hraise)]].
      { intros b Hb. by apply Hall, list_elem_of_further. }
      * left. simpl. rewrite Ha. split; [done|].
        intros b [->|Hb]%elem_of_cons; auto.
      * right. simpl. rewrite Ha. split; [done|].
        exists b. split; [by apply list_elem_of_further|done].
    + right. simpl. rewrite Ha. split; [done|].
      exists a. split; [apply list_elem_of_here|done].
Qed.

Section Validation.
Variable input_data : input_data_t.
Variable h : gmap loc pydict.
Variable self : Pipeline.
Hypothesis self_known : references_known self.

Lemma check_mapped_output_cases edge item :
  edge ∈ _edges self -> item ∈ edge_input_config edge ->
  (check_mapped_output self item = Ok tt /\ ~ rejected_item self item) \/
  (check_mapped_output self item = Raise PipelineDefinitionError /\ rejected_item self item).
Proof.
  intros Hedge Hitem. destruct item as [param path_]. unfold check_mapped_output, rejected_item.
  simpl. destruct (parse_mapping path_) as [c [f|]] eqn:Hparse.
  - assert (c ∈ node_names self) as Hc by by eapply (self_known edge (param, path_)).
    destruct (get_node_by_name_in _ _ Hc) as (src & Hsrc & _ & _). rewrite Hsrc. simpl.
    apply get_node_by_name_Ok in Hsrc.
    case_decide as Hd.
    + right. split; [done|]. exists c, f, src. by destruct Hd.
    + left. split; [done|]. intros (c' & f' & src' & [= <- <-] & Hf & Hfind & Hout).
      apply Hd. split; [done|]. congruence.
  - left. split; [done|]. by intros (c' & f' & src' & [=] & _).
Qed.

Lemma for_each_check_mapped_output edge :
  edge ∈ _edges self ->
  (for_each (check_mapped_output self) (edge_input_config edge) = Ok tt /\
     forall item, item ∈ edge_input_config edge -> ~ rejected_item self item) \/
  (for_each (check_mapped_output self) (edge_input_config edge)
     = Raise PipelineDefinitionError /\
     exists item, item ∈ edge_input_config edge /\ rejected_item self item).
Proof.
  intros Hedge.
  destruct (for_each_cases (check_mapped_output self) (edge_input_config edge)
              PipelineDefinitionError) as [[Hrun Hok]|[Hrun (item & Hitem & Hraise)]].
  { intros a Ha. destruct (check_mapped_output_cases edge a) as [[-> _]|[-> _]]; auto. }
  - left. split; [done|]. intros item Hitem.
    destruct (check_mapped_output_cases edge item) as [[_ ?]|[E _]]; [done..|].
    rewrite (Hok item Hitem) in E. done.
  - right. split; [done|]. exists item. split; [done|].
    destruct (check_mapped_output_cases edge item) as [[E _]|[_ ?]]; [done..|congruence|done].
Qed.

Lemma validate_edges_cases es acc :
  (forall e, e ∈ es -> e ∈ _edges self) ->
  (validate_edges es acc self = Ok (acc ++ (es ≫= edge_parameters)) /\
     forall e item, e ∈ es -> item ∈ edge_input_config e -> ~ rejected_item self item) \/
  (validate_edges es acc self = Raise PipelineDefinitionError /\
     exists e item, e ∈ es /\ item ∈ edge_input_config e /\ rejected_item self item).
Proof.
  revert acc. induction es as [|e es IH]; intros acc Hsub.
  - left. simpl. rewrite app_nil_r. split; [done|]. by intros ? ? ?%elem_of_nil.
  - cbn [validate_edges].
    destruct (for_each_check_mapped_output e) as [[-> Hnone]|[-> Hsome]].
    { apply Hsub, list_elem_of_here. }
    + simpl. destruct (IH (acc ++ (edge_input_config e).*1)) as [[-> Hrest]|[-> Hrest]].
      { intros e' He'. by apply Hsub, list_elem_of_further. }
      * left. split; [by rewrite <- app_assoc|].
        intros e' item [->|He']%elem_of_cons; eauto.
      * right. split; [done|]. destruct Hrest as (e' & item & He' & Hitem & Hrej).
        exists e', item. split; [by apply list_elem_of_further|done].
    + right. split; [done|]. destruct Hsome as (item & Hitem & Hrej).
      exists e, item. split; [apply list_elem_of_here|done].
Qed.

Lemma rejected_field task :
  (exists e item, e ∈ previous_edges (name task) self /\
                  item ∈ edge_input_config e /\ rejected_item self item) <->
  (exists f, f <> "" /\ maps_undeclared_field self task f).
Proof.
  unfold rejected_item, maps_undeclared_field. split.
  - intros (e & item & He & Hitem & c & f & src & Hp & Hf & Hsrc & Hout).
    exists f. split; [done|]. by exists e, item, c, src.
  - intros (f & Hf & e & item & c & src & He & Hitem & Hp & Hsrc & Hout).
    exists e, item. split_and!; [done..|]. by exists c, f, src.
Qed.

Lemma validate_task_cases task :
  (validate_inputs_config_for_task task input_data h self = Ok true /\
     ~ missing_mandatory_input input_data h self task /\
     ~ exists f, f <> "" /\ maps_undeclared_field self task f) \/
  (validate_inputs_config_for_task task input_data h self = Raise PipelineDefinitionError /\
     (missing_mandatory_input input_data h self task \/
      exists f, f <> "" /\ maps_undeclared_field self task f)).
Proof.
  unfold validate_inputs_config_for_task.
  destruct (validate_edges_cases (previous_edges (name task) self)
              (supplied_keys (name task) input_data h)) as [[-> Hnone]|[-> Hsome]].
  { intros e He. by apply previous_edges_in in He as [? _]. }
  - simpl. fold (mapped_parameters (name task) self).
    assert (~ exists f, f <> "" /\ maps_undeclared_field self task f) as Hnf.
    { rewrite <- rejected_field. intros (e & item & He & Hitem & Hrej).
      by apply (Hnone e item). }
    case_decide as Hd.
    + left. split_and!; [done| |done].
      intros (k & Hk & Hu & Hm).
      assert (k ∈ dom (filter (fun item : string * bool => item.2 = false)
                         (component_inputs (component task)))) as Hin.
      { apply elem_of_dom. exists false. by apply map_lookup_filter_Some. }
      assert (k ∉ (list_to_set (supplied_keys (name task) input_data h ++
                     mapped_parameters (name task) self) : gset string)) as Hnin.
      { rewrite elem_of_list_to_set, elem_of_app. tauto. }
      set_solver.
    + right. split; [done|]. left.
      apply set_choose_L in Hd as [k Hk].
      apply elem_of_difference in Hk as [Hk1 Hk2].
      apply elem_of_dom in Hk1 as [b Hb].
      apply map_lookup_filter_Some in Hb as [Hb Hfalse]. simpl in Hfalse. subst b.
      rewrite elem_of_list_to_set, elem_of_app in Hk2.
      exists k. tauto.
  - right. split; [done|]. right. apply rejected_field.
    destruct Hsome as (e & item & ? & ? & ?). by exists e, item.
Qed.

Lemma validate_inputs_config_cases :
  (validate_inputs_config input_data h self = Ok tt /\
     forall task, task ∈ _nodes self ->
       ~ missing_mandatory_input input_data h self task /\
       ~ exists f, f <> "" /\ maps_undeclared_field self task f) \/
  (validate_inputs_config input_data h self = Raise PipelineDefinitionError /\
     exists task, task ∈ _nodes self /\
       (missing_mandatory_input input_data h self task \/
        exists f, f <> "" /\ maps_undeclared_field self task f)).
Proof.
  unfold validate_inputs_config.
  set (body := fun task => _ <-? validate_inputs_config_for_task task input_data h self ;; Ok tt).
  assert (forall task,
    (body task = Ok tt /\
       ~ missing_mandatory_input input_data h self task /\
       ~ exists f, f <> "" /\ maps_undeclared_field self task f) \/
    (body task = Raise PipelineDefinitionError /\
       (missing_mandatory_input input_data h self task \/
        exists f, f <> "" /\ maps_undeclared_field self task f))) as Hbody.
  { intros task. unfold body.
    destruct (validate_task_cases task) as [[-> ?]|[-> ?]]; [by left|by right]. }
  destruct (for_each_cases body (_nodes self) PipelineDefinitionError)
    as [[Hrun Hok]|[Hrun (task & Htask & Hraise)]].
  { intros a _. destruct (Hbody a) as [[-> _]|[-> _]]; auto. }
  - left. split; [done|]. intros task Htask.
    destruct (Hbody task) as [[_ ?]|[E _]]; [done|].
    rewrite (Hok task Htask) in E. done.
  - right. split; [done|]. exists task. split; [done|].
    destruct (Hbody task) as [[E _]|[_ ?]]; [congruence|done].
Qed.

End Validation.

(** C7 (as amended). On a pipeline whose [c.f] references all name components
    of the pipeline, [validate_inputs_config] raises a definition
    error exactly when some task has a mandatory input that neither the user
    input nor an incoming edge covers, or some incoming edge maps a reference
    [c.f] with a non-empty field [f] that [c] does not declare as an output;
    otherwise it returns normally. *)
Theorem validate_inputs_config_definition_errors (input_data : input_data_t)
    (h : gmap loc pydict) (p : Pipeline) :
  references_known p ->
  (validate_inputs_config input_data h p = Raise PipelineDefinitionError <->
     exists task, task ∈ _nodes p /\
       (missing_mandatory_input input_data h p task \/
        exists f, f <> "" /\ maps_undeclared_field p task f)) /\
  ((forall task, task ∈ _nodes p ->
      ~ missing_mandatory_input input_data h p task /\
      ~ exists f, f <> "" /\ maps_undeclared_field p task f) ->
   validate_inputs_config input_data h p = Ok tt).
Proof.
  intros Hknown.
  destruct (validate_inputs_config_cases input_data h p Hknown)
    as [[Hrun Hnone]|[Hrun Hsome]]; rewrite Hrun.
  - split; [|done]. split; [done|].
    intros (task & Htask & Hbad). destruct (Hnone task Htask) as [H1 H2]. tauto.
  - split; [done|]. intros Hnone. destruct Hsome as (task & Htask & Hbad).
    destruct (Hnone task Htask) as [H1 H2]. tauto.
Qed.

Lemma chain_wf reference : wf_pipeline (chain reference).
Proof.
  split.
  - unfold node_names. simpl. apply NoDup_cons. split.
    + rewrite list_elem_of_singleton. done.
    + apply NoDup_singleton.
  - apply Forall_singleton. unfold node_names. simpl.
    rewrite !elem_of_cons. auto.
Qed.

(** The claim as stated fails on a reference with an empty field: [P1.] maps
    the field [""], which [P1] does not declare, and validation passes. *)
Lemma validate_accepts_empty_field :
  ~ (validate_inputs_config ∅ ∅ (chain "P1.") = Raise PipelineDefinitionError <->
     exists task, task ∈ _nodes (chain "P1.") /\
       (missing_mandatory_input ∅ ∅ (chain "P1.") task \/
        exists f, maps_undeclared_field (chain "P1.") task f)).
Proof.
  intros [_ Hclaim].
  assert (validate_inputs_config ∅ ∅ (chain "P1.") = Ok tt) as Hrun by (vm_compute; reflexivity).
  rewrite Hrun in Hclaim. discriminate Hclaim.
  exists (new_task "P2" component_P2). split.
  - simpl. rewrite !elem_of_cons. auto.
  - right. exists "".
    exists (mkEdge "P1" "P2" (Some (Some [("x", "P1.")]))), ("x", "P1."), "P1",
           (new_task "P1" component_P1).
    split_and!.
    + apply previous_edges_in. split; [apply list_elem_of_here|done].
    + apply list_elem_of_here.
    + reflexivity.
    + reflexivity.
    + simpl. rewrite elem_of_singleton. done.
Qed.

(** ** Writing a status into the graph *)

Lemma replace_node_names t ns :
  name <$> replace_node t ns = name <$> ns.
Proof.
  induction ns as [|t' ns IH]; [done|]. simpl.
  case_decide as E; csimpl; [by rewrite E|by rewrite IH].
Qed.

Lemma find_node_replace_eq t t0 ns :
  find_node (name t) ns = Some t0 -> find_node (name t) (replace_node t ns) = Some t.
Proof.
  induction ns as [|t' ns IH]; [done|]. simpl.
  case_decide as E; simpl.
  - intros _. by rewrite decide_True.
  - intros Hfind. rewrite decide_False by done. by apply IH.
Qed.

Lemma find_node_replace_ne t n ns :
  n <> name t -> find_node n (replace_node t ns) = find_node n ns.
Proof.
  intros Hne. induction ns as [|t' ns IH]; [done|]. simpl.
  destruct (decide (name t' = name t)) as [E|E]; simpl.
  - rewrite !decide_False; [done|congruence..].
  - case_decide; [done|apply IH].
Qed.

Section SetNodeStatus.
Variables (n : string) (st : RunStatus) (p : Pipeline) (task : TaskPipelineNode).
Hypothesis Hfind : find_node n (_nodes p) = Some task.

Lemma set_node_status_eq :
  set_node_status n st p = with_nodes (replace_node (with_status st task) (_nodes p)) p.
Proof using Hfind. unfold set_node_status. by rewrite Hfind. Qed.

Lemma find_node_set_node_status m :
  find_node m (_nodes (set_node_status n st p)) =
  if decide (m = n) then Some (with_status st task) else find_node m (_nodes p).
Proof using Hfind.
  rewrite set_node_status_eq. simpl.
  destruct (find_node_Some _ _ _ Hfind) as [Hname _].
  case_decide as E.
  - subst m. rewrite <- Hname at 1.
    apply (find_node_replace_eq (with_status st task) task). simpl. by rewrite Hname.
  - apply find_node_replace_ne. simpl. congruence.
Qed.

Lemma status_of_set_node_status m :
  status_of m (set_node_status n st p) =
  if decide (m = n) then Some st else status_of m p.
Proof using Hfind.
  unfold status_of. rewrite find_node_set_node_status. by case_decide.
Qed.

Lemma component_of_set_node_status m :
  component_of m (set_node_status n st p) = component_of m p.
Proof using Hfind.
  unfold component_of. rewrite find_node_set_node_status.
  case_decide as E; [|done]. subst m. by rewrite Hfind.
Qed.

Lemma node_names_set_node_status :
  node_names (set_node_status n st p) = node_names p.
Proof using Hfind.
  rewrite set_node_status_eq. unfold node_names. simpl. apply replace_node_names.
Qed.

Lemma edges_set_node_status : _edges (set_node_status n st p) = _edges p.
Proof using Hfind. by rewrite set_node_status_eq. Qed.

Lemma stores_set_node_status :
  _store (set_node_status n st p) = _store p /\
  _final_results (set_node_status n st p) = _final_results p.
Proof using Hfind. by rewrite set_node_status_eq. Qed.

End SetNodeStatus.

(** What depends on the edges only. *)
Lemma previous_edges_ext n p p' :
  _edges p' = _edges p -> previous_edges n p' = previous_edges n p.
Proof. unfold previous_edges. by intros ->. Qed.

Lemma next_edges_ext n p p' :
  _edges p' = _edges p -> next_edges n p' = next_edges n p.
Proof. unfold next_edges. by intros ->. Qed.

Lemma successors_ext n p p' :
  _edges p' = _edges p -> successors p' n = successors p n.
Proof. unfold successors. intros H. by rewrite (next_edges_ext n p p'). Qed.

Lemma is_leaf_ext n p p' :
  _edges p' = _edges p -> is_leaf n p' = is_leaf n p.
Proof. unfold is_leaf. intros H. by rewrite (next_edges_ext n p p'). Qed.

Lemma out_degree_ext n p p' :
  _edges p' = _edges p -> out_degree p' n = out_degree p n.
Proof. unfold out_degree. intros H. by rewrite (next_edges_ext n p p'). Qed.

Lemma wf_pipeline_ext p p' :
  node_names p' = node_names p -> _edges p' = _edges p ->
  wf_pipeline p -> wf_pipeline p'.
Proof. unfold wf_pipeline. by intros -> ->. Qed.

Lemma dependencies_done_mono p p' n :
  _edges p' = _edges p ->
  (forall m, status_of m p = Some DONE -> status_of m p' = Some DONE) ->
  dependencies_done p n -> dependencies_done p' n.
Proof.
  intros He Hst. unfold dependencies_done. rewrite (previous_edges_ext n p p' He).
  intros Hall. eapply Forall_impl; [exact Hall|]. intros d. apply Hst.
Qed.

(** ** The two halves of [run_task] *)

Lemma for_eachM_resolve_pipeline cname l cfg w r w' :
  for_eachM (resolve_parameter cname l) cfg w = (r, w') -> pipeline w' = pipeline w.
Proof.
  revert w. induction cfg as [|[p m] cfg IH]; intros w; cbn [for_eachM].
  - unfold pure. by intros [= _ <-].
  - unfold bind.
    destruct (resolved (_store (pipeline w)) m) as [v|e] eqn:Hres.
    + rewrite (resolve_parameter_ok _ _ _ _ v) by done. intros Hrun.
      by rewrite (IH _ Hrun).
    + rewrite (resolve_parameter_raises _ _ _ _ e) by done. by intros [= _ <-].
Qed.

Lemma get_component_inputs_pipeline cname cfg (data : input_data_t) w r w' :
  get_component_inputs cname cfg data w = (r, w') -> pipeline w' = pipeline w.
Proof.
  unfold get_component_inputs, bind.
  destruct (input_data_get_spec cname data w) as (l & w1 & -> & Hp1 & _).
  destruct (for_eachM _ _ w1) as [[[]|e] w2] eqn:Hloop;
    apply for_eachM_resolve_pipeline in Hloop; unfold pure; intros [= _ <-]; congruence.
Qed.

Lemma input_config_loop_done p es acc cfg :
  Forall (fun d => start d ∈ node_names p) es ->
  input_config_loop es acc p = Ok cfg ->
  Forall (fun d => status_of (start d) p = Some DONE) es.
Proof.
  intros Hes. revert acc. induction Hes as [|d es Hd Hes IH]; intros acc; simpl; [done|].
  destruct (get_node_by_name_in _ _ Hd) as (t & Ht & _ & _). rewrite Ht. simpl.
  apply get_node_by_name_Ok in Ht. pose proof (status_of_node _ _ _ Ht) as Hst.
  unfold read_status. case_decide as Hs; [done|].
  intros Hrun. constructor; [congruence|by eapply IH].
Qed.

Lemma get_input_config_for_task_done p task cfg :
  wf_pipeline p ->
  get_input_config_for_task task p = Ok cfg -> dependencies_done p (name task).
Proof.
  intros Hwf. unfold get_input_config_for_task, dependencies_done.
  apply input_config_loop_done.
  apply Forall_forall. intros d Hd. apply previous_edges_in in Hd as [Hd _].
  by apply (wf_edge_endpoints p d Hwf).
Qed.

Lemma run_task_begin_cases n (data : input_data_t) w r w' :
  run_task_begin n data w = (Ok r, w') ->
  exists task cfg,
    find_node n (_nodes (pipeline w)) = Some task /\
    get_input_config_for_task task (pipeline w) = Ok cfg /\
    match r with
    | None => pipeline w' = pipeline w /\ (status task = RUNNING \/ status task = DONE)
    | Some _ =>
        pipeline w' = set_node_status n RUNNING (pipeline w) /\
        status task <> RUNNING /\ status task <> DONE
    end.
Proof.
  unfold run_task_begin, bind, get_node, get_node_by_name.
  destruct (find_node n (_nodes (pipeline w))) as [task|] eqn:Hfind; [|done].
  destruct (get_input_config_for_task task (pipeline w)) as [cfg|] eqn:Hcfg; [|done].
  destruct (get_component_inputs _ _ _ w) as [[l|] w1] eqn:Hin; [|done].
  apply get_component_inputs_pipeline in Hin.
  unfold gets, lift.
  destruct (execute_begin_cases task) as [[-> Hst]|[-> [Hr Hd]]].
  - unfold pure. intros [= <- <-]. exists task, cfg. by rewrite Hin.
  - unfold put_node, modify, pure. intros [= <- <-]. exists task, cfg.
    split_and!; try done. simpl. rewrite Hin.
    by rewrite (set_node_status_eq n RUNNING (pipeline w) task).
Qed.

Lemma run_task_finish_cases n kwargs w nexts w' :
  run_task_finish n kwargs w = (Ok nexts, w') ->
  exists task out ys,
    find_node n (_nodes (pipeline w)) = Some task /\
    component_run (component task) kwargs = inr out /\
    status task <> DONE /\
    pipeline w' = add_result_for_component n (saved out)
                    (is_leaf n (set_node_status n DONE (pipeline w)))
                    (set_node_status n DONE (pipeline w)) /\
    heap w' = heap w /\
    next (with_status DONE task) (pipeline w') = Ok ys /\
    nexts = name <$> ys.
Proof.
  unfold run_task_finish, bind, get_node, get_node_by_name.
  destruct (find_node n (_nodes (pipeline w))) as [task|] eqn:Hfind; [|done].
  destruct (component_run (component task) kwargs) as [msg|out] eqn:Hrun; [done|].
  unfold lift, execute_finish, set_status.
  destruct (find_node_Some _ _ _ Hfind) as [Hname _].
  destruct (decide (DONE = status task)) as [E|E]; [done|].
  rewrite decide_False by (intros [? _]; done).
  unfold put_node, modify, pure. cbn [fst snd].
  destruct (next _ _) as [ys|] eqn:Hnext; [|done].
  intros [= <- <-]. exists task, out, ys.
  split_and!; try done.
  - cbn [pipeline with_pipeline]. unfold pipeline_on_task_complete.
    cbn [rr_result name with_status].
    rewrite <- (set_node_status_eq n DONE (pipeline w) task Hfind). by rewrite Hname.
Qed.

(** ** Bookkeeping lists of the scheduler *)

Lemma elem_of_remove_first m n l :
  m ∈ l -> m <> n -> m ∈ remove_first n l.
Proof.
  induction l as [|x l IH]; simpl; [done|].
  intros [->|Hm]%elem_of_cons Hne.
  - rewrite decide_False by done. apply list_elem_of_here.
  - case_decide; [done|]. apply list_elem_of_further. by apply IH.
Qed.

Lemma length_remove_first n l :
  n ∈ l -> S (length (remove_first n l)) = length l.
Proof.
  induction l as [|x l IH]; simpl.
  - by intros ?%elem_of_nil.
  - case_decide as E; [done|]. intros [->|Hn]%elem_of_cons; [done|].
    simpl. by rewrite IH.
Qed.

Lemma find_inflight_Some n l kwargs :
  find_inflight n l = Some kwargs -> (n, kwargs) ∈ l.
Proof.
  induction l as [|[x k] l IH]; simpl; [done|].
  case_decide as E.
  - intros [= <-]. subst x. apply list_elem_of_here.
  - intros H. apply list_elem_of_further. by apply IH.
Qed.

Lemma find_inflight_None n l :
  find_inflight n l = None -> n ∉ l.*1.
Proof.
  induction l as [|[x k] l IH]; csimpl.
  - intros _. apply not_elem_of_nil.
  - case_decide as E; [done|]. intros H. rewrite not_elem_of_cons.
    split; [done|by apply IH].
Qed.

Lemma remove_inflight_in n l item :
  item ∈ remove_inflight n l -> item ∈ l.
Proof.
  induction l as [|[x k] l IH]; simpl; [done|].
  case_decide as E.
  - intros H. by apply list_elem_of_further.
  - intros [->|H]%elem_of_cons; [apply list_elem_of_here|].
    apply list_elem_of_further. by apply IH.
Qed.

Lemma remove_inflight_names n l m :
  m ∈ l.*1 -> m <> n -> m ∈ (remove_inflight n l).*1.
Proof.
  induction l as [|[x k] l IH]; csimpl; [done|].
  intros [->|Hm]%elem_of_cons Hne.
  - rewrite decide_False by done. csimpl. apply list_elem_of_here.
  - case_decide; [done|]. csimpl. apply list_elem_of_further. by apply IH.
Qed.

Lemma remove_inflight_nodup n l :
  NoDup l.*1 ->
  NoDup (remove_inflight n l).*1 /\ n ∉ (remove_inflight n l).*1.
Proof.
  induction l as [|[x k] l IH]; csimpl.
  - intros _. split; [constructor|apply not_elem_of_nil].
  - intros [Hx Hnd]%NoDup_cons.
    destruct (IH Hnd) as [IH1 IH2].
    case_decide as E.
    + subst x. done.
    + csimpl. split.
      * apply NoDup_cons. split; [|done]. intros Hin. apply Hx.
        apply list_elem_of_fmap in Hin as (item & -> & Hitem).
        apply list_elem_of_fmap. exists item. split; [done|].
        by apply (remove_inflight_in n).
      * rewrite not_elem_of_cons. split; [done|done].
Qed.

Lemma sum_remove_inflight (f : string * pydict -> nat) n l kwargs :
  find_inflight n l = Some kwargs ->
  sum_list_with f (remove_inflight n l) + f (n, kwargs) = sum_list_with f l.
Proof.
  induction l as [|[x k] l IH]; simpl; [done|].
  case_decide as E.
  - intros [= <-]. subst x. lia.
  - intros H. simpl. specialize (IH H). lia.
Qed.

Lemma sum_replace_node (f : TaskPipelineNode -> nat) t t0 ns :
  NoDup (name <$> ns) -> find_node (name t) ns = Some t0 ->
  sum_list_with f (replace_node t ns) + f t0 = sum_list_with f ns + f t.
Proof.
  induction ns as [|t' ns IH]; csimpl; [done|].
  intros [Hn Hnd]%NoDup_cons.
  case_decide as E; csimpl.
  - intros [= ->]. lia.
  - intros H. specialize (IH Hnd H). lia.
Qed.

Lemma sum_list_with_ext_in {A} (f g : A -> nat) l :
  (forall a, a ∈ l -> f a = g a) -> sum_list_with f l = sum_list_with g l.
Proof.
  induction l as [|a l IH]; intros H; simpl; [done|].
  rewrite H by apply list_elem_of_here.
  rewrite IH; [done|]. intros b Hb. by apply H, list_elem_of_further.
Qed.

(** ** [reinitialize] *)

Lemma find_node_reinitialize n ns :
  find_node n (task_reinitialize <$> ns) = task_reinitialize <$> find_node n ns.
Proof.
  induction ns as [|t ns IH]; [done|]. csimpl.
  case_decide; [done|apply IH].
Qed.

Lemma node_names_reinitialize p : node_names (reinitialize p) = node_names p.
Proof.
  unfold node_names. simpl. rewrite <- list_fmap_compose. by apply list_fmap_ext.
Qed.

Lemma status_of_reinitialize n p :
  status_of n (reinitialize p) = Some SCHEDULED \/ status_of n (reinitialize p) = None.
Proof.
  unfold status_of. simpl. rewrite find_node_reinitialize.
  destruct (find_node n (_nodes p)); [by left|by right].
Qed.

Lemma component_of_reinitialize n p :
  component_of n (reinitialize p) = component_of n p.
Proof.
  unfold component_of. simpl. rewrite find_node_reinitialize.
  by destruct (find_node n (_nodes p)).
Qed.

Lemma wf_reinitialize p : wf_pipeline p -> wf_pipeline (reinitialize p).
Proof. apply wf_pipeline_ext; [apply node_names_reinitialize|done]. Qed.

Lemma root_names p n :
  n ∈ node_names p -> previous_edges n p = [] -> n ∈ name <$> roots p.
Proof.
  unfold node_names, roots. intros (t & -> & Ht)%list_elem_of_fmap Hprev.
  apply list_elem_of_fmap. exists t. split; [done|].
  by apply list_elem_of_filter.
Qed.

(** Just after [reinitialize], when [Orchestrator.run] has gathered the
    roots. *)
Lemma run_invariant_start p w :
  wf_pipeline p ->
  run_invariant (reinitialize p)
    (orchestrator_start (with_pipeline (reinitialize p) w)).
Proof.
  intros Hwf.
  assert (forall n, status_of n (reinitialize p) <> Some RUNNING /\
                    status_of n (reinitialize p) <> Some DONE) as Hst.
  { intros n. destruct (status_of_reinitialize n p) as [-> | ->]; done. }
  constructor; simpl; try done.
  - by intros ? ? ?%elem_of_nil.
  - constructor.
  - intros n Hn. by destruct (Hst n).
  - constructor.
  - intros n. split; [by intros ?%elem_of_nil|]. intros [H|H]; by destruct (Hst n).
  - by intros ? ?%elem_of_nil.
  - intros n Hn Hdeps. left. apply root_names; [done|].
    unfold dependencies_done in Hdeps.
    destruct (previous_edges n (reinitialize p)) as [|d ds]; [done|].
    apply Forall_cons in Hdeps as [Hd _]. by destruct (Hst (start d)).
  - intros n Hleaf Hdone. by destruct (Hst n).
Qed.

(** ** The run invariant is kept by every step *)

Section RunInvariant.
Variable p0 : Pipeline.
Hypothesis p0_wf : wf_pipeline p0.
Variable input_data : input_data_t.

Lemma run_invariant_wf s : run_invariant p0 s -> wf_pipeline (pipeline (world s)).
Proof using p0_wf.
  intros Hinv. apply (wf_pipeline_ext p0); [apply Hinv..|done].
Qed.

(** A coroutine starts and its node moves to [RUNNING]. *)
Lemma run_invariant_start_accepted s n kwargs w' :
  run_invariant p0 s ->
  n ∈ pending s ->
  run_task_begin n input_data (world s) = (Ok (Some kwargs), w') ->
  run_invariant p0
    (mkSched w' (remove_first n (pending s)) (inflight s ++ [(n, kwargs)])
       (invoked s ++ [(n, kwargs)])).
Proof using p0_wf.
  intros Hinv Hpend Hrun.
  pose proof (run_invariant_wf s Hinv) as Hwf.
  destruct Hinv as [Hnames Hedges Hcomp Hir Hind Hri Hii Hvnd Hvs Hvd Hrs Hfs Hfc].
  apply run_task_begin_cases in Hrun as (task & cfg & Hfind & Hcfg & Hp' & Hnr & Hnd).
  set (p := pipeline (world s)) in *.
  pose proof (status_of_node _ _ _ Hfind) as Hstn.
  destruct (find_node_Some _ _ _ Hfind) as [Hname _].
  assert (forall m, status_of m (pipeline w') =
                    if decide (m = n) then Some RUNNING else status_of m p) as Hst.
  { intros m. rewrite Hp'. apply (status_of_set_node_status n RUNNING p task Hfind). }
  assert (_edges (pipeline w') = _edges p) as He.
  { rewrite Hp'. apply (edges_set_node_status n RUNNING p task Hfind). }
  assert (forall m, status_of m p = Some DONE -> status_of m (pipeline w') = Some DONE) as Hdone.
  { intros m Hm. rewrite Hst. case_decide; [|done]. subst m. congruence. }
  assert (forall m, status_of m (pipeline w') = Some DONE -> status_of m p = Some DONE) as Hdone'.
  { intros m. rewrite Hst. by case_decide. }
  assert (n ∉ (inflight s).*1) as Hn_inflight.
  { intros (item & -> & Hitem)%list_elem_of_fmap. destruct item as [m k].
    specialize (Hir m k Hitem). simpl in *. congruence. }
  assert (n ∉ (invoked s).*1) as Hn_invoked.
  { intros Hin. apply Hvs in Hin as [Hin|Hin]; congruence. }
  constructor; cbn [world pending inflight invoked].
  - rewrite Hp', <- Hnames. apply (node_names_set_node_status n RUNNING p task Hfind).
  - by rewrite He.
  - intros m. rewrite Hp', <- Hcomp. apply (component_of_set_node_status n RUNNING p task Hfind).
  - intros m k [Hin|Hin]%elem_of_app.
    + rewrite Hst. case_decide; [done|]. by apply (Hir m k).
    + apply list_elem_of_singleton in Hin as [= -> ->]. rewrite Hst. by rewrite decide_True.
  - rewrite fmap_app. apply NoDup_app. split_and!; [done| |apply NoDup_singleton].
    intros m Hm ->%list_elem_of_singleton. done.
  - intros m. rewrite Hst, fmap_app, elem_of_app. case_decide as E.
    + intros _. right. subst m. apply list_elem_of_here.
    + intros Hm. left. by apply Hri.
  - intros item [Hin|Hin]%elem_of_app; apply elem_of_app; [left; by apply Hii|by right].
  - rewrite fmap_app. apply NoDup_app. split_and!; [done| |apply NoDup_singleton].
    intros m Hm ->%list_elem_of_singleton. done.
  - intros m. rewrite Hst, fmap_app, elem_of_app. case_decide as E.
    + subst m. split; [by left|]. intros _. right. apply list_elem_of_here.
    + rewrite <- Hvs. split; [|by left].
      intros [H|H%list_elem_of_singleton]; [done|]. simpl in H. done.
  - intros m. rewrite fmap_app, elem_of_app. intros [Hm|Hm%list_elem_of_singleton].
    + apply (dependencies_done_mono p); [done..|]. by apply Hvd.
    + simpl in Hm. subst m. apply (dependencies_done_mono p); [done..|].
      rewrite <- Hname. by apply (get_input_config_for_task_done p task cfg).
  - intros m Hm Hdeps.
    rewrite Hst. case_decide as E; [by right; left|].
    assert (m ∈ node_names p) as Hm'.
    { rewrite Hp' in Hm. by rewrite (node_names_set_node_status n RUNNING p task Hfind) in Hm. }
    assert (dependencies_done p m) as Hdeps'.
    { revert Hdeps. unfold dependencies_done. rewrite (previous_edges_ext m p _ He).
      intros Hall. eapply Forall_impl; [exact Hall|]. intros d. apply Hdone'. }
    destruct (Hrs m Hm' Hdeps') as [H|H]; [|by right].
    left. by apply elem_of_remove_first.
  - intros m v. rewrite Hp'.
    destruct (stores_set_node_status n RUNNING p task Hfind) as [_ ->].
    intros Hv. destruct (Hfs m v Hv) as (Hleaf & Hd & k & c & out & Hin & Hc & Hout & ->).
    rewrite <- Hp'. split_and!.
    + by rewrite (is_leaf_ext m p _ He).
    + by apply Hdone.
    + exists k, c, out. split_and!; try done.
      * apply elem_of_app. by left.
      * rewrite Hp'. by rewrite (component_of_set_node_status n RUNNING p task Hfind).
  - intros m Hleaf Hd. rewrite Hp'.
    destruct (stores_set_node_status n RUNNING p task Hfind) as [_ ->].
    apply Hfc; [|by apply Hdone'].
    by rewrite <- (is_leaf_ext m p _ He).
Qed.

(** A coroutine starts on a node that is already running or done, and returns
    at once. *)
Lemma run_invariant_start_rejected s n w' :
  run_invariant p0 s ->
  n ∈ pending s ->
  run_task_begin n input_data (world s) = (Ok None, w') ->
  run_invariant p0 (mkSched w' (remove_first n (pending s)) (inflight s) (invoked s)).
Proof using p0_wf.
  intros Hinv Hpend Hrun.
  destruct Hinv as [Hnames Hedges Hcomp Hir Hind Hri Hii Hvnd Hvs Hvd Hrs Hfs Hfc].
  apply run_task_begin_cases in Hrun as (task & cfg & Hfind & Hcfg & Hp' & Hst).
  pose proof (status_of_node _ _ _ Hfind) as Hstn.
  constructor; cbn [world pending inflight invoked]; rewrite ?Hp'; try done.
  intros m Hm Hdeps. destruct (Hrs m Hm Hdeps) as [H|H]; [|by right].
  destruct (decide (m = n)) as [->|Hne].
  - right. rewrite Hstn. destruct Hst as [-> | ->]; auto.
  - left. by apply elem_of_remove_first.
Qed.

(** A component returns: its node moves to [DONE], the result is saved, and
    the children that are ready are gathered. *)
Lemma run_invariant_complete s n kwargs nexts w' :
  run_invariant p0 s ->
  find_inflight n (inflight s) = Some kwargs ->
  run_task_finish n kwargs (world s) = (Ok nexts, w') ->
  run_invariant p0
    (mkSched w' (pending s ++ nexts) (remove_inflight n (inflight s)) (invoked s)).
Proof using p0_wf.
  intros Hinv Hfl Hrun.
  pose proof (run_invariant_wf s Hinv) as Hwf.
  destruct Hinv as [Hnames Hedges Hcomp Hir Hind Hri Hii Hvnd Hvs Hvd Hrs Hfs Hfc].
  apply run_task_finish_cases in Hrun
    as (task & out & ys & Hfind & Hout & Hnd & Hp' & _ & Hnext & ->).
  set (p := pipeline (world s)) in *.
  apply find_inflight_Some in Hfl as Hin_fl.
  pose proof (Hir n kwargs Hin_fl) as Hrunning.
  destruct (find_node_Some _ _ _ Hfind) as [Hname _].
  assert (forall m, status_of m (pipeline w') =
                    if decide (m = n) then Some DONE else status_of m p) as Hst.
  { intros m. rewrite Hp'. apply (status_of_set_node_status n DONE p task Hfind). }
  assert (_edges (pipeline w') = _edges p) as He.
  { rewrite Hp'. apply (edges_set_node_status n DONE p task Hfind). }
  assert (node_names (pipeline w') = node_names p) as Hnm.
  { rewrite Hp'. apply (node_names_set_node_status n DONE p task Hfind). }
  assert (forall m, component_of m (pipeline w') = component_of m p) as Hcm.
  { intros m. rewrite Hp'. apply (component_of_set_node_status n DONE p task Hfind). }
  assert (_final_results (pipeline w') =
          if is_leaf n p then <[n := saved out]> (_final_results p)
          else _final_results p) as Hfin.
  { rewrite Hp'. unfold add_result_for_component. cbn [_final_results with_stores].
    rewrite (is_leaf_ext n p); [|apply (edges_set_node_status n DONE p task Hfind)].
    destruct (stores_set_node_status n DONE p task Hfind) as [_ ->]. done. }
  assert (forall m, status_of m p = Some DONE -> status_of m (pipeline w') = Some DONE) as Hdone.
  { intros m Hm. rewrite Hst. by case_decide. }
  assert (wf_pipeline (pipeline w')) as Hwf' by by apply (wf_pipeline_ext p).
  assert (name <$> ys = filter (ready (pipeline w')) (successors p n)) as Hys.
  { rewrite (next_names _ _ _ Hwf' Hnext). cbn [name with_status].
    rewrite Hname. by rewrite (successors_ext n p _ He). }
  destruct (remove_inflight_nodup n (inflight s) Hind) as [Hind' Hn_out].
  constructor; cbn [world pending inflight invoked].
  - by rewrite Hnm.
  - by rewrite He.
  - intros m. by rewrite Hcm.
  - intros m k Hin. rewrite Hst. case_decide as E.
    + subst m. exfalso. apply Hn_out. apply list_elem_of_fmap. by exists (n, k).
    + apply (Hir m k). by apply (remove_inflight_in n).
  - done.
  - intros m. rewrite Hst. case_decide as E; [done|].
    intros Hm. apply remove_inflight_names; [by apply Hri|done].
  - intros item Hin. by apply Hii, (remove_inflight_in n).
  - done.
  - intros m. rewrite Hst. case_decide as E; [|apply Hvs].
    subst m. split; [auto|]. intros _. apply Hvs. by left.
  - intros m Hm. apply (dependencies_done_mono p); [done..|]. by apply Hvd.
  - intros m Hm Hdeps. rewrite Hnm in Hm.
    destruct (decide (status_of m (pipeline w') = Some RUNNING)) as [|Hnr]; [by right; left|].
    destruct (decide (status_of m (pipeline w') = Some DONE)) as [|Hndone]; [by right; right|].
    left. apply elem_of_app.
    assert (m <> n) as Hne.
    { intros ->. apply Hndone. rewrite Hst. by rewrite decide_True. }
    assert (status_of m (pipeline w') = status_of m p) as Hsame.
    { rewrite Hst. by rewrite decide_False. }
    destruct (decide (dependencies_done p m)) as [Hd|Hd].
    + left. destruct (Hrs m Hm Hd) as [H|[H|H]]; [done|congruence..].
    + right. rewrite Hys. apply list_elem_of_filter. split; [done|].
      unfold dependencies_done in Hd, Hdeps.
      apply not_Forall_Exists in Hd; [|apply _].
      apply Exists_exists in Hd as (d & Hdin & Hdst).
      rewrite (previous_edges_ext m p _ He), Forall_forall in Hdeps.
      specialize (Hdeps d Hdin). rewrite Hst in Hdeps.
      destruct (decide (start d = n)) as [Hdn|]; [|done].
      apply previous_edges_in in Hdin as [Hdin Hend].
      unfold successors. apply list_elem_of_fmap. exists d. split; [done|].
      by apply next_edges_in.
  - intros m v. rewrite Hfin, (is_leaf_ext m p _ He), Hcm.
    intros Hv.
    destruct (decide (m = n)) as [->|Hne].
    + destruct (is_leaf n p) eqn:Hleaf.
      * rewrite lookup_insert_eq in Hv. injection Hv as <-.
        split; [done|]. split; [rewrite Hst; by rewrite decide_True|].
        exists kwargs, (component task), out. split_and!; try done.
        -- by apply Hii.
        -- unfold component_of. fold p. by rewrite Hfind.
      * destruct (Hfs n v Hv) as (Hl & _). fold p in Hl. congruence.
    + assert (_final_results p !! m = Some v) as Hv'.
      { destruct (is_leaf n p); [by rewrite lookup_insert_ne in Hv|done]. }
      destruct (Hfs m v Hv') as (Hl & Hd & Hrest).
      split; [done|]. split; [by apply Hdone|done].
  - intros m. rewrite Hfin, (is_leaf_ext m p _ He), Hst. intros Hleaf.
    case_decide as E.
    + subst m. intros _. rewrite Hleaf. rewrite lookup_insert_eq. eauto.
    + intros Hd. destruct (is_leaf n p); [rewrite lookup_insert_ne by done|]; by apply Hfc.
Qed.

(** Every step that goes on keeps the invariant. *)
Lemma run_invariant_step ev s s' :
  run_invariant p0 s -> step input_data ev s = Continue s' -> run_invariant p0 s'.
Proof using p0_wf.
  intros Hinv. destruct ev as [n|n]; simpl.
  - case_decide as Hpend; [|done].
    destruct (run_task_begin n input_data (world s)) as [[[kwargs|]|e] w'] eqn:Hrun;
      intros [= <-].
    + by apply (run_invariant_start_accepted s n kwargs w').
    + by apply (run_invariant_start_rejected s n w').
  - destruct (find_inflight n (inflight s)) as [kwargs|] eqn:Hfl; [|done].
    destruct (run_task_finish n kwargs (world s)) as [[nexts|e] w'] eqn:Hrun;
      intros [= <-].
    by apply (run_invariant_complete s n kwargs nexts w').
Qed.

Lemma run_invariant_run_events evs s s' :
  run_invariant p0 s -> run_events input_data evs s = Continue s' -> run_invariant p0 s'.
Proof using p0_wf.
  revert s. induction evs as [|ev evs IH]; intros s Hinv; simpl.
  - by intros [= <-].
  - destruct (step input_data ev s) as [| |s1] eqn:Hstep; [done..|].
    apply IH. by apply (run_invariant_step ev s).
Qed.

(** ** Every run ends *)

Lemma steps_left_step ev s s' :
  run_invariant p0 s -> step input_data ev s = Continue s' ->
  steps_left s' < steps_left s.
Proof using p0_wf.
  intros Hinv.
  pose proof (run_invariant_wf s Hinv) as [Hnd_names _].
  destruct ev as [n|n]; simpl.
  - case_decide as Hpend; [|done].
    pose proof (length_remove_first n (pending s) Hpend) as Hlen.
    destruct (run_task_begin n input_data (world s)) as [[[kwargs|]|e] w'] eqn:Hrun;
      intros [= <-].
    + apply run_task_begin_cases in Hrun as (task & cfg & Hfind & _ & Hp' & Hnr & Hndone).
      destruct (find_node_Some _ _ _ Hfind) as [Hname _].
      unfold steps_left, out_degree, next_edges. cbn [world pending inflight].
      rewrite Hp', (set_node_status_eq n RUNNING _ task Hfind).
      cbn [_edges _nodes with_nodes].
      rewrite sum_list_with_app. cbn [sum_list_with fst].
      match goal with
      | |- context [sum_list_with ?f (replace_node ?t ?ns)] =>
          pose proof (sum_replace_node f t task ns Hnd_names) as Hsum
      end.
      cbn [name with_status status] in Hsum. rewrite Hname in Hsum.
      specialize (Hsum Hfind).
      rewrite (decide_True (P := RUNNING = RUNNING \/ RUNNING = DONE)) in Hsum by auto.
      rewrite (decide_False (P := status task = RUNNING \/ status task = DONE)) in Hsum
        by tauto.
      lia.
    + apply run_task_begin_cases in Hrun as (task & cfg & _ & _ & Hp' & _).
      unfold steps_left. cbn [world pending inflight]. rewrite Hp'. lia.
  - destruct (find_inflight n (inflight s)) as [kwargs|] eqn:Hfl; [|done].
    destruct (run_task_finish n kwargs (world s)) as [[nexts|e] w'] eqn:Hrun;
      intros [= <-].
    pose proof (run_invariant_complete s n kwargs nexts w' Hinv Hfl Hrun) as Hinv'.
    pose proof (run_invariant_wf _ Hinv') as Hwf'. cbn [world] in Hwf'.
    apply run_task_finish_cases in Hrun
      as (task & out & ys & Hfind & _ & _ & Hp' & _ & Hnext & ->).
    destruct (find_node_Some _ _ _ Hfind) as [Hname _].
    assert (status task = RUNNING) as Hrunning.
    { pose proof (inv_inflight_running _ _ Hinv n kwargs (find_inflight_Some _ _ _ Hfl)) as H.
      rewrite (status_of_node _ _ _ Hfind) in H. by injection H. }
    assert (length ys <= length (next_edges n (pipeline (world s)))) as Hys.
    { rewrite <- (length_fmap name ys), (next_names _ _ _ Hwf' Hnext).
      etrans; [apply length_filter|]. unfold successors. rewrite length_fmap.
      cbn [name with_status]. rewrite Hname.
      rewrite (next_edges_ext n (pipeline (world s))); [done|].
      rewrite Hp'. apply (edges_set_node_status n DONE _ task Hfind). }
    unfold steps_left, out_degree, next_edges. cbn [world pending inflight].
    rewrite Hp'. unfold add_result_for_component. cbn [_edges _nodes with_stores].
    rewrite (set_node_status_eq n DONE _ task Hfind).
    cbn [_edges _nodes with_nodes].
    rewrite length_app, length_fmap.
    match goal with
    | |- context [sum_list_with ?f (remove_inflight n ?l)] =>
        pose proof (sum_remove_inflight f n l kwargs Hfl) as Hsum1
    end.
    match goal with
    | |- context [sum_list_with ?f (replace_node ?t ?ns)] =>
        pose proof (sum_replace_node f t task ns Hnd_names) as Hsum2
    end.
    cbn [name with_status status fst] in Hsum1, Hsum2. rewrite Hname in Hsum2.
    specialize (Hsum2 Hfind).
    rewrite (decide_True (P := DONE = RUNNING \/ DONE = DONE)) in Hsum2 by auto.
    rewrite (decide_True (P := status task = RUNNING \/ status task = DONE)) in Hsum2
      by auto.
    unfold next_edges in Hys. lia.
Qed.

(** Whatever is left to do can be done: a step is enabled for every coroutine
    to start and every suspended task. *)
Lemma step_enabled s :
  quiescent s = false ->
  exists ev, step input_data ev s <> Stuck.
Proof.
  unfold quiescent. intros Hq. apply bool_decide_eq_false in Hq.
  destruct (pending s) as [|n l] eqn:Hp.
  - destruct (inflight s) as [|[n kwargs] l] eqn:Hi; [by destruct Hq|].
    exists (Complete n). simpl. rewrite Hi. simpl. rewrite decide_True by done.
    by destruct (run_task_finish _ _ _) as [[] ?].
  - exists (Start n). simpl. rewrite Hp. rewrite decide_True by apply list_elem_of_here.
    by destruct (run_task_begin _ _ _) as [[[]|] ?].
Qed.

(** From any state of a run some schedule leads to the end: the run raises or
    comes to rest. *)
Lemma run_events_total s :
  run_invariant p0 s ->
  exists evs,
    (exists e w, run_events input_data evs s = Aborted e w) \/
    (exists s', run_events input_data evs s = Continue s' /\ quiescent s' = true).
Proof using p0_wf.
  remember (steps_left s) as k eqn:Hk. revert s Hk.
  induction (lt_wf k) as [k _ IH]. intros s -> Hinv.
  destruct (quiescent s) eqn:Hq.
  - exists []. right. by exists s.
  - destruct (step_enabled s Hq) as [ev Hev].
    destruct (step input_data ev s) as [|e w|s1] eqn:Hstep; [done|..].
    + exists [ev]. left. exists e, w. simpl. by rewrite Hstep.
    + destruct (IH (steps_left s1) (steps_left_step ev s s1 Hinv Hstep) s1 eq_refl)
        as [evs Hevs].
      { by apply (run_invariant_step ev s). }
      exists (ev :: evs). simpl. by rewrite Hstep.
Qed.


End RunInvariant.

(** ** [Pipeline.run] *)

Lemma status_of_reinitialize_node n p :
  n ∈ node_names p -> status_of n (reinitialize p) = Some SCHEDULED.
Proof.
  intros Hn. unfold status_of. simpl. rewrite find_node_reinitialize.
  destruct (find_node_is_Some _ _ Hn) as [t ->]. done.
Qed.

(** ** Two roots and their consumer *)

Lemma calls_absent (c : string) (l : list (string * pydict)) :
  c ∉ l.*1 -> filter (fun item => item.1 = c) l = [].
Proof.
  induction l as [|[x k] l IH]; csimpl; [done|].
  intros [Hne Hc]%not_elem_of_cons. rewrite filter_cons. csimpl.
  rewrite decide_False by done. by apply IH.
Qed.

Lemma calls_at_most_once (c : string) (l : list (string * pydict)) :
  NoDup l.*1 ->
  length (filter (fun item => item.1 = c) l) <= 1 /\
  (c ∈ l.*1 -> length (filter (fun item => item.1 = c) l) = 1).
Proof.
  induction l as [|[x k] l IH]; csimpl.
  - intros _. split; [lia|]. by intros ?%elem_of_nil.
  - intros [Hx Hnd]%NoDup_cons. destruct (IH Hnd) as [IH1 IH2].
    rewrite filter_cons. csimpl. case_decide as E.
    + subst x.
      rewrite (calls_absent c l Hx). simpl. split; [lia|done].
    + split; [done|]. intros [?|Hc]%elem_of_cons; [done|]. by apply IH2.
Qed.


(** ** What a started task is called with *)

Lemma dict_set_keys {V} k (v : V) d :
  NoDup d.*1 -> NoDup (dict_set k v d).*1 /\
  forall x, x ∈ (dict_set k v d).*1 <-> x = k \/ x ∈ d.*1.
Proof.
  induction d as [|[k' v'] d IH]; csimpl.
  - intros _. split; [apply NoDup_singleton|].
    intros x. rewrite list_elem_of_singleton, elem_of_nil. tauto.
  - intros [Hk' Hnd]%NoDup_cons. destruct (IH Hnd) as [IH1 IH2].
    case_decide as E; csimpl.
    + subst k'. split; [by apply NoDup_cons|].
      intros x. rewrite elem_of_cons. tauto.
    + split.
      * apply NoDup_cons. split; [|done]. rewrite IH2. intros [?|?]; done.
      * intros x. rewrite !elem_of_cons, IH2. tauto.
Qed.

Lemma dict_update_nodup {V} (d new : list (string * V)) :
  NoDup d.*1 -> NoDup (dict_update d new).*1.
Proof.
  unfold dict_update. revert d. induction new as [|[k v] new IH]; intros d Hd; simpl; [done|].
  apply IH. by apply dict_set_keys.
Qed.

Lemma input_config_loop_nodup p es acc cfg :
  NoDup acc.*1 -> input_config_loop es acc p = Ok cfg -> NoDup cfg.*1.
Proof.
  revert acc. induction es as [|e es IH]; intros acc Hacc; simpl.
  - by intros [= <-].
  - destruct (get_node_by_name _ _); simpl; [|done].
    case_decide; [done|]. apply IH. by apply dict_update_nodup.
Qed.

(** The configuration built by [get_input_config_for_task] is a dictionary:
    no parameter occurs twice. *)
Lemma get_input_config_for_task_nodup p task cfg :
  get_input_config_for_task task p = Ok cfg -> NoDup cfg.*1.
Proof. apply input_config_loop_nodup. constructor. Qed.

Lemma resolve_loop_inv cname l cfg w w' :
  for_eachM (resolve_parameter cname l) cfg w = (Ok tt, w') ->
  Forall (fun item => exists v, resolved (_store (pipeline w)) item.2 = Ok v) cfg.
Proof.
  revert w. induction cfg as [|[p m] cfg IH]; intros w; cbn [for_eachM]; [done|].
  unfold bind.
  destruct (resolved (_store (pipeline w)) m) as [v|e] eqn:Hres.
  - rewrite (resolve_parameter_ok _ _ _ _ v) by done. intros Hrun.
    constructor; [by exists v|]. by apply IH in Hrun.
  - by rewrite (resolve_parameter_raises _ _ _ _ e).
Qed.

Lemma get_component_inputs_inv cname cfg (data : input_data_t) w l w' :
  get_component_inputs cname cfg data w = (Ok l, w') ->
  Forall (fun item => exists v, resolved (_store (pipeline w)) item.2 = Ok v) cfg.
Proof.
  unfold get_component_inputs, bind.
  destruct (input_data_get_spec cname data w) as (l1 & w1 & -> & Hp1 & _).
  destruct (for_eachM _ _ w1) as [[[]|e] w2] eqn:Hloop; [|done].
  intros _. apply resolve_loop_inv in Hloop. by rewrite Hp1 in Hloop.
Qed.

(** A task that starts is called with the dictionary [get_component_inputs]
    filled in, and the heap is left as [get_component_inputs] left it. *)
Lemma run_task_begin_inputs n (data : input_data_t) w kwargs w' :
  run_task_begin n data w = (Ok (Some kwargs), w') ->
  exists task cfg l w1,
    find_node n (_nodes (pipeline w)) = Some task /\
    get_input_config_for_task task (pipeline w) = Ok cfg /\
    get_component_inputs n cfg data w = (Ok l, w1) /\
    kwargs = deref l w1 /\ heap w' = heap w1.
Proof.
  unfold run_task_begin, bind, get_node, get_node_by_name.
  destruct (find_node n (_nodes (pipeline w))) as [task|] eqn:Hfind; [|done].
  destruct (find_node_Some _ _ _ Hfind) as [Hname _]. rewrite Hname.
  destruct (get_input_config_for_task task (pipeline w)) as [cfg|] eqn:Hcfg; [|done].
  destruct (get_component_inputs _ _ _ w) as [[l|] w1] eqn:Hin; [|done].
  unfold gets, lift.
  destruct (execute_begin_cases task) as [[-> _]|[-> _]].
  - unfold pure. done.
  - unfold put_node, modify, pure. intros [= <- <-]. by exists task, cfg, l, w1.
Qed.

(** The keyword arguments of a call hold, for every mapped parameter, the
    value its reference denotes. *)
Lemma started_task_receives_mapped_values (data : input_data_t) s s' n task cfg :
  step data (Start n) s = Continue s' ->
  find_node n (_nodes (pipeline (world s))) = Some task ->
  get_input_config_for_task task (pipeline (world s)) = Ok cfg ->
  n ∉ (invoked s).*1 -> n ∈ (invoked s').*1 ->
  exists kwargs,
    invoked s' = invoked s ++ [(n, kwargs)] /\
    forall p m, (p, m) ∈ cfg ->
      exists v, resolved (_store (pipeline (world s))) m = Ok v /\ kwargs !! p = Some v.
Proof.
  intros Hstep Hfind Hcfg Hnot Hin. simpl in Hstep.
  case_decide as Hpend; [|done].
  destruct (run_task_begin n data (world s)) as [[[kwargs|]|e] w'] eqn:Hrun;
    [|by injection Hstep as <-|done].
  injection Hstep as <-.
  exists kwargs. split; [done|].
  apply run_task_begin_inputs in Hrun as (task' & cfg' & l & w1 & Hfind' & Hcfg' & Hget & -> & _).
  rewrite Hfind in Hfind'. injection Hfind' as <-.
  rewrite Hcfg in Hcfg'. injection Hcfg' as <-.
  pose proof (get_input_config_for_task_nodup _ _ _ Hcfg) as Hnd.
  pose proof (get_component_inputs_inv _ _ _ _ _ _ Hget) as Hall.
  destruct (get_component_inputs_ok n cfg data (world s) Hnd Hall)
    as (l' & w1' & Hget' & _ & _ & _ & Hderef & _).
  rewrite Hget in Hget'. injection Hget' as <- <-.
  intros p m Hpm. rewrite Forall_forall in Hall.
  destruct (Hall (p, m) Hpm) as [v Hv]. exists v. split; [done|].
  rewrite Hderef. by apply (overlay_lookup _ cfg _ p m v).
Qed.

(** When the caller supplied a dictionary for the task, starting the task
    writes the mapped values into that dictionary. *)
Lemma started_task_writes_caller_dict (data : input_data_t) s s' n l0 task cfg :
  step data (Start n) s = Continue s' ->
  data !! n = Some l0 ->
  find_node n (_nodes (pipeline (world s))) = Some task ->
  get_input_config_for_task task (pipeline (world s)) = Ok cfg ->
  cfg <> [] ->
  exists d',
    heap (world s') !! l0 = Some d' /\
    (forall p m, (p, m) ∈ cfg ->
       exists v, resolved (_store (pipeline (world s))) m = Ok v /\ d' !! p = Some v) /\
    (forall k, k ∉ cfg.*1 -> d' !! k = deref l0 (world s) !! k).
Proof.
  intros Hstep Hdata Hfind Hcfg Hne. simpl in Hstep.
  case_decide as Hpend; [|done].
  unfold run_task_begin, bind, get_node, get_node_by_name in Hstep.
  rewrite Hfind in Hstep. rewrite Hcfg in Hstep.
  destruct (find_node_Some _ _ _ Hfind) as [Hname _]. rewrite Hname in Hstep.
  destruct (get_component_inputs n cfg data (world s)) as [[l|] w1] eqn:Hget; [|done].
  pose proof (get_input_config_for_task_nodup _ _ _ Hcfg) as Hnd.
  pose proof (get_component_inputs_inv _ _ _ _ _ _ Hget) as Hall.
  destruct (get_component_inputs_ok n cfg data (world s) Hnd Hall)
    as (l' & w1' & Hget' & _ & Hsame & Hheap & _).
  rewrite Hget in Hget'. injection Hget' as <- <-.
  rewrite (Hsame l0 Hdata) in *. rewrite Hdata in Hheap.
  set (d' := overlay (_store (pipeline (world s))) (deref l0 (world s)) cfg) in *.
  specialize (Hheap Hne).
  assert (forall p m v, (p, m) ∈ cfg -> resolved (_store (pipeline (world s))) m = Ok v ->
                        d' !! p = Some v) as Hmapped.
  { intros p m v Hin Hv. by apply (overlay_lookup _ cfg _ p m v). }
  assert (forall k, k ∉ cfg.*1 -> d' !! k = deref l0 (world s) !! k) as Hother.
  { intros k Hk. by apply overlay_lookup_other. }
  assert (heap (world s') = heap w1) as ->.
  { unfold gets, lift in Hstep.
    destruct (execute_begin_cases task) as [[E _]|[E _]]; rewrite E in Hstep;
      unfold put_node, modify, pure in Hstep; by injection Hstep as <-. }
  exists d'. split_and!; [done| |done].
  intros p m Hpm. rewrite Forall_forall in Hall.
  destruct (Hall (p, m) Hpm) as [v Hv]. exists v. split; [done|]. by apply (Hmapped p m v).
Qed.

(** ** Input resolution, as the claims state it *)

(** C5. For a configuration [cfg] (a dictionary: no parameter twice),
    [get_component_inputs] returns normally exactly when every reference
    resolves against the result store.  The dictionary it returns then holds,
    for every mapped parameter, the value its reference denotes, whatever the
    user supplied under that name; every other key is as the user supplied
    it; one warning is recorded per user key that was replaced.  A reference
    [c.f] denotes field [f] of the result stored for [c], a bare reference [c]
    the whole stored result.  In a run, a task that starts is called with
    keyword arguments that hold these values. *)
Theorem get_component_inputs_maps_results (cname : string) (cfg : input_config_t)
    (data : input_data_t) (w : World) :
  let st := _store (pipeline w) in
  let user := match data !! cname with Some l0 => deref l0 w | None => ∅ end in
  NoDup cfg.*1 ->
  ((exists l w', get_component_inputs cname cfg data w = (Ok l, w')) <->
   Forall (fun item => exists v, resolved st item.2 = Ok v) cfg) /\
  (forall l w',
     get_component_inputs cname cfg data w = (Ok l, w') ->
     (forall p m, (p, m) ∈ cfg ->
        exists v, resolved st m = Ok v /\ deref l w' !! p = Some v) /\
     (forall k, k ∉ cfg.*1 -> deref l w' !! k = user !! k) /\
     warnings w' = warnings w ++
       ((fun item => mkWarning cname item.1 item.2) <$>
          filter (fun item => is_Some (user !! item.1)) cfg)) /\
  (forall c f d, occurrences "." c = 0 -> occurrences "." f = 0 ->
     st !! c = Some (VDict d) ->
     resolved st (c ++ String "." f)%string = Ok (default VNone (d !! f))) /\
  (forall c v, occurrences "." c = 0 -> st !! c = Some v -> resolved st c = Ok v) /\
  (forall s s' n task cfg',
     step data (Start n) s = Continue s' ->
     find_node n (_nodes (pipeline (world s))) = Some task ->
     get_input_config_for_task task (pipeline (world s)) = Ok cfg' ->
     n ∉ (invoked s).*1 -> n ∈ (invoked s').*1 ->
     exists kwargs,
       invoked s' = invoked s ++ [(n, kwargs)] /\
       forall p m, (p, m) ∈ cfg' ->
         exists v, resolved (_store (pipeline (world s))) m = Ok v /\
                   kwargs !! p = Some v).
Proof.
  intros st user Hnd. split_and!.
  - split.
    + intros (l & w' & Hrun). by apply (get_component_inputs_inv cname cfg data w l w').
    + intros Hall.
      destruct (get_component_inputs_ok cname cfg data w Hnd Hall) as (l & w' & Hrun & _).
      by exists l, w'.
  - intros l w' Hrun.
    pose proof (get_component_inputs_inv _ _ _ _ _ _ Hrun) as Hall.
    destruct (get_component_inputs_ok cname cfg data w Hnd Hall)
      as (l1 & w1 & Hrun1 & _ & _ & _ & Hderef & _ & Hwarn).
    rewrite Hrun in Hrun1. injection Hrun1 as <- <-.
    fold st user in Hderef, Hwarn. split_and!.
    + intros p m Hin. rewrite Forall_forall in Hall.
      destruct (Hall (p, m) Hin) as [v Hv]. exists v. split; [done|].
      rewrite Hderef. by apply (overlay_lookup st cfg user p m v).
    + intros k Hk. rewrite Hderef. by apply overlay_lookup_other.
    + exact Hwarn.
  - intros c f d. apply resolved_field.
  - intros c v. apply resolved_bare.
  - intros s s' n task cfg'. apply started_task_receives_mapped_values.
Qed.

(** C9. When the run input holds a dictionary for the component and the
    configuration is not empty, the dictionary [get_component_inputs] returns
    is that very object (the same address), and the object, as the heap holds
    it afterwards, has the mapped values written over the caller's entries.
    In a run, starting a task does this to the dictionary the caller supplied
    for it. *)
Theorem get_component_inputs_writes_caller_dict (cname : string) (cfg : input_config_t)
    (data : input_data_t) (w : World) (l0 : loc) :
  let st := _store (pipeline w) in
  data !! cname = Some l0 ->
  cfg <> [] ->
  NoDup cfg.*1 ->
  (forall l w',
     get_component_inputs cname cfg data w = (Ok l, w') ->
     l = l0 /\
     exists d',
       heap w' !! l0 = Some d' /\
       (forall p m, (p, m) ∈ cfg -> exists v, resolved st m = Ok v /\ d' !! p = Some v) /\
       (forall k, k ∉ cfg.*1 -> d' !! k = deref l0 w !! k)) /\
  (Forall (fun item => exists v, resolved st item.2 = Ok v) cfg ->
   exists w', get_component_inputs cname cfg data w = (Ok l0, w')) /\
  (forall s s' n l1 task cfg',
     step data (Start n) s = Continue s' ->
     data !! n = Some l1 ->
     find_node n (_nodes (pipeline (world s))) = Some task ->
     get_input_config_for_task task (pipeline (world s)) = Ok cfg' ->
     cfg' <> [] ->
     exists d',
       heap (world s') !! l1 = Some d' /\
       (forall p m, (p, m) ∈ cfg' ->
          exists v, resolved (_store (pipeline (world s))) m = Ok v /\ d' !! p = Some v) /\
       (forall k, k ∉ cfg'.*1 -> d' !! k = deref l1 (world s) !! k)).
Proof.
  intros st Hdata Hne Hnd. split_and!.
  - intros l w' Hrun.
    pose proof (get_component_inputs_inv _ _ _ _ _ _ Hrun) as Hall.
    destruct (get_component_inputs_ok cname cfg data w Hnd Hall)
      as (l1 & w1 & Hrun1 & _ & Hsame & Hheap & _).
    rewrite Hrun in Hrun1. injection Hrun1 as <- <-.
    rewrite (Hsame l0 Hdata) in *. rewrite Hdata in Hheap. fold st in Hheap.
    split; [done|]. exists (overlay st (deref l0 w) cfg). split_and!; [by apply Hheap|..].
    + intros p m Hin. rewrite Forall_forall in Hall.
      destruct (Hall (p, m) Hin) as [v Hv]. exists v. split; [done|].
      by apply (overlay_lookup st cfg _ p m v).
    + intros k Hk. by apply overlay_lookup_other.
  - intros Hall.
    destruct (get_component_inputs_ok cname cfg data w Hnd Hall)
      as (l1 & w1 & Hrun1 & _ & Hsame & _).
    rewrite (Hsame l0 Hdata) in Hrun1. by exists w1.
  - intros s s' n l1 task cfg'. apply started_task_writes_caller_dict.
Qed.

(** ** The assembly API keeps pipelines well formed *)

Lemma wf_empty_pipeline : wf_pipeline empty_pipeline.
Proof. split; [constructor|constructor]. Qed.

Lemma wf_add_component c n p p' :
  wf_pipeline p -> add_component c n p = Ok p' -> wf_pipeline p'.
Proof.
  intros [Hnd Hed]. unfold add_component, add_node. cbn [name new_task].
  case_decide as Hin; [done|]. intros [= <-]. split.
  - unfold node_names. cbn [_nodes with_nodes]. rewrite fmap_app.
    apply NoDup_app. split_and!; [done| |apply NoDup_singleton].
    intros x Hx ->%list_elem_of_singleton. done.
  - cbn [_edges with_nodes]. eapply Forall_impl; [exact Hed|].
    intros e [Hs He]. unfold node_names. cbn [_nodes with_nodes].
    rewrite fmap_app, !elem_of_app. auto.
Qed.

Lemma wf_set_component n c p p' :
  wf_pipeline p -> set_component n c p = Ok p' -> wf_pipeline p'.
Proof.
  intros Hwf. unfold set_component, set_node.
  case_decide as Hin; [|done]. intros [= <-].
  apply (wf_pipeline_ext p); [|done..].
  unfold node_names. cbn [_nodes with_nodes]. apply replace_node_names.
Qed.

Lemma wf_connect s e cfg p r p' :
  wf_pipeline p -> connect s e cfg p = (r, p') -> wf_pipeline p'.
Proof.
  intros Hwf. unfold connect, add_edge. cbn [start end_].
  repeat case_decide; try (intros [= _ <-]; done).
  destruct (is_cyclic _); intros [= _ <-]; by apply wf_upsert_edge.
Qed.

(** ** The examples of the specification *)

Example two_cycle_is_cyclic : is_cyclic two_cycle = true.
Proof. vm_compute. reflexivity. Qed.

Example three_chain_is_not_cyclic : is_cyclic three_chain = false.
Proof. vm_compute. reflexivity. Qed.

(** [P2] maps [x] from [P1.y] and [P1] produces [y = 5]: [P2] is called with
    [x = 5]. *)
Example chain_passes_field :
  calls_of (run_events ∅ [Start "P1"; Complete "P1"; Start "P2"; Complete "P2"]
              (orchestrator_start (mkWorld (reinitialize (chain "P1.y")) ∅ [])))
  = Some [("P1", ∅); ("P2", {["x" := VInt 5]})].
Proof. vm_compute. reflexivity. Qed.

(** The run returns the result of the leaf [P2] only. *)
Example chain_returns_leaf :
  fst <$> run ∅ [Start "P1"; Complete "P1"; Start "P2"; Complete "P2"]
            (mkWorld (chain "P1.y") ∅ [])
  = Some (Ok {["P2" := VDict {["z" := VInt 5]}]}).
Proof. vm_compute. reflexivity. Qed.

(** The caller's dictionary for [P2] held [x = 1]; after the run it holds
    [x = 5]. *)
Example chain_overwrites_caller_dict :
  (fun o => heap o.2 !! 0) <$>
    run caller_data [Start "P1"; Complete "P1"; Start "P2"; Complete "P2"]
      (mkWorld (chain "P1.y") caller_heap [])
  = Some (Some {["x" := VInt 5]}).
Proof. vm_compute. reflexivity. Qed.

(** Whichever root completes last, [C] is called once. *)
Example diamond_A_first :
  calls_of (run_events ∅ [Start "A"; Start "B"; Complete "A"; Complete "B";
                          Start "C"; Complete "C"]
              (orchestrator_start (mkWorld (reinitialize diamond) ∅ [])))
  = Some [("A", ∅); ("B", ∅); ("C", {["x" := VInt 5; "z" := VInt 5]})].
Proof. vm_compute. reflexivity. Qed.

Example diamond_A_first_at_rest :
  at_rest (run_events ∅ [Start "A"; Start "B"; Complete "A"; Complete "B";
                         Start "C"; Complete "C"]
             (orchestrator_start (mkWorld (reinitialize diamond) ∅ []))) = true.
Proof. vm_compute. reflexivity. Qed.

Example diamond_B_first :
  calls_of (run_events ∅ [Start "B"; Complete "B"; Start "A"; Complete "A";
                          Start "C"; Complete "C"]
              (orchestrator_start (mkWorld (reinitialize diamond) ∅ [])))
  = Some [("B", ∅); ("A", ∅); ("C", {["x" := VInt 5; "z" := VInt 5]})].
Proof. vm_compute. reflexivity. Qed.

Example diamond_B_first_at_rest :
  at_rest (run_events ∅ [Start "B"; Complete "B"; Start "A"; Complete "A";
                         Start "C"; Complete "C"]
             (orchestrator_start (mkWorld (reinitialize diamond) ∅ []))) = true.
Proof. vm_compute. reflexivity. Qed.

(** A component that fails: the failure leaves [execute], the node stays
    [RUNNING]. *)
Example execute_failing_component :
  let r := execute (new_task "F" component_failing) ∅ in
  returned r = Raise (ComponentFailure "boom") /\ status (node_after r) = RUNNING.
Proof. vm_compute. done. Qed.

(** A reference to a component that is not in the pipeline: validation stops
    on the lookup error of [get_node_by_name]. *)
Example validate_unknown_component :
  validate_inputs_config ∅ ∅ (chain "ghost.y") = Raise (KeyError "ghost").
Proof. vm_compute. reflexivity. Qed.

(** ** The theorems at work on the examples *)

Lemma chain_references_known : references_known (chain "P1.nope").
Proof.
  intros edge item c f Hedge Hitem Hparse. simpl in Hedge.
  apply list_elem_of_singleton in Hedge as ->.
  apply list_elem_of_singleton in Hitem as ->.
  injection Hparse as <- _. unfold node_names. simpl. apply list_elem_of_here.
Qed.

Lemma set_status_transitions_witness :
  ~ (RUNNING = status (new_task "P1" component_P1) \/
     (RUNNING = RUNNING /\ status (new_task "P1" component_P1) = DONE)) /\
  exists self', set_status RUNNING (new_task "P1" component_P1) = Ok self' /\
    status self' = RUNNING /\ name self' = "P1" /\ component self' = component_P1.
Proof.
  assert (~ (RUNNING = status (new_task "P1" component_P1) \/
             (RUNNING = RUNNING /\ status (new_task "P1" component_P1) = DONE))) as H.
  { simpl. intros [H|[_ H]]; discriminate H. }
  split; [exact H|].
  exact (proj2 (proj2 (set_status_transitions (new_task "P1" component_P1) RUNNING)) H).
Defined.

Lemma execute_guarded_witness :
  status (new_task "P1" component_P1) <> RUNNING /\
  status (new_task "P1" component_P1) <> DONE /\
  invocations (execute (new_task "P1" component_P1) ∅) = [∅] /\
  returned (execute (new_task "P1" component_P1) ∅)
    = Ok (Some (mkRunResult DONE (Some {["y" := VInt 5]}))).
Proof.
  assert (status (new_task "P1" component_P1) <> RUNNING) as H1 by (simpl; discriminate).
  assert (status (new_task "P1" component_P1) <> DONE) as H2 by (simpl; discriminate).
  destruct (proj1 (proj2 (execute_guarded (new_task "P1" component_P1) ∅)) H1 H2)
    as [Hcalls Hret].
  split; [exact H1|]. split; [exact H2|]. split; [exact Hcalls|].
  exact (proj1 (Hret (Some {["y" := VInt 5]}) eq_refl)).
Defined.

Lemma next_yields_ready_children_witness :
  wf_pipeline chain_P1_done /\
  exists ys, next (with_status DONE (new_task "P1" component_P1)) chain_P1_done = Ok ys /\
             name <$> ys = ["P2"].
Proof.
  assert (wf_pipeline chain_P1_done) as Hwf.
  { apply (bool_decide_unpack _). vm_compute. exact I. }
  split; [exact Hwf|].
  destruct (next_yields_ready_children chain_P1_done
              (with_status DONE (new_task "P1" component_P1)) Hwf)
    as (ys & Hnext & _ & Hnames & _).
  exists ys. split; [exact Hnext|]. rewrite Hnames. vm_compute. reflexivity.
Defined.

Lemma connect_raises_on_missing_or_cycle_witness :
  wf_pipeline (chain "P1.y") /\
  connect "P2" "P1" None (chain "P1.y")
  = (Raise PipelineDefinitionError,
     with_edges (upsert_edge (mkEdge "P2" "P1" (Some None)) (_edges (chain "P1.y")))
       (chain "P1.y")).
Proof.
  assert (wf_pipeline (chain "P1.y")) as Hwf.
  { apply (bool_decide_unpack _). vm_compute. exact I. }
  split; [exact Hwf|].
  destruct (connect_raises_on_missing_or_cycle (chain "P1.y") "P2" "P1" None Hwf)
    as [_ Hboth].
  assert ("P2" ∈ node_names (chain "P1.y")) as Hs.
  { apply (bool_decide_unpack _). vm_compute. exact I. }
  assert ("P1" ∈ node_names (chain "P1.y")) as He.
  { apply (bool_decide_unpack _). vm_compute. exact I. }
  destruct (Hboth Hs He) as [_ Hcyc].
  apply Hcyc. apply is_cyclic_correct.
  - apply wf_upsert_edge; [exact Hwf|exact Hs|exact He].
  - vm_compute. reflexivity.
Defined.

Lemma get_component_inputs_maps_results_witness :
  NoDup [("x", "P1.y")].*1 /\
  exists l w',
    get_component_inputs "P2" [("x", "P1.y")] caller_data
      (mkWorld chain_P1_done caller_heap []) = (Ok l, w') /\
    (exists v, resolved (_store chain_P1_done) "P1.y" = Ok v /\
               deref l w' !! "x" = Some v) /\
    warnings w' = [mkWarning "P2" "x" "P1.y"].
Proof.
  assert (NoDup [("x", "P1.y")].*1) as Hnd by apply NoDup_singleton.
  split; [exact Hnd|].
  destruct (get_component_inputs_maps_results "P2" [("x", "P1.y")] caller_data
              (mkWorld chain_P1_done caller_heap []) Hnd)
    as (Hiff & Hmap & _).
  destruct (proj2 Hiff) as (l & w' & Hrun).
  { constructor; [|constructor]. exists (VInt 5). vm_compute. reflexivity. }
  exists l, w'. split; [exact Hrun|].
  destruct (Hmap l w' Hrun) as (Hvals & _ & Hwarn).
  split.
  - apply (Hvals "x" "P1.y"). apply list_elem_of_here.
  - rewrite Hwarn. vm_compute. reflexivity.
Defined.

Lemma validate_inputs_config_definition_errors_witness :
  references_known (chain "P1.nope") /\
  exists task, task ∈ _nodes (chain "P1.nope") /\
    (missing_mandatory_input ∅ ∅ (chain "P1.nope") task \/
     exists f, f <> "" /\ maps_undeclared_field (chain "P1.nope") task f).
Proof.
  split; [exact chain_references_known|].
  apply (validate_inputs_config_definition_errors ∅ ∅ (chain "P1.nope")
           chain_references_known).
  vm_compute. reflexivity.
Defined.


Lemma get_component_inputs_writes_caller_dict_witness :
  caller_data !! "P2" = Some 0 /\ [("x", "P1.y")] <> [] /\ NoDup [("x", "P1.y")].*1 /\
  exists w' d',
    get_component_inputs "P2" [("x", "P1.y")] caller_data
      (mkWorld chain_P1_done caller_heap []) = (Ok 0, w') /\
    heap w' !! 0 = Some d' /\
    exists v, resolved (_store chain_P1_done) "P1.y" = Ok v /\ d' !! "x" = Some v.
Proof.
  assert (caller_data !! "P2" = Some 0) as Hdata by (vm_compute; reflexivity).
  assert ([("x", "P1.y")] <> ([] : input_config_t)) as Hne by discriminate.
  assert (NoDup [("x", "P1.y")].*1) as Hnd by apply NoDup_singleton.
  split; [exact Hdata|]. split; [exact Hne|]. split; [exact Hnd|].
  destruct (get_component_inputs_writes_caller_dict "P2" [("x", "P1.y")] caller_data
              (mkWorld chain_P1_done caller_heap []) 0 Hdata Hne Hnd)
    as (Hret & Hex & _).
  destruct Hex as [w' Hrun].
  { constructor; [|constructor]. exists (VInt 5). vm_compute. reflexivity. }
  destruct (Hret 0 w' Hrun) as (_ & d' & Hheap & Hvals & _).
  exists w', d'. split; [exact Hrun|]. split; [exact Hheap|].
  apply (Hvals "x" "P1.y"). apply list_elem_of_here.
Defined.

Lemma many_dots_is_a_bare_reference_witness :
  2 <= occurrences "." "a.b.c" /\
  parse_mapping "a.b.c" = ("a.b.c", None) /\
  forall self p, check_mapped_output self (p, "a.b.c") = Ok tt.
Proof.
  assert (2 <= occurrences "." "a.b.c") as H by (vm_compute; lia).
  split; [exact H|].
  destruct (many_dots_is_a_bare_reference "a.b.c" H) as (Hparse & _ & _ & Hcheck & _).
  split; [exact Hparse|exact Hcheck].
Defined.

(** * Further properties of the pipeline *)

(** ** A node runs once until it is reinitialized *)

Lemma execute_leaves_running_or_done self kwargs :
  status (node_after (execute self kwargs)) = RUNNING \/
  status (node_after (execute self kwargs)) = DONE.
Proof.
  unfold execute.
  destruct (execute_begin_cases self) as [[-> Hst]|(-> & Hr & Hd)]; [done|].
  destruct (component_run _ kwargs) as [msg|out]; [by left|].
  rewrite execute_finish_running by done. by right.
Qed.

(** X1. Whatever a call of [execute] did, a second call on the node it leaves
    returns [None], calls no component and changes nothing; once the node is
    reinitialized, [execute] calls the component again, exactly once. *)
Theorem execute_once_until_reinitialized (self : TaskPipelineNode)
    (kwargs kwargs' : pydict) :
  let after := node_after (execute self kwargs) in
  execute after kwargs' = mkExecuted (Ok None) after [] /\
  invocations (execute (task_reinitialize after) kwargs') = [kwargs'] /\
  name after = name self /\ component after = component self.
Proof.
  intros after. split; [|split].
  - unfold execute at 1.
    by rewrite (execute_begin_rejected after (execute_leaves_running_or_done self kwargs)).
  - unfold execute at 1.
    rewrite (execute_begin_accepted (task_reinitialize after)) by done.
    destruct (component_run _ kwargs') as [msg|out]; [done|].
    by rewrite execute_finish_running.
  - subst after. unfold execute.
    destruct (execute_begin_cases self) as [[-> Hst]|(-> & Hr & Hd)]; [done|].
    destruct (component_run _ kwargs) as [msg|out]; [done|].
    by rewrite execute_finish_running.
Qed.

(** ** Dictionaries in insertion order *)

Lemma dict_get_set {V} k k' (v : V) d :
  dict_get k (dict_set k' v d) = if decide (k' = k) then Some v else dict_get k d.
Proof.
  induction d as [|[k0 v0] d IH]; simpl.
  - done.
  - destruct (decide (k0 = k')) as [->|Hne]; simpl.
    + by destruct (decide (k' = k)).
    + destruct (decide (k0 = k)) as [->|Hne'].
      * by rewrite decide_False by done.
      * by rewrite IH.
Qed.

Lemma dict_get_update {V} k (d new : list (string * V)) :
  dict_get k (dict_update d new) =
  match last_assigned k new with
  | Some v => Some v
  | None => dict_get k d
  end.
Proof.
  unfold dict_update. revert d.
  induction new as [|[k' v'] new IH]; intros d; simpl; [done|].
  rewrite IH. destruct (last_assigned k new); [done|].
  rewrite dict_get_set. by case_decide.
Qed.

Lemma dict_update_app {V} (d a b : list (string * V)) :
  dict_update d (a ++ b) = dict_update (dict_update d a) b.
Proof. unfold dict_update. by rewrite foldl_app. Qed.

Lemma last_assigned_app {V} k (a b : list (string * V)) :
  last_assigned k (a ++ b) =
  match last_assigned k b with
  | Some v => Some v
  | None => last_assigned k a
  end.
Proof.
  induction a as [|[k' v'] a IH]; simpl.
  - by destruct (last_assigned k b).
  - rewrite IH. by destruct (last_assigned k b).
Qed.

Lemma last_assigned_in {V} k (v : V) l :
  last_assigned k l = Some v -> (k, v) ∈ l.
Proof.
  induction l as [|[k' v'] l IH]; simpl; [done|].
  destruct (last_assigned k l) as [v0|].
  - intros [= ->]. right. by apply IH.
  - case_decide; [|done]. intros [= ->]. subst. left.
Qed.

Lemma last_assigned_None {V} k (l : list (string * V)) :
  last_assigned k l = None <-> k ∉ l.*1.
Proof.
  induction l as [|[k' v'] l IH]; csimpl.
  - split; [intros _; apply not_elem_of_nil|done].
  - rewrite not_elem_of_cons. destruct (last_assigned k l) as [v0|].
    + split; [done|]. intros [_ Hk]. by apply IH in Hk.
    + case_decide; subst; split; try done.
      * by intros [? _].
      * intros _. split; [done|]. by apply IH.
Qed.

Lemma dict_get_Some_in {V} k (v : V) d :
  dict_get k d = Some v -> (k, v) ∈ d.
Proof.
  induction d as [|[k' v'] d IH]; simpl; [done|].
  case_decide; subst.
  - intros [= ->]. left.
  - intros Hd. right. by apply IH.
Qed.

Lemma dict_get_in {V} k (v : V) d :
  NoDup d.*1 -> (k, v) ∈ d -> dict_get k d = Some v.
Proof.
  induction d as [|[k' v'] d IH]; csimpl; [by intros _ ?%elem_of_nil|].
  intros [Hk Hnd]%NoDup_cons [Heq|Hin]%elem_of_cons.
  - injection Heq as -> ->. by rewrite decide_True.
  - rewrite decide_False; [by apply IH|].
    intros ->. apply Hk. apply list_elem_of_fmap. by exists (k, v).
Qed.

(** ** [get_input_config_for_task] *)

Lemma input_config_loop_spec p es acc :
  Forall (fun d => start d ∈ node_names p) es ->
  input_config_loop es acc p =
  if decide (Forall (fun d => status_of (start d) p = Some DONE) es)
  then Ok (dict_update acc (es ≫= edge_input_config))
  else Raise PipelineMissingDependencyError.
Proof.
  intros Hes. revert acc.
  induction Hes as [|d ds Hd Hds IH]; intros acc; cbn [input_config_loop].
  - by rewrite decide_True by constructor.
  - destruct (get_node_by_name_in _ _ Hd) as (t & Ht & Hname & _).
    rewrite Ht. cbn [rbind].
    apply get_node_by_name_Ok in Ht.
    assert (status_of (start d) p = Some (status t)) as Hst by by apply status_of_node.
    unfold read_status.
    destruct (decide (status t <> DONE)) as [Hne|Heq].
    + rewrite decide_False; [done|].
      intros [Hd' _]%Forall_cons. rewrite Hst in Hd'. congruence.
    + apply dec_stable in Heq. rewrite IH.
      csimpl. rewrite dict_update_app.
      destruct (decide (Forall _ ds)) as [Hall|Hnall].
      * rewrite decide_True; [done|]. constructor; [|done]. by rewrite Hst, Heq.
      * rewrite decide_False; [done|]. by intros [_ ?]%Forall_cons.
Qed.

Lemma get_input_config_for_task_spec p task :
  wf_pipeline p ->
  get_input_config_for_task task p =
  if decide (dependencies_done p (name task))
  then Ok (dict_update [] (incoming_config (name task) p))
  else Raise PipelineMissingDependencyError.
Proof.
  intros Hwf. unfold get_input_config_for_task, dependencies_done, incoming_config.
  apply input_config_loop_spec.
  apply Forall_forall. intros d [Hd _]%previous_edges_in.
  by apply (wf_edge_endpoints p d Hwf).
Qed.

(** X2. On a well-formed graph [get_input_config_for_task] raises only
    [PipelineMissingDependencyError], and does so exactly when some
    predecessor of the task is not [DONE].  Otherwise it returns the merge of
    the edges' configurations in edge order: no parameter twice, and each
    parameter bound to the reference of the last incoming edge that maps
    it. *)
Theorem get_input_config_for_task_merges_edges (p : Pipeline) (task : TaskPipelineNode) :
  wf_pipeline p ->
  (forall e, get_input_config_for_task task p = Raise e ->
     e = PipelineMissingDependencyError /\ ~ dependencies_done p (name task)) /\
  (~ dependencies_done p (name task) ->
     get_input_config_for_task task p = Raise PipelineMissingDependencyError) /\
  (dependencies_done p (name task) ->
     exists cfg, get_input_config_for_task task p = Ok cfg) /\
  (forall cfg, get_input_config_for_task task p = Ok cfg ->
     NoDup cfg.*1 /\
     (forall k, dict_get k cfg = last_assigned k (incoming_config (name task) p)) /\
     (forall k m, (k, m) ∈ cfg <->
        last_assigned k (incoming_config (name task) p) = Some m)).
Proof.
  intros Hwf. rewrite (get_input_config_for_task_spec p task Hwf).
  destruct (decide (dependencies_done p (name task))) as [Hdone|Hnot].
  - split; [done|]. split; [done|]. split; [by eexists|].
    intros cfg [= <-].
    assert (NoDup (dict_update [] (incoming_config (name task) p)).*1) as Hnd.
    { apply dict_update_nodup. constructor. }
    assert (forall k, dict_get k (dict_update [] (incoming_config (name task) p))
                      = last_assigned k (incoming_config (name task) p)) as Hget.
    { intros k. rewrite dict_get_update. by destruct (last_assigned _ _). }
    split; [done|]. split; [done|].
    intros k m. rewrite <- Hget. split.
    + by apply dict_get_in.
    + apply dict_get_Some_in.
  - split; [by intros e [= <-]|]. split; [done|]. split; [done|]. done.
Qed.

(** X3. The two dependency checks agree: on a well-formed graph
    [check_dependencies_complete] passes for a task exactly when
    [get_input_config_for_task] returns for it, so a task yielded by [next]
    has an input configuration as long as no status changes in between. *)
Theorem next_yields_tasks_with_input_config (p : Pipeline) (task : TaskPipelineNode) :
  wf_pipeline p ->
  (check_dependencies_complete task p = Ok tt <->
     exists cfg, get_input_config_for_task task p = Ok cfg) /\
  (forall parent ys, next parent p = Ok ys -> task ∈ ys ->
     exists cfg, get_input_config_for_task task p = Ok cfg).
Proof.
  intros Hwf.
  rewrite (check_dependencies_complete_spec p task Hwf).
  rewrite (get_input_config_for_task_spec p task Hwf).
  split.
  - destruct (decide (dependencies_done p (name task))).
    + split; [by eexists|done].
    + split; [done|]. by intros [cfg ?].
  - intros parent ys Hnext Hin.
    pose proof (next_names p parent ys Hwf Hnext) as Hnames.
    assert (name task ∈ name <$> ys) as Hn.
    { apply list_elem_of_fmap. by exists task. }
    rewrite Hnames in Hn. apply list_elem_of_filter in Hn as [(_ & _ & Hdone) _].
    rewrite decide_True by done. by eexists.
Qed.

(** ** [reinitialize] *)

Lemma roots_reinitialize p : name <$> roots (reinitialize p) = name <$> roots p.
Proof.
  unfold roots. cbn [reinitialize _nodes].
  induction (_nodes p) as [|t ns IH]; [done|].
  rewrite fmap_cons, !filter_cons.
  change (previous_edges (name (task_reinitialize t)) (reinitialize p))
    with (previous_edges (name t) p).
  destruct (decide (previous_edges (name t) p = [])); [|done].
  rewrite !fmap_cons. by f_equal.
Qed.

Lemma is_cyclic_reinitialize p : is_cyclic (reinitialize p) = is_cyclic p.
Proof.
  unfold is_cyclic. rewrite node_names_reinitialize.
  cbn [reinitialize _nodes]. by rewrite length_fmap.
Qed.

(** X4. [reinitialize] keeps the graph (names in order, components, edges,
    roots, cyclicity) and puts the pipeline back to the start of a run
    whatever state it was in: every task reads [SCHEDULED] and lets [execute]
    call its component, no result can be looked up, the final results are
    empty; doing it twice changes nothing more. *)
Theorem reinitialize_resets_every_task (p : Pipeline) :
  let p' := reinitialize p in
  node_names p' = node_names p /\ _edges p' = _edges p /\
  (forall n, component_of n p' = component_of n p) /\
  name <$> roots p' = name <$> roots p /\
  is_cyclic p' = is_cyclic p /\
  (forall n, n ∈ node_names p -> status_of n p' = Some SCHEDULED) /\
  (forall t kwargs, t ∈ _nodes p' -> invocations (execute t kwargs) = [kwargs]) /\
  (forall n, get_results_for_component n p' = Raise (KeyError n)) /\
  _final_results p' = ∅ /\
  reinitialize p' = p'.
Proof.
  intros p'. subst p'. split_and!.
  - apply node_names_reinitialize.
  - done.
  - intros n. apply component_of_reinitialize.
  - apply roots_reinitialize.
  - apply is_cyclic_reinitialize.
  - intros n. apply status_of_reinitialize_node.
  - intros t kwargs Ht. cbn [reinitialize _nodes] in Ht.
    apply list_elem_of_fmap in Ht as (t0 & -> & _).
    unfold execute. rewrite (execute_begin_accepted (task_reinitialize t0)) by done.
    destruct (component_run _ kwargs) as [msg|out]; [done|].
    by rewrite execute_finish_running.
  - intros n. unfold get_results_for_component, store_get. cbn [reinitialize _store].
    unfold store_empty. by rewrite lookup_empty.
  - done.
  - unfold reinitialize. cbn [_nodes _edges]. f_equal.
    rewrite <- list_fmap_compose. by apply list_fmap_ext.
Qed.

(** ** [add_component] and [set_component] *)

Lemma find_node_app n ns t :
  find_node n (ns ++ [t]) =
  match find_node n ns with
  | Some t' => Some t'
  | None => if decide (name t = n) then Some t else None
  end.
Proof.
  induction ns as [|t0 ns IH]; cbn [app find_node]; [done|].
  by destruct (decide (name t0 = n)).
Qed.

Lemma replace_node_app t t0 ns :
  name t0 = name t -> name t ∉ name <$> ns ->
  replace_node t (ns ++ [t0]) = ns ++ [t].
Proof.
  intros Heq. induction ns as [|t1 ns IH]; csimpl.
  - intros _. by rewrite decide_True.
  - intros [Hne Hnotin]%not_elem_of_cons.
    rewrite decide_False by done. by rewrite IH.
Qed.

(** X5. [add_component] raises [ValueError] exactly on a name that is already
    in the pipeline.  On a new name it appends a task in status [UNKNOWN]
    that [get_node_by_name] then returns, leaves the other tasks, the edges
    and the stores alone, makes a second [add_component] of the name fail, and
    [set_component] on the result amounts to having added the other
    component in the first place. *)
Theorem add_component_then_lookup (p : Pipeline) (n : string) (c : Component) :
  (n ∈ node_names p -> add_component c n p = Raise ValueError) /\
  (n ∉ node_names p ->
     exists p', add_component c n p = Ok p' /\
       node_names p' = node_names p ++ [n] /\
       get_node_by_name n p' = Ok (new_task n c) /\
       (forall m, m <> n -> find_node m (_nodes p') = find_node m (_nodes p)) /\
       _edges p' = _edges p /\ _store p' = _store p /\
       _final_results p' = _final_results p /\
       (forall c', add_component c' n p' = Raise ValueError) /\
       (forall c', set_component n c' p' = add_component c' n p)).
Proof.
  unfold add_component, set_component, add_node, set_node. cbn [new_task name].
  split; intros Hn.
  - by rewrite decide_True.
  - rewrite decide_False by done. eexists. split; [done|].
    assert (find_node n (_nodes p) = None) as Hnone by by apply find_node_None.
    split_and!.
    + unfold node_names. cbn [with_nodes _nodes]. by rewrite fmap_app.
    + unfold get_node_by_name. cbn [with_nodes _nodes].
      rewrite find_node_app, Hnone. cbn [new_task name]. by rewrite decide_True.
    + intros m Hm. cbn [with_nodes _nodes]. rewrite find_node_app.
      destruct (find_node m (_nodes p)); [done|].
      cbn [new_task name]. by rewrite decide_False.
    + done.
    + done.
    + done.
    + intros c'. rewrite decide_True; [done|].
      unfold node_names. cbn [with_nodes _nodes]. rewrite fmap_app.
      apply elem_of_app. right. by apply list_elem_of_singleton.
    + intros c'. rewrite decide_True.
      * rewrite decide_False by done. f_equal. unfold with_nodes. cbn [_nodes _edges _store _final_results].
        f_equal. by apply replace_node_app.
      * unfold node_names. cbn [with_nodes _nodes]. rewrite fmap_app.
        apply elem_of_app. right. by apply list_elem_of_singleton.
Qed.

(** X6. [set_component] raises [ValueError] exactly on a name that is not in
    the pipeline.  On a known name it puts a new task in the place of the old
    one: the new component, status [UNKNOWN] whatever the old status was, the
    order of the names, the other tasks, every edge and both stores
    unchanged, so a result saved by the old component can still be looked
    up. *)
Theorem set_component_replaces_in_place (p : Pipeline) (n : string) (c : Component) :
  (n ∉ node_names p -> set_component n c p = Raise ValueError) /\
  (n ∈ node_names p ->
     exists p', set_component n c p = Ok p' /\
       node_names p' = node_names p /\
       get_node_by_name n p' = Ok (new_task n c) /\
       status_of n p' = Some UNKNOWN /\
       (forall m, m <> n -> find_node m (_nodes p') = find_node m (_nodes p)) /\
       _edges p' = _edges p /\
       (forall m, get_results_for_component m p' = get_results_for_component m p) /\
       _final_results p' = _final_results p).
Proof.
  unfold set_component, set_node. cbn [new_task name].
  split; intros Hn.
  - by rewrite decide_False.
  - rewrite decide_True by done. eexists. split; [done|].
    destruct (find_node_is_Some n (_nodes p) Hn) as [t0 Ht0].
    assert (find_node n (replace_node (new_task n c) (_nodes p)) = Some (new_task n c))
      as Hfind by exact (find_node_replace_eq (new_task n c) t0 (_nodes p) Ht0).
    split_and!.
    + unfold node_names. cbn [with_nodes _nodes]. apply replace_node_names.
    + unfold get_node_by_name. cbn [with_nodes _nodes]. by rewrite Hfind.
    + unfold status_of. cbn [with_nodes _nodes]. by rewrite Hfind.
    + intros m Hm. cbn [with_nodes _nodes].
      by apply (find_node_replace_ne (new_task n c)).
    + done.
    + done.
    + done.
Qed.

(** ** One edge per ordered pair *)

Lemma upsert_edge_keys e es :
  (fun d => (start d, end_ d)) <$> upsert_edge e es =
  if decide ((start e, end_ e) ∈ (fun d => (start d, end_ d)) <$> es)
  then (fun d => (start d, end_ d)) <$> es
  else ((fun d => (start d, end_ d)) <$> es) ++ [(start e, end_ e)].
Proof.
  induction es as [|e' es IH]; cbn [upsert_edge].
  - rewrite decide_False; [done|]. apply not_elem_of_nil.
  - destruct (decide (start e' = start e /\ end_ e' = end_ e)) as [[Hs He]|Hne].
    + rewrite decide_True.
      * rewrite !fmap_cons. by rewrite Hs, He.
      * rewrite fmap_cons, Hs, He. left.
    + rewrite !fmap_cons, IH.
      destruct (decide (_ ∈ (fun d => (start d, end_ d)) <$> es)) as [Hin|Hnotin].
      * rewrite decide_True; [done|]. by right.
      * rewrite decide_False; [done|].
        intros [Heq|Hin]%elem_of_cons; [|done].
        injection Heq as Hs He. by apply Hne.
Qed.

Lemma upsert_edge_other e es d :
  (start d, end_ d) <> (start e, end_ e) -> d ∈ es -> d ∈ upsert_edge e es.
Proof.
  intros Hne. induction es as [|e' es IH]; cbn [upsert_edge].
  - by intros ?%elem_of_nil.
  - intros [->|Hin]%elem_of_cons.
    + rewrite decide_False; [left|]. intros [Hs He]. apply Hne. by rewrite Hs, He.
    + destruct (decide (start e' = start e /\ end_ e' = end_ e)).
      * by right.
      * right. by apply IH.
Qed.

Lemma upsert_edge_keeps_key e es d :
  d ∈ es -> exists d', d' ∈ upsert_edge e es /\ start d' = start d /\ end_ d' = end_ d.
Proof.
  intros Hd.
  destruct (decide ((start d, end_ d) = (start e, end_ e))) as [Heq|Hne].
  - exists e. split; [apply upsert_edge_here|]. by injection Heq as -> ->.
  - exists d. split; [by apply upsert_edge_other|done].
Qed.

Lemma NoDup_fmap_eq {A B} (f : A -> B) (l : list A) x y :
  NoDup (f <$> l) -> x ∈ l -> y ∈ l -> f x = f y -> x = y.
Proof.
  induction l as [|a l IH]; csimpl; [by intros _ ?%elem_of_nil|].
  intros [Ha Hnd]%NoDup_cons [->|Hx]%elem_of_cons [->|Hy]%elem_of_cons Heq.
  - done.
  - exfalso. apply Ha. rewrite Heq. apply list_elem_of_fmap. by exists y.
  - exfalso. apply Ha. rewrite <- Heq. apply list_elem_of_fmap. by exists x.
  - by apply IH.
Qed.

Lemma upsert_edge_nodup e es :
  NoDup ((fun d => (start d, end_ d)) <$> es) ->
  NoDup ((fun d => (start d, end_ d)) <$> upsert_edge e es).
Proof.
  intros Hnd. rewrite upsert_edge_keys. case_decide; [done|].
  apply NoDup_app. split; [done|]. split; [|apply NoDup_singleton].
  intros k Hk ->%list_elem_of_singleton. done.
Qed.

(** X7. [connect] never makes a second edge between the same two components:
    if every ordered pair has at most one edge before, so it is after.  With
    both names in the pipeline, the edge from [s] to [e] afterwards is the one
    just given, so connecting a pair again replaces its input configuration
    rather than merging with it; edges between other pairs are untouched and
    the number of edges grows by one only for a new pair. *)
Theorem connect_keeps_one_edge_per_pair (p : Pipeline) (s e : string)
    (cfg : option input_config_t) (r : result unit) (p' : Pipeline) :
  NoDup (edge_keys p) ->
  connect s e cfg p = (r, p') ->
  NoDup (edge_keys p') /\
  (s ∈ node_names p -> e ∈ node_names p ->
     mkEdge s e (Some cfg) ∈ _edges p' /\
     (forall d, d ∈ _edges p' -> start d = s -> end_ d = e -> data d = Some cfg) /\
     (forall d, (start d, end_ d) <> (s, e) -> d ∈ _edges p' <-> d ∈ _edges p) /\
     length (_edges p') =
       if decide ((s, e) ∈ edge_keys p) then length (_edges p)
       else S (length (_edges p))).
Proof.
  intros Hnd Hconnect. unfold connect, add_edge in Hconnect. cbn [start end_] in Hconnect.
  destruct (decide (s ∈ node_names p)) as [Hs|Hs];
    [destruct (decide (e ∈ node_names p)) as [He|He]|].
  - assert (_edges p' = upsert_edge (mkEdge s e (Some cfg)) (_edges p)) as Hedges.
    { destruct (is_cyclic _); by injection Hconnect as _ <-. }
    clear Hconnect.
    assert (NoDup (edge_keys p')) as Hnd'.
    { unfold edge_keys. rewrite Hedges. by apply upsert_edge_nodup. }
    split; [done|]. intros _ _. split_and!.
    + rewrite Hedges. apply upsert_edge_here.
    + intros d Hd Hds Hde.
      assert (d = mkEdge s e (Some cfg)) as ->; [|done].
      apply (NoDup_fmap_eq (fun d => (start d, end_ d)) (_edges p')); [done|done| |].
      * rewrite Hedges. apply upsert_edge_here.
      * cbn [start end_]. by rewrite Hds, Hde.
    + intros d Hne. rewrite Hedges. split.
      * intros [->|Hin]%upsert_edge_in; [|done]. by cbn [start end_] in Hne.
      * by apply upsert_edge_other.
    + rewrite <- !(length_fmap (fun d => (start d, end_ d))), Hedges, upsert_edge_keys.
      cbn [start end_]. unfold edge_keys.
      destruct (decide ((s, e) ∈ _)); [done|].
      rewrite length_app. simpl. lia.
  - injection Hconnect as _ <-. split; [done|]. by intros _ ?.
  - injection Hconnect as _ <-. split; [done|]. by intros ?.
Qed.

(** ** A cycle, once in the graph, stays *)

Lemma path_mono (succ succ' : string -> list string) x y :
  (forall a b, b ∈ succ a -> b ∈ succ' a) -> path succ x y -> path succ' x y.
Proof.
  intros Hsub. induction 1 as [a b Hab|a b c Hab _ IH].
  - apply path_edge. by apply Hsub.
  - apply (path_step _ a b c); [by apply Hsub|done].
Qed.

Lemma successors_upsert p e a b :
  b ∈ successors p a ->
  b ∈ successors (with_edges (upsert_edge e (_edges p)) p) a.
Proof.
  unfold successors. rewrite !list_elem_of_fmap.
  intros (d & -> & [Hd Hstart]%next_edges_in).
  destruct (upsert_edge_keeps_key e (_edges p) d Hd) as (d' & Hd' & Hs' & He').
  exists d'. split; [done|]. apply next_edges_in. split; [done|]. by rewrite Hs'.
Qed.

(** X8. [connect] does not take back the edge that closed a cycle, and a
    graph that has a cycle keeps it: on a well-formed pipeline for which
    [is_cyclic] holds, every later [connect], whatever its arguments, raises
    [PipelineDefinitionError] and leaves a pipeline for which [is_cyclic]
    still holds. *)
Theorem connect_never_recovers_from_cycle (p : Pipeline) (s e : string)
    (cfg : option input_config_t) (r : result unit) (p' : Pipeline) :
  wf_pipeline p -> is_cyclic p = true ->
  connect s e cfg p = (r, p') ->
  r = Raise PipelineDefinitionError /\ wf_pipeline p' /\ is_cyclic p' = true.
Proof.
  intros Hwf Hcyc Hconnect.
  pose proof (wf_connect s e cfg p r p' Hwf Hconnect) as Hwf'.
  unfold connect, add_edge in Hconnect. cbn [start end_] in Hconnect.
  destruct (decide (s ∈ node_names p)) as [Hs|Hs];
    [destruct (decide (e ∈ node_names p)) as [He|He]|].
  - set (p1 := with_edges _ p) in Hconnect.
    assert (is_cyclic p1 = true) as Hcyc1.
    { apply is_cyclic_correct; [by apply wf_upsert_edge|].
      apply (is_cyclic_correct p Hwf) in Hcyc as [x Hx]. exists x.
      apply (path_mono (successors p)); [|done].
      intros a b. apply successors_upsert. }
    rewrite Hcyc1 in Hconnect. by injection Hconnect as <- <-.
  - by injection Hconnect as <- <-.
  - by injection Hconnect as <- <-.
Qed.

(** ** [from_template] *)

Lemma add_components_spec cs p :
  add_components cs p =
  if decide (NoDup (cc_name <$> cs) /\
             Forall (fun n => n ∉ node_names p) (cc_name <$> cs))
  then Ok (with_nodes (_nodes p ++ (template_task <$> cs)) p)
  else Raise ValueError.
Proof.
  revert p. induction cs as [|c cs IH]; intros p; cbn [add_components].
  - rewrite decide_True by (split; constructor).
    destruct p. unfold with_nodes. cbn. by rewrite app_nil_r.
  - unfold add_component, add_node. cbn [new_task name].
    destruct (decide (cc_name c ∈ node_names p)) as [Hin|Hnotin]; cbn [rbind].
    + rewrite decide_False; [done|]. rewrite fmap_cons.
      by intros [_ [? _]%Forall_cons].
    + rewrite IH. rewrite !fmap_cons.
      assert (node_names (with_nodes (_nodes p ++ [new_task (cc_name c) (cc_component c)]) p)
              = node_names p ++ [cc_name c]) as Hnames.
      { unfold node_names. cbn [with_nodes _nodes]. by rewrite fmap_app. }
      rewrite Hnames.
      destruct (decide (NoDup (cc_name <$> cs) /\
                        Forall (fun n => n ∉ node_names p ++ [cc_name c]) (cc_name <$> cs)))
        as [[Hnd Hall]|Hnot].
      * rewrite decide_True.
        -- unfold with_nodes. cbn [_nodes _edges _store _final_results].
           by rewrite <- app_assoc.
        -- split.
           ++ apply NoDup_cons. split; [|done].
              intros Hc. rewrite Forall_forall in Hall. apply (Hall _ Hc).
              apply elem_of_app. right. by apply list_elem_of_singleton.
           ++ constructor; [done|].
              eapply Forall_impl; [exact Hall|]. intros n Hn Hn'. apply Hn.
              apply elem_of_app. by left.
      * rewrite decide_False; [done|].
        intros [[Hc Hnd]%NoDup_cons [_ Hall]%Forall_cons]. apply Hnot. split; [done|].
        apply Forall_forall. intros n Hn [Hn'|Hn'%list_elem_of_singleton]%elem_of_app.
        -- rewrite Forall_forall in Hall. by apply (Hall n).
        -- by subst n.
Qed.

Lemma add_connections_ok es p :
  Forall (fun c => conn_start c ∈ node_names p /\ conn_end c ∈ node_names p) es ->
  add_connections es p =
  Ok (with_edges (foldl (fun acc c => upsert_edge (template_edge c) acc) (_edges p) es) p).
Proof.
  intros Hall. revert p Hall.
  induction es as [|c es IH]; intros p Hall; cbn [add_connections foldl].
  - by destruct p.
  - apply Forall_cons in Hall as [[Hs He] Hall].
    rewrite add_edge_ok by done. cbn [rbind]. by rewrite IH.
Qed.

Lemma add_connections_missing es p :
  ~ Forall (fun c => conn_start c ∈ node_names p /\ conn_end c ∈ node_names p) es ->
  exists k, add_connections es p = Raise (KeyError k) /\ k ∉ node_names p.
Proof.
  revert p. induction es as [|c es IH]; intros p Hnot; cbn [add_connections].
  - destruct Hnot. constructor.
  - unfold add_edge. cbn [template_edge start end_].
    destruct (decide (conn_start c ∈ node_names p)) as [Hs|Hs];
      [destruct (decide (conn_end c ∈ node_names p)) as [He|He]|]; cbn [rbind].
    + destruct (IH (with_edges (upsert_edge (template_edge c) (_edges p)) p))
        as (k & Hk & Hk').
      * intros Hall. apply Hnot. by constructor.
      * exists k. by split.
    + by eexists.
    + by eexists.
Qed.

Lemma upsert_all_in (cs : list ConnectionConfig) es d :
  d ∈ foldl (fun acc c => upsert_edge (template_edge c) acc) es cs ->
  d ∈ es \/ exists c, c ∈ cs /\ d = template_edge c.
Proof.
  revert es. induction cs as [|c cs IH]; intros es; cbn [foldl].
  - by left.
  - intros [[->|Hin]%upsert_edge_in|(c' & Hc' & ->)]%IH.
    + right. exists c. split; [left|done].
    + by left.
    + right. exists c'. split; [by right|done].
Qed.

Lemma upsert_all_keys (cs : list ConnectionConfig) es k :
  k ∈ (fun d => (start d, end_ d)) <$>
        foldl (fun acc c => upsert_edge (template_edge c) acc) es cs <->
  k ∈ (fun d => (start d, end_ d)) <$> es \/
  k ∈ (fun c => (conn_start c, conn_end c)) <$> cs.
Proof.
  revert es. induction cs as [|c cs IH]; intros es; cbn [foldl].
  - rewrite fmap_nil, elem_of_nil. tauto.
  - rewrite IH, upsert_edge_keys, fmap_cons, elem_of_cons. cbn [template_edge start end_].
    destruct (decide ((conn_start c, conn_end c) ∈ (fun d => (start d, end_ d)) <$> es)).
    + split; [tauto|]. intros [?|[->|?]]; tauto.
    + rewrite elem_of_app, list_elem_of_singleton. tauto.
Qed.

Lemma upsert_all_nodup (cs : list ConnectionConfig) es :
  NoDup ((fun d => (start d, end_ d)) <$> es) ->
  NoDup ((fun d => (start d, end_ d)) <$>
           foldl (fun acc c => upsert_edge (template_edge c) acc) es cs).
Proof.
  revert es. induction cs as [|c cs IH]; intros es Hnd; cbn [foldl]; [done|].
  apply IH. by apply upsert_edge_nodup.
Qed.

Lemma successors_edge_keys p x y :
  y ∈ successors p x <-> (x, y) ∈ edge_keys p.
Proof.
  unfold successors, edge_keys. rewrite !list_elem_of_fmap. split.
  - intros (d & -> & [Hd <-]%next_edges_in). by exists d.
  - intros (d & [= -> ->] & Hd). exists d. split; [done|]. by apply next_edges_in.
Qed.

(** X9. [from_template] checks names only.  It raises [ValueError] when two
    components of the template share a name, and otherwise a lookup error
    when a connection names a component that the template does not define.
    In every other case it returns a well-formed pipeline with the
    template's tasks in order, one edge per connected pair, each edge built
    from a connection of the template, and the given store; no cycle check is
    made, so a pipeline that [connect] would refuse can be built this way. *)
Theorem from_template_checks_names_only (t : PipelineConfig)
    (store : option (gmap string value)) :
  let names := cc_name <$> components t in
  let joined :=
    Forall (fun c => conn_start c ∈ names /\ conn_end c ∈ names) (connections t) in
  (~ NoDup names -> from_template t store = Raise ValueError) /\
  (NoDup names -> ~ joined ->
     exists k, from_template t store = Raise (KeyError k) /\ k ∉ names) /\
  (NoDup names -> joined ->
     exists p, from_template t store = Ok p /\
       _nodes p = template_task <$> components t /\
       wf_pipeline p /\ NoDup (edge_keys p) /\
       (forall d, d ∈ _edges p -> exists c, c ∈ connections t /\ d = template_edge c) /\
       (forall x y, y ∈ successors p x <->
          exists c, c ∈ connections t /\ conn_start c = x /\ conn_end c = y) /\
       _store p = default ∅ store /\ _final_results p = ∅) /\
  (exists t' p', from_template t' None = Ok p' /\ is_cyclic p' = true).
Proof.
  intros names joined. unfold from_template.
  rewrite add_components_spec. cbn [new_pipeline node_names _nodes fmap list_fmap app].
  fold names.
  assert (Forall (fun n : string => n ∉ @nil string) names) as Hfresh.
  { apply Forall_forall. intros n _. apply not_elem_of_nil. }
  set (p1 := with_nodes (template_task <$> components t) (new_pipeline store)).
  assert (node_names p1 = names) as Hnames.
  { unfold node_names, p1, names. cbn [with_nodes _nodes].
    rewrite <- list_fmap_compose. by apply list_fmap_ext. }
  split; [|split; [|split]].
  - intros Hnd. rewrite decide_False; [done|]. by intros [? _].
  - intros Hnd Hnot. rewrite decide_True by done. cbn [rbind]. fold p1.
    destruct (add_connections_missing (connections t) p1) as (k & -> & Hk).
    + by rewrite Hnames.
    + exists k. split; [done|]. by rewrite <- Hnames.
  - intros Hnd Hjoined. rewrite decide_True by done. cbn [rbind]. fold p1.
    rewrite add_connections_ok by by rewrite Hnames.
    eexists. split; [done|].
    cbn [with_edges _nodes _edges _store _final_results p1 with_nodes new_pipeline].
    assert (forall d, d ∈ foldl (fun acc c => upsert_edge (template_edge c) acc) []
                             (connections t) ->
                      exists c, c ∈ connections t /\ d = template_edge c) as Hfrom.
    { intros d [Hd|Hd]%upsert_all_in; [by apply elem_of_nil in Hd|done]. }
    split_and!.
    + done.
    + split.
      * unfold node_names. cbn [with_edges _nodes p1 with_nodes]. fold names.
        change (NoDup (node_names p1)). by rewrite Hnames.
      * apply Forall_forall. intros d Hd. cbn [with_edges _edges] in Hd.
        destruct (Hfrom d Hd) as (c & Hc & ->).
        change (node_names (with_edges _ p1)) with (node_names p1). rewrite Hnames.
        cbn [template_edge start end_].
        unfold joined in Hjoined. rewrite Forall_forall in Hjoined. by apply Hjoined.
    + unfold edge_keys. cbn [with_edges _edges]. apply upsert_all_nodup. constructor.
    + done.
    + intros x y. rewrite successors_edge_keys. unfold edge_keys. cbn [with_edges _edges].
      rewrite upsert_all_keys, fmap_nil, elem_of_nil, list_elem_of_fmap. split.
      * intros [[]|(c & [= -> ->] & Hc)]. by exists c.
      * intros (c & Hc & <- & <-). right. by exists c.
    + done.
    + done.
  - exists two_cycle_template. eexists. split; [by vm_compute|]. by vm_compute.
Qed.

(** ** [on_task_complete], then a reference to the result *)

(** X10. After [Pipeline.on_task_complete] the result of the task can be
    looked up under its name, whatever was stored before, the results of the
    other components are as they were, and the final results gain the entry
    exactly when the task is a leaf.  A component that returned no data model
    is stored as [None]: a reference to its whole result then resolves to
    [None], while a reference to one of its fields raises
    [AttributeError]. *)
Theorem on_task_complete_then_resolve (task : TaskPipelineNode) (res : RunResult)
    (p : Pipeline) :
  let p' := pipeline_on_task_complete task res p in
  let n := name task in
  get_results_for_component n p' = Ok (saved (rr_result res)) /\
  (forall m, m <> n -> get_results_for_component m p' = get_results_for_component m p) /\
  _final_results p' =
    (if is_leaf n p then <[n := saved (rr_result res)]> (_final_results p)
     else _final_results p) /\
  _nodes p' = _nodes p /\ _edges p' = _edges p /\
  (occurrences "." n = 0 ->
     resolved (_store p') n = Ok (saved (rr_result res)) /\
     forall f, occurrences "." f = 0 ->
       resolved (_store p') (n ++ String "." f) =
       match rr_result res with
       | Some d => Ok (default VNone (d !! f))
       | None => Raise AttributeError
       end).
Proof.
  intros p' n.
  assert (_store p' = <[n := saved (rr_result res)]> (_store p)) as Hstore by done.
  split_and!.
  - unfold get_results_for_component, store_get. by rewrite Hstore, lookup_insert_eq.
  - intros m Hm. unfold get_results_for_component, store_get.
    by rewrite Hstore, lookup_insert_ne.
  - subst p'. unfold pipeline_on_task_complete, add_result_for_component.
    cbn [with_stores _final_results]. by destruct (is_leaf _ p).
  - done.
  - done.
  - intros Hn. split.
    + apply resolved_bare; [done|]. by rewrite Hstore, lookup_insert_eq.
    + intros f Hf. unfold resolved. rewrite (parse_mapping_field n f Hn Hf).
      unfold store_get. rewrite Hstore, lookup_insert_eq. cbn [rbind].
      by destruct (rr_result res).
Qed.

(** ** [get_component_inputs] when a reference fails *)

Lemma for_eachM_app {A} (body : A -> M unit) l1 l2 w :
  for_eachM body (l1 ++ l2) w =
  match for_eachM body l1 w with
  | (Ok _, w1) => for_eachM body l2 w1
  | (Raise e, w1) => (Raise e, w1)
  end.
Proof.
  revert w. induction l1 as [|a l1 IH]; intros w; cbn [app for_eachM]; [done|].
  unfold bind. destruct (body a w) as [[[]|e] w1]; [|done]. apply IH.
Qed.

Lemma resolved_raises st m e :
  resolved st m = Raise e ->
  (e = KeyError (parse_mapping m).1 /\ st !! (parse_mapping m).1 = None) \/
  (e = AttributeError /\ exists f, (parse_mapping m).2 = Some f).
Proof.
  unfold resolved, store_get. destruct (parse_mapping m) as [c fo]. cbn [fst snd].
  destruct (st !! c) as [v|]; cbn [rbind].
  - destruct fo as [f|]; [|done]. intros Hget. right.
    split; [|by exists f]. destruct v; cbn [value_get] in Hget; congruence.
  - intros [= <-]. by left.
Qed.

(** X11. [get_component_inputs] fills the caller's dictionary as it goes and
    does not undo anything when a reference fails: if the entries before a
    failing reference resolve, the call raises the error of that reference (a
    lookup error for a component with no stored result, [AttributeError] for
    a field of a result that is not a dictionary), and the caller's dictionary
    is left with the values of the entries before it written in. *)
Theorem get_component_inputs_keeps_writes_on_failure (cname : string)
    (pre post : input_config_t) (param m : string) (data : input_data_t)
    (w : World) (l0 : loc) (e : exn) :
  let st := _store (pipeline w) in
  data !! cname = Some l0 ->
  NoDup pre.*1 ->
  Forall (fun item => exists v, resolved st item.2 = Ok v) pre ->
  resolved st m = Raise e ->
  exists w',
    get_component_inputs cname (pre ++ (param, m) :: post) data w = (Raise e, w') /\
    pipeline w' = pipeline w /\
    deref l0 w' = overlay st (deref l0 w) pre /\
    (forall k mk, (k, mk) ∈ pre ->
       exists v, resolved st mk = Ok v /\ deref l0 w' !! k = Some v) /\
    (forall k, k ∉ pre.*1 -> deref l0 w' !! k = deref l0 w !! k) /\
    (forall l, l <> l0 -> heap w' !! l = heap w !! l) /\
    ((e = KeyError (parse_mapping m).1 /\ st !! (parse_mapping m).1 = None) \/
     (e = AttributeError /\ exists f, (parse_mapping m).2 = Some f)).
Proof.
  intros st Hdata Hnd Hpre Hm.
  destruct (resolve_loop_ok cname l0 pre w Hnd Hpre)
    as (w1 & Hloop & Hp1 & Hother & _ & Hderef & _).
  exists w1. split_and!.
  - unfold get_component_inputs, bind, input_data_get. rewrite Hdata.
    rewrite for_eachM_app, Hloop. cbn [for_eachM]. unfold bind.
    rewrite (resolve_parameter_raises cname l0 param m e w1); [done|].
    by rewrite Hp1.
  - done.
  - done.
  - intros k mk Hin. rewrite Forall_forall in Hpre.
    destruct (Hpre (k, mk) Hin) as [v Hv]. exists v. split; [done|].
    rewrite Hderef. by apply (overlay_lookup st pre _ k mk).
  - intros k Hk. rewrite Hderef. by apply overlay_lookup_other.
  - done.
  - by apply resolved_raises.
Qed.

(** ** No dictionary of the heap loses a key *)

Lemma resolve_loop_heap cname l cfg w r w' :
  for_eachM (resolve_parameter cname l) cfg w = (r, w') ->
  forall l', dom (deref l' w) ⊆ dom (deref l' w').
Proof.
  revert w. induction cfg as [|[p m] cfg IH]; intros w; cbn [for_eachM].
  - unfold pure. by intros [= _ <-].
  - unfold bind.
    destruct (resolved (_store (pipeline w)) m) as [v|e] eqn:Hres.
    + rewrite (resolve_parameter_ok _ _ _ _ v) by done. intros Hrun l'.
      etrans; [|apply (IH _ Hrun)].
      unfold deref at 2. cbn [heap].
      destruct (decide (l' = l)) as [->|Hne].
      * rewrite lookup_insert_eq. simpl. rewrite dom_insert. set_solver.
      * by rewrite lookup_insert_ne.
    + rewrite (resolve_parameter_raises _ _ _ _ e) by done. by intros [= _ <-].
Qed.

Lemma get_component_inputs_heap cname cfg (data : input_data_t) w r w' :
  get_component_inputs cname cfg data w = (r, w') ->
  forall l', dom (deref l' w) ⊆ dom (deref l' w').
Proof.
  unfold get_component_inputs, bind.
  destruct (input_data_get_spec cname data w) as (l & w1 & -> & _ & _ & _ & Hw1).
  assert (forall l', deref l' w1 = deref l' w) as Hsame.
  { intros l'. destruct (data !! cname) as [l0|].
    - by destruct Hw1 as [_ ->].
    - destruct Hw1 as [Hfresh Hheap]. unfold deref. rewrite Hheap.
      destruct (decide (l' = l)) as [->|Hne].
      + by rewrite lookup_insert_eq, Hfresh.
      + by rewrite lookup_insert_ne. }
  destruct (for_eachM _ _ w1) as [[[]|e] w2] eqn:Hloop;
    unfold pure; intros [= _ <-] l'; rewrite <- Hsame;
    by apply (resolve_loop_heap _ _ _ _ _ _ Hloop).
Qed.

Lemma run_task_begin_heap n (data : input_data_t) w r w' :
  run_task_begin n data w = (r, w') ->
  forall l, dom (deref l w) ⊆ dom (deref l w').
Proof.
  unfold run_task_begin, bind, get_node, get_node_by_name.
  destruct (find_node n (_nodes (pipeline w))) as [task|]; [|by intros [= _ <-]].
  destruct (get_input_config_for_task task (pipeline w)) as [cfg|]; [|by intros [= _ <-]].
  destruct (get_component_inputs _ _ _ w) as [[l|] w1] eqn:Hin;
    pose proof (get_component_inputs_heap _ _ _ _ _ _ Hin) as Hheap;
    [|by intros [= _ <-]].
  unfold gets, lift.
  destruct (execute_begin_cases task) as [[-> _]|[-> _]].
  - unfold pure. by intros [= _ <-].
  - unfold put_node, modify, pure. by intros [= _ <-].
Qed.

Lemma resolve_loop_raises cname l cfg w e w' :
  for_eachM (resolve_parameter cname l) cfg w = (Raise e, w') ->
  exists k m, (k, m) ∈ cfg /\ resolved (_store (pipeline w)) m = Raise e.
Proof.
  revert w. induction cfg as [|[p m] cfg IH]; intros w; cbn [for_eachM].
  - by unfold pure.
  - unfold bind.
    destruct (resolved (_store (pipeline w)) m) as [v|e'] eqn:Hres.
    + rewrite (resolve_parameter_ok _ _ _ _ v) by done.
      intros Hrun. destruct (IH _ Hrun) as (k & m' & Hin & Hm').
      exists k, m'. split; [by right|done].
    + rewrite (resolve_parameter_raises _ _ _ _ e') by done.
      intros [= <- _]. exists p, m. split; [left|done].
Qed.

Lemma get_component_inputs_raises cname cfg (data : input_data_t) w e w' :
  get_component_inputs cname cfg data w = (Raise e, w') ->
  exists k m, (k, m) ∈ cfg /\ resolved (_store (pipeline w)) m = Raise e.
Proof.
  unfold get_component_inputs, bind.
  destruct (input_data_get_spec cname data w) as (l & w1 & -> & Hp1 & _).
  rewrite <- Hp1.
  destruct (for_eachM _ _ w1) as [[[]|e'] w2] eqn:Hloop; [by unfold pure|].
  intros [= <- _]. by apply (resolve_loop_raises cname l cfg w1 e' w2).
Qed.

Lemma remove_first_in m n l : m ∈ remove_first n l -> m ∈ l.
Proof.
  induction l as [|x l IH]; cbn [remove_first]; [done|].
  case_decide.
  - by right.
  - intros [->|Hin]%elem_of_cons; [left|right; by apply IH].
Qed.

Lemma roots_in p n : n ∈ name <$> roots p -> n ∈ node_names p /\ previous_edges n p = [].
Proof.
  unfold roots. intros (t & -> & [Hprev Ht]%list_elem_of_filter)%list_elem_of_fmap.
  split; [|done]. apply list_elem_of_fmap. by exists t.
Qed.

(** ** The store invariant is kept by every step *)

Lemma run_store_invariant_start p w :
  run_store_invariant (heap w) (orchestrator_start (with_pipeline (reinitialize p) w)).
Proof.
  assert (forall n, status_of n (reinitialize p) <> Some DONE) as Hst.
  { intros n. destruct (status_of_reinitialize n p) as [-> | ->]; done. }
  constructor; cbn [orchestrator_start world pending invoked with_pipeline pipeline].
  - intros n [Hn Hprev]%roots_in. split; [done|].
    unfold dependencies_done. rewrite Hprev. constructor.
  - intros n Hn. by destruct (Hst n).
  - intros n [v Hv]. cbn [reinitialize _store] in Hv. unfold store_empty in Hv.
    by rewrite lookup_empty in Hv.
  - done.
  - intros i n kwargs d Hi. by rewrite lookup_nil in Hi.
Qed.

Section RunStoreInvariant.
Variable p0 : Pipeline.
Hypothesis p0_wf : wf_pipeline p0.
Variable input_data : input_data_t.
Variable h0 : gmap loc pydict.

Lemma run_store_invariant_start_accepted s n kwargs w' :
  run_invariant p0 s -> run_store_invariant h0 s ->
  n ∈ pending s ->
  run_task_begin n input_data (world s) = (Ok (Some kwargs), w') ->
  run_store_invariant h0
    (mkSched w' (remove_first n (pending s)) (inflight s ++ [(n, kwargs)])
       (invoked s ++ [(n, kwargs)])).
Proof using p0_wf.
  intros Hinv Hsto Hpend Hrun.
  pose proof (run_invariant_wf p0 p0_wf s Hinv) as Hwf.
  pose proof (run_task_begin_heap _ _ _ _ _ Hrun) as Hheap.
  destruct Hsto as [Hpr Hsd Hss Hhg Hio].
  apply run_task_begin_cases in Hrun as (task & cfg & Hfind & Hcfg & Hp' & Hnr & Hnd).
  set (p := pipeline (world s)) in *.
  pose proof (status_of_node _ _ _ Hfind) as Hstn.
  destruct (find_node_Some _ _ _ Hfind) as [Hname _].
  assert (forall m, status_of m (pipeline w') =
                    if decide (m = n) then Some RUNNING else status_of m p) as Hst.
  { intros m. rewrite Hp'. apply (status_of_set_node_status n RUNNING p task Hfind). }
  assert (_edges (pipeline w') = _edges p) as He.
  { rewrite Hp'. apply (edges_set_node_status n RUNNING p task Hfind). }
  assert (node_names (pipeline w') = node_names p) as Hnm.
  { rewrite Hp'. apply (node_names_set_node_status n RUNNING p task Hfind). }
  assert (forall m, component_of m (pipeline w') = component_of m p) as Hcm.
  { intros m. rewrite Hp'. apply (component_of_set_node_status n RUNNING p task Hfind). }
  assert (_store (pipeline w') = _store p) as Hstore.
  { rewrite Hp'. by destruct (stores_set_node_status n RUNNING p task Hfind) as [-> _]. }
  assert (forall m, status_of m p = Some DONE -> status_of m (pipeline w') = Some DONE) as Hdone.
  { intros m Hm. rewrite Hst. case_decide; [|done]. subst m. congruence. }
  assert (forall m, status_of m (pipeline w') = Some DONE -> status_of m p = Some DONE) as Hdone'.
  { intros m. rewrite Hst. by case_decide. }
  constructor; cbn [world pending inflight invoked].
  - intros m Hm%remove_first_in. destruct (Hpr m Hm) as [Hmn Hmd].
    split; [by rewrite Hnm|]. by apply (dependencies_done_mono p).
  - intros m Hm%Hdone'. destruct (Hsd m Hm) as (k & c & out & Hin & Hc & Hout & Hs).
    exists k, c, out. rewrite Hcm, Hstore. split_and!; try done.
    apply elem_of_app. by left.
  - intros m. rewrite Hstore. intros Hm. by apply Hdone, Hss.
  - intros l. etrans; [apply Hhg|apply Hheap].
  - intros i m k d Hi. rewrite (previous_edges_ext m p _ He). intros Hd.
    destruct (decide (i < length (invoked s))) as [Hlt|Hge].
    + rewrite lookup_app_l in Hi by done.
      destruct (Hio i m k d Hi Hd) as (j & k' & Hj & Hjl).
      exists j, k'. split; [done|]. rewrite lookup_app_l; [done|lia].
    + rewrite lookup_app_r in Hi by lia.
      apply list_lookup_singleton_Some in Hi as [_ [= <- <-]].
      pose proof (get_input_config_for_task_done p task cfg Hwf Hcfg) as Hdeps.
      rewrite Hname in Hdeps. unfold dependencies_done in Hdeps.
      rewrite Forall_forall in Hdeps. specialize (Hdeps d Hd).
      assert (start d ∈ (invoked s).*1) as Hin.
      { apply (inv_invoked_status _ _ Hinv). by right. }
      apply list_elem_of_fmap in Hin as ([m' k'] & Hm' & Hin). cbn in Hm'. subst m'.
      apply list_elem_of_lookup in Hin as [j Hj].
      exists j, k'. pose proof (lookup_lt_Some _ _ _ Hj).
      split; [lia|]. by rewrite lookup_app_l.
Qed.

Lemma run_store_invariant_start_rejected s n w' :
  run_invariant p0 s -> run_store_invariant h0 s ->
  n ∈ pending s ->
  run_task_begin n input_data (world s) = (Ok None, w') ->
  run_store_invariant h0
    (mkSched w' (remove_first n (pending s)) (inflight s) (invoked s)).
Proof using p0_wf.
  intros Hinv Hsto Hpend Hrun.
  pose proof (run_task_begin_heap _ _ _ _ _ Hrun) as Hheap.
  destruct Hsto as [Hpr Hsd Hss Hhg Hio].
  apply run_task_begin_cases in Hrun as (task & cfg & Hfind & Hcfg & Hp' & Hst).
  constructor; cbn [world pending inflight invoked]; rewrite ?Hp'; try done.
  - intros m Hm%remove_first_in. by apply Hpr.
  - intros l. etrans; [apply Hhg|apply Hheap].
Qed.

Lemma run_store_invariant_complete s n kwargs nexts w' :
  run_invariant p0 s -> run_store_invariant h0 s ->
  find_inflight n (inflight s) = Some kwargs ->
  run_task_finish n kwargs (world s) = (Ok nexts, w') ->
  run_store_invariant h0
    (mkSched w' (pending s ++ nexts) (remove_inflight n (inflight s)) (invoked s)).
Proof using p0_wf.
  intros Hinv Hsto Hfl Hrun.
  pose proof (run_invariant_wf p0 p0_wf s Hinv) as Hwf.
  destruct Hsto as [Hpr Hsd Hss Hhg Hio].
  apply run_task_finish_cases in Hrun
    as (task & out & ys & Hfind & Hout & Hnd & Hp' & Hheap & Hnext & ->).
  set (p := pipeline (world s)) in *.
  apply find_inflight_Some in Hfl as Hin_fl.
  destruct (find_node_Some _ _ _ Hfind) as [Hname _].
  assert (forall m, status_of m (pipeline w') =
                    if decide (m = n) then Some DONE else status_of m p) as Hst.
  { intros m. rewrite Hp'. apply (status_of_set_node_status n DONE p task Hfind). }
  assert (_edges (pipeline w') = _edges p) as He.
  { rewrite Hp'. apply (edges_set_node_status n DONE p task Hfind). }
  assert (node_names (pipeline w') = node_names p) as Hnm.
  { rewrite Hp'. apply (node_names_set_node_status n DONE p task Hfind). }
  assert (forall m, component_of m (pipeline w') = component_of m p) as Hcm.
  { intros m. rewrite Hp'. apply (component_of_set_node_status n DONE p task Hfind). }
  assert (_store (pipeline w') = <[n := saved out]> (_store p)) as Hstore.
  { rewrite Hp'. unfold add_result_for_component, store_add. cbn [_store with_stores].
    by destruct (stores_set_node_status n DONE p task Hfind) as [-> _]. }
  assert (forall m, status_of m p = Some DONE -> status_of m (pipeline w') = Some DONE) as Hdone.
  { intros m Hm. rewrite Hst. by case_decide. }
  assert (wf_pipeline (pipeline w')) as Hwf' by by apply (wf_pipeline_ext p).
  assert (name <$> ys = filter (ready (pipeline w')) (successors p n)) as Hys.
  { rewrite (next_names _ _ _ Hwf' Hnext). cbn [name with_status].
    rewrite Hname. by rewrite (successors_ext n p _ He). }
  constructor; cbn [world pending inflight invoked].
  - intros m [Hm|Hm]%elem_of_app.
    + destruct (Hpr m Hm) as [Hmn Hmd].
      split; [by rewrite Hnm|]. by apply (dependencies_done_mono p).
    + rewrite Hys in Hm. apply list_elem_of_filter in Hm as [(_ & _ & Hdeps) Hsucc].
      split; [|done]. rewrite Hnm.
      unfold successors in Hsucc. apply list_elem_of_fmap in Hsucc as (d & -> & Hd).
      apply next_edges_in in Hd as [Hd _]. by apply (wf_edge_endpoints p d Hwf).
  - intros m. rewrite Hst, Hcm, Hstore. case_decide as E.
    + subst m. intros _. exists kwargs, (component task), out. split_and!.
      * exact (inv_inflight_invoked _ _ Hinv (n, kwargs) Hin_fl).
      * unfold component_of. fold p. by rewrite Hfind.
      * done.
      * by rewrite lookup_insert_eq.
    + intros Hm. destruct (Hsd m Hm) as (k & c & out' & Hin & Hc & Hout' & Hs).
      exists k, c, out'. split_and!; try done. by rewrite lookup_insert_ne.
  - intros m. rewrite Hstore, Hst. case_decide as E; [done|].
    rewrite lookup_insert_ne by done. apply Hss.
  - intros l. unfold deref. rewrite Hheap. apply Hhg.
  - intros i m k d Hi. rewrite (previous_edges_ext m p _ He). intros Hd. exact (Hio i m k d Hi Hd).
Qed.

Lemma run_store_invariant_step ev s s' :
  run_invariant p0 s -> run_store_invariant h0 s ->
  step input_data ev s = Continue s' -> run_store_invariant h0 s'.
Proof using p0_wf.
  intros Hinv Hsto. destruct ev as [n|n]; simpl.
  - case_decide as Hpend; [|done].
    destruct (run_task_begin n input_data (world s)) as [[[kwargs|]|e] w'] eqn:Hrun;
      intros [= <-].
    + by apply (run_store_invariant_start_accepted s n kwargs w').
    + by apply (run_store_invariant_start_rejected s n w').
  - destruct (find_inflight n (inflight s)) as [kwargs|] eqn:Hfl; [|done].
    destruct (run_task_finish n kwargs (world s)) as [[nexts|e] w'] eqn:Hrun;
      intros [= <-].
    by apply (run_store_invariant_complete s n kwargs nexts w').
Qed.

Lemma run_store_invariant_run_events evs s s' :
  run_invariant p0 s -> run_store_invariant h0 s ->
  run_events input_data evs s = Continue s' ->
  run_invariant p0 s' /\ run_store_invariant h0 s'.
Proof using p0_wf.
  revert s. induction evs as [|ev evs IH]; intros s Hinv Hsto; simpl.
  - by intros [= <-].
  - destruct (step input_data ev s) as [| |s1] eqn:Hstep; [done..|].
    apply IH.
    + by apply (run_invariant_step p0 p0_wf input_data ev s).
    + by apply (run_store_invariant_step ev s).
Qed.

End RunStoreInvariant.

(** ** What can stop a run *)

Lemma next_total p t : wf_pipeline p -> exists ys, next t p = Ok ys.
Proof.
  intros Hwf. unfold next.
  destruct (next_loop_spec p (next_edges (name t) p) Hwf) as (ys & Hys & _).
  - apply Forall_forall. intros d [Hd _]%next_edges_in.
    by apply (wf_edge_endpoints p d Hwf).
  - by exists ys.
Qed.

Lemma run_task_finish_heap n kwargs w r w' :
  run_task_finish n kwargs w = (r, w') -> heap w' = heap w.
Proof.
  unfold run_task_finish, bind, get_node, get_node_by_name.
  destruct (find_node n (_nodes (pipeline w))) as [task|]; [|by intros [= _ <-]].
  destruct (component_run (component task) kwargs) as [msg|out];
    [unfold raise; by intros [= _ <-]|].
  unfold lift. destruct (execute_finish out task) as [[res done_]|e];
    [|by intros [= _ <-]].
  unfold put_node, modify, pure. cbn [fst snd].
  destruct (next _ _) as [ys|e]; by intros [= _ <-].
Qed.

Lemma for_each_raises {A} (body : A -> result unit) l e :
  for_each body l = Raise e -> exists a, a ∈ l /\ body a = Raise e.
Proof.
  induction l as [|a l IH]; cbn [for_each]; [done|].
  destruct (body a) as [[]|e'] eqn:Ha; cbn [rbind].
  - intros (a' & Hin & Ha')%IH. exists a'. split; [by right|done].
  - intros [= <-]. exists a. split; [left|done].
Qed.

Lemma for_each_Ok {A} (body : A -> result unit) l a :
  for_each body l = Ok tt -> a ∈ l -> body a = Ok tt.
Proof.
  induction l as [|a' l IH]; cbn [for_each]; [by intros _ ?%elem_of_nil|].
  destruct (body a') as [[]|e'] eqn:Ha; cbn [rbind]; [|done].
  intros Hl [->|Hin]%elem_of_cons; [done|by apply IH].
Qed.

Lemma check_mapped_output_raises p item e :
  check_mapped_output p item = Raise e ->
  e = PipelineDefinitionError \/ exists k, e = KeyError k.
Proof.
  unfold check_mapped_output. destruct item as [param m].
  destruct (parse_mapping m) as [c [f|]]; [|done].
  unfold get_node_by_name. destruct (find_node c (_nodes p)); cbn [rbind].
  - case_decide; [|done]. intros [= <-]. by left.
  - intros [= <-]. right. by eexists.
Qed.

Lemma validate_edges_raises es acc p e :
  validate_edges es acc p = Raise e ->
  e = PipelineDefinitionError \/ exists k, e = KeyError k.
Proof.
  revert acc. induction es as [|d es IH]; intros acc; cbn [validate_edges]; [done|].
  destruct (for_each _ (edge_input_config d)) as [[]|e'] eqn:Hd; cbn [rbind].
  - apply IH.
  - intros [= <-]. apply for_each_raises in Hd as (item & _ & Hitem).
    by apply (check_mapped_output_raises p item).
Qed.

Lemma validate_inputs_config_raises (data : input_data_t) h p e :
  validate_inputs_config data h p = Raise e ->
  e = PipelineDefinitionError \/ exists k, e = KeyError k.
Proof.
  unfold validate_inputs_config. intros (task & _ & Htask)%for_each_raises.
  unfold validate_inputs_config_for_task in Htask.
  destruct (validate_edges _ _ p) as [actual|e'] eqn:Hedges; cbn [rbind] in Htask.
  - case_decide; [done|]. cbn [rbind] in Htask. injection Htask as <-. by left.
  - injection Htask as <-. by apply (validate_edges_raises _ _ _ _ Hedges).
Qed.

Section RunAborts.
Variable p0 : Pipeline.
Hypothesis p0_wf : wf_pipeline p0.
Variable input_data : input_data_t.
Variable h0 : gmap loc pydict.

(** A step that raises: either a component failed, or a reference of the
    task being started did not resolve.  The graph is as it was. *)
Lemma step_aborted ev s e w' :
  run_invariant p0 s -> run_store_invariant h0 s ->
  step input_data ev s = Aborted e w' ->
  pipeline w' = pipeline (world s) /\
  ((exists n kwargs c msg,
      ev = Complete n /\ (n, kwargs) ∈ inflight s /\
      component_of n (pipeline (world s)) = Some c /\
      component_run c kwargs = inl msg /\ e = ComponentFailure msg) \/
   (exists n task cfg k m,
      ev = Start n /\ n ∈ pending s /\
      find_node n (_nodes (pipeline (world s))) = Some task /\
      get_input_config_for_task task (pipeline (world s)) = Ok cfg /\
      (k, m) ∈ cfg /\ resolved (_store (pipeline (world s))) m = Raise e)).
Proof using p0_wf.
  intros Hinv Hsto.
  pose proof (run_invariant_wf p0 p0_wf s Hinv) as Hwf.
  destruct ev as [n|n]; cbn [step].
  - case_decide as Hpend; [|done].
    destruct (run_task_begin n input_data (world s)) as [[[kwargs|]|e1] w1] eqn:Hrun;
      [done..|]. intros [= <- <-].
    destruct (inv_pending_ready _ _ Hsto n Hpend) as [Hn Hdeps].
    destruct (find_node_is_Some n _ Hn) as [task Hfind].
    destruct (find_node_Some _ _ _ Hfind) as [Hname _].
    unfold run_task_begin, bind, get_node, get_node_by_name in Hrun.
    rewrite Hfind in Hrun.
    rewrite (get_input_config_for_task_spec _ task Hwf) in Hrun.
    rewrite Hname, decide_True in Hrun by done.
    destruct (get_component_inputs _ _ _ (world s)) as [[l|e2] w2] eqn:Hin.
    + unfold gets, lift in Hrun.
      destruct (execute_begin_cases task) as [[Hb _]|[Hb _]]; rewrite Hb in Hrun; done.
    + injection Hrun as <- <-.
      split; [by apply (get_component_inputs_pipeline _ _ _ _ _ _ Hin)|].
      right. apply get_component_inputs_raises in Hin as (k & m & Hkm & Hres).
      exists n, task, (dict_update [] (incoming_config n (pipeline (world s)))), k, m.
      split_and!; try done.
      rewrite (get_input_config_for_task_spec _ task Hwf), Hname.
      by rewrite decide_True.
  - destruct (find_inflight n (inflight s)) as [kwargs|] eqn:Hfl; [|done].
    destruct (run_task_finish n kwargs (world s)) as [[nexts|e1] w1] eqn:Hrun; [done|].
    intros [= <- <-].
    apply find_inflight_Some in Hfl.
    pose proof (inv_inflight_running _ _ Hinv n kwargs Hfl) as Hrunning.
    unfold status_of in Hrunning.
    destruct (find_node n (_nodes (pipeline (world s)))) as [task|] eqn:Hfind; [|done].
    injection Hrunning as Hrunning.
    unfold run_task_finish, bind, get_node, get_node_by_name in Hrun.
    rewrite Hfind in Hrun.
    destruct (component_run (component task) kwargs) as [msg|out] eqn:Hout.
    + unfold raise in Hrun. injection Hrun as <- <-. split; [done|]. left.
      exists n, kwargs, (component task), msg. split_and!; try done.
      unfold component_of. by rewrite Hfind.
    + exfalso. unfold lift in Hrun.
      rewrite (execute_finish_running out task Hrunning) in Hrun.
      unfold put_node, modify, pure in Hrun. cbn [fst snd] in Hrun.
      destruct (next _ _) as [ys|e2] eqn:Hnext; [done|].
      match type of Hnext with
      | next ?t ?q = _ => destruct (next_total q t) as [ys Hys]; [|congruence]
      end.
      apply (wf_pipeline_ext (pipeline (world s))); [|done..].
      unfold node_names. cbn. apply replace_node_names.
Qed.

Lemma run_events_aborted evs s e w' :
  run_invariant p0 s -> run_store_invariant h0 s ->
  run_events input_data evs s = Aborted e w' ->
  exists s1 ev,
    run_invariant p0 s1 /\ run_store_invariant h0 s1 /\
    step input_data ev s1 = Aborted e w'.
Proof using p0_wf.
  revert s. induction evs as [|ev evs IH]; intros s Hinv Hsto; cbn [run_events]; [done|].
  destruct (step input_data ev s) as [|e1 w1|s1] eqn:Hstep; [done| |].
  - intros [= <- <-]. by exists s, ev.
  - apply IH.
    + by apply (run_invariant_step p0 p0_wf input_data ev s).
    + by apply (run_store_invariant_step p0 p0_wf input_data h0 ev s).
Qed.

End RunAborts.

(** X12. [Pipeline.run] never raises [PipelineMissingDependencyError],
    [PipelineStatusUpdateError] or [ValueError].  What it raises is the error
    of the validation, with nothing changed; or, after validation, the
    failure of a component, or the error of a reference that does not resolve
    when a task starts: [AttributeError], or a lookup error for a component
    that is not [DONE].  Either way the graph is as before. *)
Theorem run_raises_only_definition_component_or_reference_errors
    (input_data : input_data_t) (w : World) (evs : list event) (e : exn) (w' : World) :
  wf_pipeline (pipeline w) ->
  run input_data evs w = Some (Raise e, w') ->
  (e <> PipelineMissingDependencyError /\ e <> PipelineStatusUpdateError /\
   e <> ValueError) /\
  ((validate_inputs_config input_data (heap w) (pipeline w) = Raise e /\ w' = w) \/
   (validate_inputs_config input_data (heap w) (pipeline w) = Ok tt /\
    ((exists msg, e = ComponentFailure msg) \/ e = AttributeError \/
     (exists c, e = KeyError c /\ status_of c (pipeline w') <> Some DONE)))) /\
  node_names (pipeline w') = node_names (pipeline w) /\
  _edges (pipeline w') = _edges (pipeline w) /\
  (forall n, component_of n (pipeline w') = component_of n (pipeline w)).
Proof.
  intros Hwf. unfold run.
  destruct (validate_inputs_config _ _ _) as [[]|e1] eqn:Hval.
  - set (w1 := with_pipeline (reinitialize (pipeline w)) w).
    destruct (run_events _ _ _) as [|e2 w2|s] eqn:Hrun; [done| |by destruct (quiescent s)].
    intros [= <- <-].
    pose proof (wf_reinitialize _ Hwf) as Hwf1.
    destruct (run_events_aborted (reinitialize (pipeline w)) Hwf1 input_data (heap w)
                evs _ e2 w2 (run_invariant_start _ w Hwf) (run_store_invariant_start _ w) Hrun)
      as (s1 & ev & Hinv & Hsto & Hstep).
    destruct (step_aborted _ Hwf1 _ _ ev s1 e2 w2 Hinv Hsto Hstep) as [Hp Hcause].
    assert ((exists msg, e2 = ComponentFailure msg) \/ e2 = AttributeError \/
            (exists c, e2 = KeyError c /\ status_of c (pipeline w2) <> Some DONE)) as He.
    { destruct Hcause as [(n & kwargs & c & msg & _ & _ & _ & _ & ->)
                         |(n & task & cfg & k & m & _ & _ & _ & _ & _ & Hres)].
      - left. by exists msg.
      - right. apply resolved_raises in Hres as [[-> Hnone]|[-> _]]; [right|by left].
        eexists. split; [done|]. rewrite Hp. intros Hdone.
        destruct (inv_store_done _ _ Hsto _ Hdone) as (? & ? & ? & _ & _ & _ & Hsome).
        congruence. }
    split_and!.
    + destruct He as [[msg ->]|[->|(c & -> & _)]]; done.
    + destruct He as [[msg ->]|[->|(c & -> & _)]]; done.
    + destruct He as [[msg ->]|[->|(c & -> & _)]]; done.
    + right. by split.
    + rewrite Hp, (inv_names _ _ Hinv). apply node_names_reinitialize.
    + by rewrite Hp, (inv_edges _ _ Hinv).
    + intros n. rewrite Hp, (inv_components _ _ Hinv). apply component_of_reinitialize.
  - intros [= <- <-].
    destruct (validate_inputs_config_raises _ _ _ _ Hval) as [->|[k ->]];
      (split; [done|]); (split; [by left|done]).
Qed.

(** ** The order of the calls in a run *)

(** X13. In every state a run can reach, a component that has been called
    was called once, after every component it depends on: each predecessor
    was called earlier, has returned, and the result store holds what
    [on_task_complete] saved for that one call.  So the results a task reads
    are those of this run, and none is overwritten while the run goes on. *)
Theorem components_are_called_after_their_dependencies (input_data : input_data_t)
    (w : World) (evs : list event) (s : Sched) :
  wf_pipeline (pipeline w) ->
  run_events input_data evs
    (orchestrator_start (with_pipeline (reinitialize (pipeline w)) w)) = Continue s ->
  forall i n kwargs,
    invoked s !! i = Some (n, kwargs) ->
    (forall j kwargs', invoked s !! j = Some (n, kwargs') -> j = i) /\
    (forall d, d ∈ previous_edges n (pipeline w) ->
       exists j kwargs' c out,
         j < i /\ invoked s !! j = Some (start d, kwargs') /\
         component_of (start d) (pipeline w) = Some c /\
         component_run c kwargs' = inr out /\
         get_results_for_component (start d) (pipeline (world s)) = Ok (saved out)).
Proof.
  intros Hwf Hrun i n kwargs Hi.
  pose proof (wf_reinitialize _ Hwf) as Hwf1.
  destruct (run_store_invariant_run_events (reinitialize (pipeline w)) Hwf1 input_data
              (heap w) evs _ s (run_invariant_start _ w Hwf)
              (run_store_invariant_start _ w) Hrun) as [Hinv Hsto].
  pose proof (inv_invoked_nodup _ _ Hinv) as Hnd.
  split.
  - intros j kwargs' Hj.
    apply (NoDup_lookup _ j i n Hnd); rewrite list_lookup_fmap.
    + by rewrite Hj.
    + by rewrite Hi.
  - intros d Hd.
    assert (d ∈ previous_edges n (pipeline (world s))) as Hd'.
    { rewrite (previous_edges_ext n (pipeline w)); [done|].
      by rewrite (inv_edges _ _ Hinv). }
    destruct (inv_invoked_order _ _ Hsto i n kwargs d Hi Hd') as (j & kwargs' & Hj & Hjl).
    assert (n ∈ (invoked s).*1) as Hn.
    { apply list_elem_of_fmap. exists (n, kwargs). split; [done|].
      by apply list_elem_of_lookup_2 in Hi. }
    pose proof (inv_invoked_deps _ _ Hinv n Hn) as Hdeps.
    unfold dependencies_done in Hdeps. rewrite Forall_forall in Hdeps.
    destruct (inv_store_done _ _ Hsto _ (Hdeps d Hd'))
      as (k & c & out & Hin & Hc & Hout & Hstore).
    assert ((start d, k) = (start d, kwargs')) as Heq.
    { apply (NoDup_fmap_eq fst (invoked s)); [done|done| |done].
      by apply list_elem_of_lookup_2 in Hjl. }
    injection Heq as ->.
    exists j, kwargs', c, out. split_and!; try done.
    + by rewrite <- (component_of_reinitialize _ (pipeline w)), <- (inv_components _ _ Hinv).
    + unfold get_results_for_component, store_get. by rewrite Hstore.
Qed.

(** ** What validation buys *)

Lemma validate_edges_Ok es acc p r :
  validate_edges es acc p = Ok r -> r = acc ++ (es ≫= edge_parameters).
Proof.
  revert acc. induction es as [|d es IH]; intros acc; cbn [validate_edges].
  - intros [= <-]. by rewrite app_nil_r.
  - destruct (for_each _ (edge_input_config d)) as [[]|e']; cbn [rbind]; [|done].
    intros ->%IH. csimpl. by rewrite <- app_assoc.
Qed.

Lemma validate_inputs_config_Ok (data : input_data_t) h p task k :
  validate_inputs_config data h p = Ok tt ->
  task ∈ _nodes p ->
  component_inputs (component task) !! k = Some false ->
  k ∈ supplied_keys (name task) data h \/ k ∈ mapped_parameters (name task) p.
Proof.
  unfold validate_inputs_config. intros Hval Htask Hk.
  pose proof (for_each_Ok _ _ task Hval Htask) as Hone. cbn beta in Hone.
  unfold validate_inputs_config_for_task in Hone.
  destruct (validate_edges _ _ p) as [actual|e'] eqn:Hedges; cbn [rbind] in Hone; [|done].
  apply validate_edges_Ok in Hedges as ->.
  case_decide as Hdiff; [|done].
  apply elem_of_app. apply (elem_of_list_to_set (C := gset string)).
  apply dec_stable. intros Hnot.
  assert (k ∈ dom (filter (fun item : string * bool => item.2 = false)
                     (component_inputs (component task)))
              ∖ list_to_set (C := gset string)
                  (supplied_keys (name task) data h ++
                   (previous_edges (name task) p ≫= edge_parameters))) as Hin.
  { apply elem_of_difference. split; [|done].
    apply elem_of_dom. exists false. by apply map_lookup_filter_Some. }
  rewrite Hdiff in Hin. by apply elem_of_empty in Hin.
Qed.

Lemma bind_fmap_fst {A B C} (f : A -> list (B * C)) (l : list A) :
  (l ≫= f).*1 = l ≫= (fun a => (f a).*1).
Proof.
  induction l as [|a l IH]; csimpl; [done|]. by rewrite fmap_app, IH.
Qed.

Lemma get_input_config_for_task_keys p task cfg k :
  wf_pipeline p ->
  get_input_config_for_task task p = Ok cfg ->
  k ∈ mapped_parameters (name task) p -> exists m, (k, m) ∈ cfg.
Proof.
  intros Hwf. rewrite (get_input_config_for_task_spec p task Hwf).
  case_decide; [|done]. intros [= <-] Hk.
  unfold mapped_parameters, edge_parameters in Hk.
  rewrite <- (bind_fmap_fst edge_input_config) in Hk. fold (incoming_config (name task) p) in Hk.
  destruct (last_assigned k (incoming_config (name task) p)) as [m|] eqn:Hlast.
  - exists m. apply dict_get_Some_in. by rewrite dict_get_update, Hlast.
  - by apply last_assigned_None in Hlast.
Qed.

Lemma get_input_config_for_task_from_edge p task cfg k m :
  wf_pipeline p ->
  get_input_config_for_task task p = Ok cfg ->
  (k, m) ∈ cfg ->
  exists d, d ∈ previous_edges (name task) p /\ (k, m) ∈ edge_input_config d.
Proof.
  intros Hwf Hcfg Hin.
  pose proof (get_input_config_for_task_nodup _ _ _ Hcfg) as Hnd.
  revert Hcfg. rewrite (get_input_config_for_task_spec p task Hwf).
  case_decide; [|done]. intros [= <-].
  apply (dict_get_in _ _ _ Hnd) in Hin. rewrite dict_get_update in Hin.
  destruct (last_assigned k (incoming_config (name task) p)) as [m'|] eqn:Hlast; [|done].
  injection Hin as ->. apply last_assigned_in in Hlast.
  unfold incoming_config in Hlast. apply list_elem_of_bind in Hlast as (d & Hkm & Hd).
  by exists d.
Qed.

(** The keyword arguments of a call that starts. *)
Lemma run_task_begin_kwargs n (data : input_data_t) w kwargs w' :
  run_task_begin n data w = (Ok (Some kwargs), w') ->
  exists task cfg,
    find_node n (_nodes (pipeline w)) = Some task /\
    get_input_config_for_task task (pipeline w) = Ok cfg /\
    Forall (fun item => exists v, resolved (_store (pipeline w)) item.2 = Ok v) cfg /\
    kwargs = overlay (_store (pipeline w))
               (match data !! n with Some l0 => deref l0 w | None => ∅ end) cfg.
Proof.
  intros (task & cfg & l & w1 & Hfind & Hcfg & Hin & -> & _)%run_task_begin_inputs.
  exists task, cfg. split; [done|]. split; [done|].
  pose proof (get_component_inputs_inv _ _ _ _ _ _ Hin) as Hres.
  split; [done|].
  destruct (get_component_inputs_ok n cfg data w
              (get_input_config_for_task_nodup _ _ _ Hcfg) Hres)
    as (l' & w'' & Hin' & _ & _ & _ & Hderef & _).
  rewrite Hin in Hin'. by injection Hin' as -> ->.
Qed.

Lemma overlay_is_Some st d cfg k :
  NoDup cfg.*1 ->
  Forall (fun item => exists v, resolved st item.2 = Ok v) cfg ->
  is_Some (d !! k) \/ k ∈ cfg.*1 -> is_Some (overlay st d cfg !! k).
Proof.
  intros Hnd Hres Hk.
  destruct (decide (k ∈ cfg.*1)) as [Hin|Hnotin].
  - apply list_elem_of_fmap in Hin as ([k' m] & -> & Hin).
    rewrite Forall_forall in Hres. destruct (Hres _ Hin) as [v Hv].
    exists v. by apply (overlay_lookup st cfg d k' m).
  - rewrite overlay_lookup_other by done. by destruct Hk.
Qed.

(** X14. Validation does what it is for: when [validate_inputs_config] has
    passed, every call of a component made during the run that follows
    carries a value for each input the component declares without a default,
    whether the value came from the caller or from an edge. *)
Theorem validated_run_supplies_mandatory_inputs (input_data : input_data_t)
    (w : World) (evs : list event) (s : Sched) :
  wf_pipeline (pipeline w) ->
  validate_inputs_config input_data (heap w) (pipeline w) = Ok tt ->
  run_events input_data evs
    (orchestrator_start (with_pipeline (reinitialize (pipeline w)) w)) = Continue s ->
  forall n kwargs c k,
    (n, kwargs) ∈ invoked s ->
    component_of n (pipeline w) = Some c ->
    component_inputs c !! k = Some false ->
    is_Some (kwargs !! k).
Proof.
  intros Hwf Hval.
  pose proof (wf_reinitialize _ Hwf) as Hwf1.
  set (p0 := reinitialize (pipeline w)).
  set (good := fun s : Sched => forall n kwargs c k,
         (n, kwargs) ∈ invoked s -> component_of n (pipeline w) = Some c ->
         component_inputs c !! k = Some false -> is_Some (kwargs !! k)).
  assert (forall evs s s',
            run_invariant p0 s -> run_store_invariant (heap w) s -> good s ->
            run_events input_data evs s = Continue s' -> good s') as Hgen.
  { clear evs s. intros evs. induction evs as [|ev evs IH]; intros s s' Hinv Hsto Hgood;
      cbn [run_events]; [by intros [= <-]|].
    destruct (step input_data ev s) as [| |s1] eqn:Hstep; [done..|].
    apply (IH s1).
    - by apply (run_invariant_step p0 Hwf1 input_data ev s).
    - by apply (run_store_invariant_step p0 Hwf1 input_data (heap w) ev s).
    - clear IH. pose proof (run_invariant_wf p0 Hwf1 s Hinv) as Hwfs.
      destruct ev as [n|n]; cbn [step] in Hstep.
      + case_decide as Hpend; [|done].
        destruct (run_task_begin n input_data (world s)) as [[[kwargs|]|e] w'] eqn:Hrun;
          [| |done]; injection Hstep as <-; [|exact Hgood].
        intros m kw c k [Hin|Hin%list_elem_of_singleton]%elem_of_app; [by apply Hgood|].
        injection Hin as -> ->. intros Hc Hk.
        apply run_task_begin_kwargs in Hrun as (task & cfg & Hfind & Hcfg & Hres & ->).
        destruct (find_node_Some _ _ _ Hfind) as [Hname _].
        apply overlay_is_Some;
          [by apply (get_input_config_for_task_nodup _ _ _ Hcfg)|done|].
        assert (exists t0, t0 ∈ _nodes (pipeline w) /\ name t0 = n /\ component t0 = c)
          as (t0 & Ht0 & Hn0 & Hc0).
        { unfold component_of in Hc.
          destruct (find_node n (_nodes (pipeline w))) as [t0|] eqn:Ht0; [|done].
          injection Hc as <-. exists t0. by destruct (find_node_Some _ _ _ Ht0). }
        subst c.
        destruct (validate_inputs_config_Ok _ _ _ t0 k Hval Ht0 Hk) as [Hsup|Hmap].
        * left. rewrite Hn0 in Hsup. unfold supplied_keys in Hsup.
          destruct (input_data !! n) as [l0|]; [|by apply elem_of_nil in Hsup].
          apply elem_of_elements in Hsup.
          apply (inv_heap_grows _ _ Hsto l0) in Hsup. by apply elem_of_dom in Hsup.
        * right. rewrite Hn0 in Hmap.
          assert (k ∈ mapped_parameters (name task) (pipeline (world s))) as Hmap'.
          { rewrite Hname. unfold mapped_parameters.
            rewrite (previous_edges_ext n (pipeline w)); [done|].
            by rewrite (inv_edges _ _ Hinv). }
          destruct (get_input_config_for_task_keys _ task cfg k Hwfs Hcfg Hmap')
            as [m Hm].
          apply list_elem_of_fmap. by exists (k, m).
      + destruct (find_inflight n (inflight s)) as [kwargs|]; [|done].
        destruct (run_task_finish n kwargs (world s)) as [[nexts|e] w']; [|done].
        injection Hstep as <-. exact Hgood. }
  intros Hrun. apply (Hgen evs _ s (run_invariant_start _ w Hwf)
                        (run_store_invariant_start _ w)); [|done].
  intros n kwargs c k Hin. by apply elem_of_nil in Hin.
Qed.

(** ** A run of an acyclic pipeline executes every task *)

Lemma acyclic_finished p :
  wf_pipeline p -> is_cyclic p = false ->
  exists l, finished (successors p) l /\ forall n, n ∈ node_names p -> n ∈ l.
Proof.
  intros Hwf. unfold is_cyclic.
  destruct (dfs_all _ _ _ _ _) as [[] black'] eqn:Hrun; simpl; [done|]. intros _.
  destruct (dfs_no_cycle (successors p) (S (length (_nodes p)))) as [_ Ha].
  destruct (Ha _ _ _ _ (finished_nil _) Hrun) as (Hfin & Hall & _).
  by exists black'.
Qed.

Lemma finished_suffix succ l1 l2 : finished succ (l1 ++ l2) -> finished succ l2.
Proof.
  induction l1 as [|a l1 IH]; cbn [app]; [done|].
  intros Hfin. inversion Hfin; subst. by apply IH.
Qed.

(** In the order of [finished] the predecessors of a node come before it. *)
Lemma finished_pred_before succ l1 y l2 x :
  finished succ (l1 ++ y :: l2) -> y ∈ succ x -> x ∈ l1 ++ y :: l2 -> x ∈ l1.
Proof.
  induction l1 as [|a l1 IH]; cbn [app]; intros Hfin Hxy Hx.
  - exfalso. inversion Hfin as [|b l Hl Hnotin Hsucc]; subst.
    apply elem_of_cons in Hx as [->|Hx].
    + by apply Hnotin, Hsucc.
    + by apply Hnotin, (finished_closed succ l2 x y).
  - apply elem_of_cons in Hx as [->|Hx]; [left|].
    right. inversion Hfin; subst. by apply IH.
Qed.

Lemma at_rest_all_done p0 s :
  wf_pipeline p0 -> is_cyclic p0 = false ->
  run_invariant p0 s -> quiescent s = true ->
  forall n, n ∈ node_names p0 -> status_of n (pipeline (world s)) = Some DONE.
Proof.
  intros Hwf Hacyc Hinv Hq.
  apply bool_decide_eq_true in Hq as [Hpend Hfl].
  destruct (acyclic_finished p0 Hwf Hacyc) as (l & Hfin & Hall).
  pose proof (run_invariant_wf p0 Hwf s Hinv) as Hwfs.
  assert (forall l1 l2, l = l1 ++ l2 ->
            forall n, n ∈ l1 -> n ∈ node_names p0 ->
                      status_of n (pipeline (world s)) = Some DONE) as Hprefix.
  { intros l1. induction l1 as [|y l1 IH] using rev_ind; intros l2 Hl n Hn Hnames.
    - by apply elem_of_nil in Hn.
    - rewrite <- app_assoc in Hl. cbn [app] in Hl.
      apply elem_of_app in Hn as [Hn|Hn%list_elem_of_singleton]; [by apply (IH (y :: l2))|].
      subst n.
      assert (dependencies_done (pipeline (world s)) y) as Hdeps.
      { apply Forall_forall. intros d [Hd Hend]%previous_edges_in.
        destruct (wf_edge_endpoints _ d Hwfs Hd) as [Hstart _].
        rewrite (inv_names _ _ Hinv) in Hstart.
        apply (IH (y :: l2) Hl); [|done].
        apply (finished_pred_before (successors p0) l1 y l2).
        - by rewrite <- Hl.
        - unfold successors. apply list_elem_of_fmap. exists d. split; [done|].
          apply next_edges_in. split; [|done]. by rewrite <- (inv_edges _ _ Hinv).
        - rewrite <- Hl. by apply Hall. }
      rewrite <- (inv_names _ _ Hinv) in Hnames.
      destruct (inv_ready_scheduled _ _ Hinv y Hnames Hdeps) as [Hp|[Hr|Hd]]; [| |done].
      + rewrite Hpend in Hp. by apply elem_of_nil in Hp.
      + apply (inv_running_inflight _ _ Hinv) in Hr. rewrite Hfl in Hr.
        by apply elem_of_nil in Hr. }
  intros n Hn. apply (Hprefix l [] (eq_sym (app_nil_r l))); [by apply Hall|done].
Qed.

Lemma status_of_is_Some n p st : status_of n p = Some st -> n ∈ node_names p.
Proof.
  unfold status_of. destruct (find_node n (_nodes p)) as [t|] eqn:Hfind; [|done].
  intros _. destruct (find_node_Some _ _ _ Hfind) as [<- Ht].
  apply list_elem_of_fmap. by exists t.
Qed.

(** X15. On an acyclic pipeline every complete schedule runs the whole
    graph: when the run comes to rest every task is [DONE], its component has
    been called exactly once, and the final results have an entry for each
    leaf and for nothing else. *)
Theorem acyclic_run_executes_every_task (input_data : input_data_t) (w : World)
    (evs : list event) (s : Sched) :
  wf_pipeline (pipeline w) -> is_cyclic (pipeline w) = false ->
  run_events input_data evs
    (orchestrator_start (with_pipeline (reinitialize (pipeline w)) w)) = Continue s ->
  quiescent s = true ->
  (forall n, n ∈ node_names (pipeline w) ->
     status_of n (pipeline (world s)) = Some DONE /\
     length (filter (fun item => item.1 = n) (invoked s)) = 1) /\
  (forall n, is_Some (_final_results (pipeline (world s)) !! n) <->
             n ∈ leaves (pipeline w)) /\
  length (invoked s) = length (_nodes (pipeline w)).
Proof.
  intros Hwf Hacyc Hrun Hq.
  pose proof (wf_reinitialize _ Hwf) as Hwf1.
  pose proof (run_invariant_run_events _ Hwf1 input_data evs _ s
                (run_invariant_start _ w Hwf) Hrun) as Hinv.
  assert (forall n, n ∈ node_names (pipeline w) ->
                    status_of n (pipeline (world s)) = Some DONE) as Hdone.
  { intros n Hn. apply (at_rest_all_done (reinitialize (pipeline w))); try done.
    - by rewrite is_cyclic_reinitialize.
    - by rewrite node_names_reinitialize. }
  assert (forall n, is_leaf n (pipeline (world s)) = is_leaf n (pipeline w)) as Hleaf.
  { intros n. apply is_leaf_ext. by rewrite (inv_edges _ _ Hinv). }
  assert (forall n, n ∈ (invoked s).*1 <-> n ∈ node_names (pipeline w)) as Hcalled.
  { intros n. rewrite (inv_invoked_status _ _ Hinv). split.
    - intros [H|H]; apply status_of_is_Some in H;
        by rewrite (inv_names _ _ Hinv), node_names_reinitialize in H.
    - intros Hn. right. by apply Hdone. }
  split_and!.
  - intros n Hn. split; [by apply Hdone|].
    apply (calls_at_most_once n (invoked s) (inv_invoked_nodup _ _ Hinv)).
    by apply Hcalled.
  - intros n. unfold leaves. rewrite list_elem_of_filter. split.
    + intros [v Hv]. destruct (inv_final_sound _ _ Hinv n v Hv) as (Hl & Hd & _).
      split; [by rewrite <- Hleaf|].
      apply status_of_is_Some in Hd.
      by rewrite (inv_names _ _ Hinv), node_names_reinitialize in Hd.
    + intros [Hl Hn]. apply (inv_final_complete _ _ Hinv); [by rewrite Hleaf|].
      by apply Hdone.
  - rewrite <- (length_fmap fst (invoked s)), <- (length_fmap name (_nodes (pipeline w))).
    apply Permutation_length. apply NoDup_Permutation.
    + apply (inv_invoked_nodup _ _ Hinv).
    + apply Hwf.
    + apply Hcalled.
Qed.

(** ** A run that cannot fail *)

Section RunSucceeds.
Variable p0 : Pipeline.
Hypothesis p0_wf : wf_pipeline p0.
Variable input_data : input_data_t.
Variable h0 : gmap loc pydict.
Hypothesis p0_models : forall n c kwargs,
  component_of n p0 = Some c -> exists d, component_run c kwargs = inr (Some d).
Hypothesis p0_references : references_predecessors p0.

Lemma step_never_aborts ev s e w' :
  run_invariant p0 s -> run_store_invariant h0 s ->
  step input_data ev s <> Aborted e w'.
Proof using p0_wf p0_models p0_references.
  intros Hinv Hsto Hstep.
  pose proof (run_invariant_wf p0 p0_wf s Hinv) as Hwf.
  destruct (step_aborted p0 p0_wf input_data h0 ev s e w' Hinv Hsto Hstep)
    as [_ [(n & kwargs & c & msg & _ & _ & Hc & Hmsg & _)
          |(n & task & cfg & k & m & _ & Hpend & Hfind & Hcfg & Hkm & Hres)]].
  - rewrite (inv_components _ _ Hinv) in Hc.
    destruct (p0_models n c kwargs Hc) as [d Hd]. congruence.
  - destruct (find_node_Some _ _ _ Hfind) as [Hname _].
    destruct (get_input_config_for_task_from_edge _ task cfg k m Hwf Hcfg Hkm)
      as (d & Hd & Hitem).
    rewrite Hname in Hd.
    apply previous_edges_in in Hd as Hd'. destruct Hd' as [Hd' Hend].
    unfold references_predecessors in p0_references.
    rewrite Forall_forall in p0_references.
    rewrite (inv_edges _ _ Hinv) in Hd'.
    specialize (p0_references d Hd'). rewrite Forall_forall in p0_references.
    specialize (p0_references (k, m) Hitem). cbn [snd] in p0_references.
    apply Exists_exists in p0_references as (d0 & Hd0 & Hstart).
    rewrite Hend in Hd0.
    rewrite <- (previous_edges_ext n p0 (pipeline (world s)) (inv_edges _ _ Hinv)) in Hd0.
    destruct (inv_pending_ready _ _ Hsto n Hpend) as [_ Hdeps].
    unfold dependencies_done in Hdeps. rewrite Forall_forall in Hdeps.
    destruct (inv_store_done _ _ Hsto _ (Hdeps d0 Hd0))
      as (kw & c & out & _ & Hc & Hout & Hstore).
    rewrite (inv_components _ _ Hinv) in Hc.
    destruct (p0_models _ c kw Hc) as [dd Hdd].
    rewrite Hdd in Hout. injection Hout as <-.
    revert Hres. unfold resolved, store_get.
    destruct (parse_mapping m) as [cn fo]. cbn [fst] in Hstart. subst cn.
    rewrite Hstore. cbn [rbind saved]. by destruct fo.
Qed.

Lemma run_events_never_aborts evs s e w' :
  run_invariant p0 s -> run_store_invariant h0 s ->
  run_events input_data evs s <> Aborted e w'.
Proof using p0_wf p0_models p0_references.
  intros Hinv Hsto Hrun.
  destruct (run_events_aborted p0 p0_wf input_data h0 evs s e w' Hinv Hsto Hrun)
    as (s1 & ev & Hinv1 & Hsto1 & Hstep).
  by apply (step_never_aborts ev s1 e w').
Qed.

End RunSucceeds.

(** X16. When no component fails or returns [None] and every reference on an
    edge names a component with an edge into the same task, a validated run
    cannot raise: whatever order the event loop chooses, [run] returns a
    result, and some schedule does reach the end. *)
Theorem run_succeeds_when_components_do (input_data : input_data_t) (w : World) :
  wf_pipeline (pipeline w) ->
  components_return_models (pipeline w) ->
  references_predecessors (pipeline w) ->
  validate_inputs_config input_data (heap w) (pipeline w) = Ok tt ->
  (forall evs e w', run input_data evs w <> Some (Raise e, w')) /\
  (exists evs res w', run input_data evs w = Some (Ok res, w')).
Proof.
  intros Hwf Hmodels Hrefs Hval.
  pose proof (wf_reinitialize _ Hwf) as Hwf1.
  set (p0 := reinitialize (pipeline w)).
  assert (forall n c kwargs, component_of n p0 = Some c ->
            exists d, component_run c kwargs = inr (Some d)) as Hmodels0.
  { intros n c kwargs. unfold p0. rewrite component_of_reinitialize.
    unfold component_of.
    destruct (find_node n (_nodes (pipeline w))) as [t|] eqn:Hfind; [|done].
    intros [= <-]. apply Hmodels. by destruct (find_node_Some _ _ _ Hfind). }
  assert (references_predecessors p0) as Hrefs0 by exact Hrefs.
  pose proof (run_invariant_start _ w Hwf) as Hinv.
  pose proof (run_store_invariant_start (pipeline w) w) as Hsto.
  split.
  - intros evs e w'. unfold run. rewrite Hval.
    destruct (run_events _ _ _) as [|e2 w2|s] eqn:Hrun; [done| |by destruct (quiescent s)].
    exfalso.
    by apply (run_events_never_aborts p0 Hwf1 input_data (heap w) Hmodels0 Hrefs0
                evs _ e2 w2 Hinv Hsto).
  - destruct (run_events_total p0 Hwf1 input_data _ Hinv)
      as [evs [(e & w' & Hrun)|(s & Hrun & Hq)]].
    + exfalso.
      by apply (run_events_never_aborts p0 Hwf1 input_data (heap w) Hmodels0 Hrefs0
                  evs _ e w' Hinv Hsto).
    + exists evs. eexists _, _. unfold run. rewrite Hval. cbv zeta.
      unfold p0 in Hrun. by rewrite Hrun, Hq.
Qed.

(** ** Tasks on a cycle *)

Lemma invoked_after_path p0 h0 s x y :
  run_invariant p0 s -> run_store_invariant h0 s ->
  path (successors p0) x y ->
  forall i kwargs, invoked s !! i = Some (y, kwargs) ->
    exists j kwargs', j < i /\ invoked s !! j = Some (x, kwargs').
Proof.
  intros Hinv Hsto.
  assert (forall a b, b ∈ successors p0 a ->
            forall i kwargs, invoked s !! i = Some (b, kwargs) ->
              exists j kwargs', j < i /\ invoked s !! j = Some (a, kwargs')) as Hedge.
  { intros a b Hab i kwargs Hi.
    unfold successors in Hab. apply list_elem_of_fmap in Hab as (d & -> & Hd).
    apply next_edges_in in Hd as [Hd <-].
    apply (inv_invoked_order _ _ Hsto i (end_ d) kwargs d Hi).
    apply previous_edges_in. split; [|done]. by rewrite (inv_edges _ _ Hinv). }
  induction 1 as [a b Hab|a b c Hab _ IH]; intros i kwargs Hi.
  - by apply (Hedge a b Hab i kwargs).
  - destruct (IH i kwargs Hi) as (j & kw & Hj & Hjl).
    destruct (Hedge a b Hab j kw Hjl) as (j' & kw' & Hj' & Hjl').
    exists j', kw'. split; [lia|done].
Qed.

(** X17. A task on a cycle, or downstream of one, is never executed: in no
    state that a run can reach has its component been called, it is neither
    [RUNNING] nor [DONE], and neither store has a result for it.  Such a
    graph can come from [from_template], or from a [connect] that raised for
    the cycle and left its edge in place. *)
Theorem tasks_on_a_cycle_never_run (input_data : input_data_t) (w : World)
    (evs : list event) (s : Sched) (c n : string) :
  wf_pipeline (pipeline w) ->
  path (successors (pipeline w)) c c ->
  n = c \/ path (successors (pipeline w)) c n ->
  run_events input_data evs
    (orchestrator_start (with_pipeline (reinitialize (pipeline w)) w)) = Continue s ->
  (n ∉ (invoked s).*1) /\
  status_of n (pipeline (world s)) <> Some RUNNING /\
  status_of n (pipeline (world s)) <> Some DONE /\
  get_results_for_component n (pipeline (world s)) = Raise (KeyError n) /\
  _final_results (pipeline (world s)) !! n = None.
Proof.
  intros Hwf Hcycle Hn Hrun.
  pose proof (wf_reinitialize _ Hwf) as Hwf1.
  destruct (run_store_invariant_run_events (reinitialize (pipeline w)) Hwf1 input_data
              (heap w) evs _ s (run_invariant_start _ w Hwf)
              (run_store_invariant_start _ w) Hrun) as [Hinv Hsto].
  assert (forall i kwargs, invoked s !! i <> Some (c, kwargs)) as Hc.
  { intros i. induction (lt_wf i) as [i _ IH]. intros kwargs Hi.
    destruct (invoked_after_path _ _ s c c Hinv Hsto Hcycle i kwargs Hi)
      as (j & kw & Hj & Hjl).
    by apply (IH j Hj kw). }
  assert (n ∉ (invoked s).*1) as Hnot.
  { intros ([n' kwargs] & Hn' & [i Hi]%list_elem_of_lookup)%list_elem_of_fmap.
    cbn in Hn'. subst n'. destruct Hn as [->|Hpath].
    - by apply (Hc i kwargs).
    - destruct (invoked_after_path _ _ s c n Hinv Hsto Hpath i kwargs Hi)
        as (j & kw & _ & Hjl).
      by apply (Hc j kw). }
  assert (status_of n (pipeline (world s)) <> Some DONE) as Hnd.
  { intros Hd. apply Hnot. apply (inv_invoked_status _ _ Hinv). by right. }
  split_and!.
  - done.
  - intros Hr. apply Hnot. apply (inv_invoked_status _ _ Hinv). by left.
  - done.
  - unfold get_results_for_component, store_get.
    destruct (_store (pipeline (world s)) !! n) as [v|] eqn:Hv; [|done].
    destruct Hnd. apply (inv_store_sound _ _ Hsto). by rewrite Hv.
  - destruct (_final_results (pipeline (world s)) !! n) as [v|] eqn:Hv; [|done].
    by destruct (inv_final_sound _ _ Hinv n v Hv) as (_ & Hd & _).
Qed.

(** ** What a run does to the caller's heap *)

Lemma heap_extends_refl (data : input_data_t) w : heap_extends data w w.
Proof. by split. Qed.

Lemma heap_extends_trans (data : input_data_t) w1 w2 w3 :
  heap_extends data w1 w2 -> heap_extends data w2 w3 -> heap_extends data w1 w3.
Proof.
  intros [Hd1 Hf1] [Hd2 Hf2]. split.
  - intros l. etrans; [apply Hd1|apply Hd2].
  - intros l d Hl Hout. apply Hf2; [|done]. by apply Hf1.
Qed.

Lemma resolve_loop_frame cname l cfg w r w' :
  for_eachM (resolve_parameter cname l) cfg w = (r, w') ->
  forall l', l' <> l -> heap w' !! l' = heap w !! l'.
Proof.
  revert w. induction cfg as [|[p m] cfg IH]; intros w; cbn [for_eachM].
  - unfold pure. by intros [= _ <-].
  - unfold bind.
    destruct (resolved (_store (pipeline w)) m) as [v|e] eqn:Hres.
    + rewrite (resolve_parameter_ok _ _ _ _ v) by done. intros Hrun l' Hne.
      rewrite (IH _ Hrun l' Hne). cbn [heap]. by rewrite lookup_insert_ne.
    + rewrite (resolve_parameter_raises _ _ _ _ e) by done. by intros [= _ <-].
Qed.

Lemma get_component_inputs_frame cname cfg (data : input_data_t) w r w' :
  get_component_inputs cname cfg data w = (r, w') ->
  forall l' d, heap w !! l' = Some d -> data !! cname <> Some l' ->
               heap w' !! l' = Some d.
Proof.
  unfold get_component_inputs, bind.
  destruct (input_data_get_spec cname data w) as (l & w1 & -> & _ & _ & _ & Hw1).
  intros Hrun l' d Hl' Hout.
  assert (l' <> l /\ heap w1 !! l' = Some d) as [Hne Hl1].
  { destruct (data !! cname) as [l0|].
    - destruct Hw1 as [-> ->]. split; [congruence|done].
    - destruct Hw1 as [Hfresh Hheap].
      assert (l' <> l) by congruence.
      split; [done|]. by rewrite Hheap, lookup_insert_ne. }
  destruct (for_eachM _ _ w1) as [[[]|e] w2] eqn:Hloop;
    unfold pure in Hrun; injection Hrun as _ <-;
    by rewrite (resolve_loop_frame _ _ _ _ _ _ Hloop l' Hne).
Qed.

Lemma run_task_begin_frame n (data : input_data_t) w r w' :
  run_task_begin n data w = (r, w') -> heap_extends data w w'.
Proof.
  intros Hrun. split; [by apply (run_task_begin_heap _ _ _ _ _ Hrun)|].
  revert Hrun. unfold run_task_begin, bind, get_node, get_node_by_name.
  destruct (find_node n (_nodes (pipeline w))) as [task|]; [|by intros [= _ <-]].
  destruct (get_input_config_for_task task (pipeline w)) as [cfg|]; [|by intros [= _ <-]].
  destruct (get_component_inputs _ _ _ w) as [[l|] w1] eqn:Hin;
    pose proof (get_component_inputs_frame _ _ _ _ _ _ Hin) as Hframe.
  - unfold gets, lift.
    destruct (execute_begin_cases task) as [[-> _]|[-> _]];
      unfold put_node, modify, pure; intros [= _ <-] l' d Hl' Hout;
      by apply Hframe.
  - intros [= _ <-] l' d Hl' Hout. by apply Hframe.
Qed.

Lemma step_frame (data : input_data_t) ev s w' :
  outcome_world (step data ev s) = Some w' -> heap_extends data (world s) w'.
Proof.
  destruct ev as [n|n]; cbn [step].
  - case_decide; [|done].
    destruct (run_task_begin n data (world s)) as [[[kwargs|]|e] w1] eqn:Hrun;
      cbn [outcome_world world]; intros [= <-];
      by apply (run_task_begin_frame _ _ _ _ _ Hrun).
  - destruct (find_inflight n (inflight s)) as [kwargs|]; [|done].
    destruct (run_task_finish n kwargs (world s)) as [[nexts|e] w1] eqn:Hrun;
      cbn [outcome_world world]; intros [= <-];
      apply run_task_finish_heap in Hrun;
      (split; [intros l; unfold deref; by rewrite Hrun|intros l d; by rewrite Hrun]).
Qed.

Lemma run_events_frame (data : input_data_t) evs s w' :
  outcome_world (run_events data evs s) = Some w' -> heap_extends data (world s) w'.
Proof.
  revert s. induction evs as [|ev evs IH]; intros s; cbn [run_events].
  - cbn [outcome_world]. intros [= <-]. apply heap_extends_refl.
  - destruct (step data ev s) as [|e w1|s1] eqn:Hstep.
    + done.
    + intros Hw. apply (step_frame data ev s). by rewrite Hstep.
    + intros Hw. apply (heap_extends_trans data _ (world s1)); [|by apply IH].
      apply (step_frame data ev s). by rewrite Hstep.
Qed.

Lemma writes_only_mapped_refl (data : input_data_t) p w : writes_only_mapped data p w w.
Proof. intros l d k Hl _. by exists d. Qed.

Lemma writes_only_mapped_trans (data : input_data_t) p w1 w2 w3 :
  writes_only_mapped data p w1 w2 -> writes_only_mapped data p w2 w3 ->
  writes_only_mapped data p w1 w3.
Proof.
  intros H12 H23 l d k Hl Hk.
  destruct (H12 l d k Hl Hk) as (d2 & Hl2 & Hd2).
  destruct (H23 l d2 k Hl2 Hk) as (d3 & Hl3 & Hd3).
  exists d3. split; [done|]. by rewrite Hd3.
Qed.

Lemma resolve_loop_values cname l cfg w r w' d :
  for_eachM (resolve_parameter cname l) cfg w = (r, w') ->
  heap w !! l = Some d ->
  exists d', heap w' !! l = Some d' /\ forall k, k ∉ cfg.*1 -> d' !! k = d !! k.
Proof.
  revert w d. induction cfg as [|[p m] cfg IH]; intros w d; cbn [for_eachM].
  - unfold pure. intros [= _ <-] Hl. by exists d.
  - unfold bind.
    destruct (resolved (_store (pipeline w)) m) as [v|e] eqn:Hres.
    + rewrite (resolve_parameter_ok _ _ _ _ v) by done. intros Hrun Hl.
      destruct (IH _ (<[p := v]> d) Hrun) as (d' & Hl' & Hd').
      { cbn [heap]. rewrite lookup_insert_eq. unfold deref. by rewrite Hl. }
      exists d'. split; [done|]. intros k Hk. rewrite fmap_cons in Hk.
      apply not_elem_of_cons in Hk as [Hne Hk]. cbn in Hne.
      rewrite (Hd' k Hk). by rewrite lookup_insert_ne.
    + rewrite (resolve_parameter_raises _ _ _ _ e) by done.
      intros [= _ <-] Hl. by exists d.
Qed.

Lemma get_component_inputs_values cname cfg (data : input_data_t) w r w' l d k :
  get_component_inputs cname cfg data w = (r, w') ->
  heap w !! l = Some d ->
  (data !! cname = Some l -> k ∉ cfg.*1) ->
  exists d', heap w' !! l = Some d' /\ d' !! k = d !! k.
Proof.
  unfold get_component_inputs, bind.
  destruct (input_data_get_spec cname data w) as (l0 & w1 & -> & _ & _ & _ & Hw1).
  intros Hrun Hl Hk.
  assert (exists w2 r2, for_eachM (resolve_parameter cname l0) cfg w1 = (r2, w2) /\ w' = w2)
    as (w2 & r2 & Hloop & ->).
  { destruct (for_eachM _ _ w1) as [[[]|e] w2]; unfold pure in Hrun;
      injection Hrun as _ <-; by eexists _, _. }
  clear Hrun.
  assert (heap w1 !! l = Some d /\ (l = l0 -> data !! cname = Some l)) as [Hl1 Hsame].
  { destruct (data !! cname) as [l1|].
    - destruct Hw1 as [-> ->]. split; [done|]. by intros ->.
    - destruct Hw1 as [Hfresh Hheap].
      assert (l <> l0) by congruence.
      split; [by rewrite Hheap, lookup_insert_ne|done]. }
  destruct (decide (l = l0)) as [->|Hne].
  - destruct (resolve_loop_values _ _ _ _ _ _ d Hloop Hl1) as (d' & Hl' & Hd').
    exists d'. split; [done|]. apply Hd'. by apply Hk, Hsame.
  - exists d. split; [|done].
    by rewrite (resolve_loop_frame _ _ _ _ _ _ Hloop l Hne).
Qed.

Lemma run_task_begin_values n (data : input_data_t) w r w' l d k :
  wf_pipeline (pipeline w) ->
  run_task_begin n data w = (r, w') ->
  heap w !! l = Some d ->
  (data !! n = Some l -> k ∉ mapped_parameters n (pipeline w)) ->
  exists d', heap w' !! l = Some d' /\ d' !! k = d !! k.
Proof.
  intros Hwf. unfold run_task_begin, bind, get_node, get_node_by_name.
  destruct (find_node n (_nodes (pipeline w))) as [task|] eqn:Hfind;
    [|intros [= _ <-] Hl _; by exists d].
  destruct (find_node_Some _ _ _ Hfind) as [Hname _]. rewrite Hname.
  destruct (get_input_config_for_task task (pipeline w)) as [cfg|] eqn:Hcfg;
    [|intros [= _ <-] Hl _; by exists d].
  intros Hrun Hl Hk.
  assert (data !! n = Some l -> k ∉ cfg.*1) as Hk'.
  { intros Hn Hin. apply (Hk Hn).
    apply list_elem_of_fmap in Hin as ([k' m] & -> & Hin).
    destruct (get_input_config_for_task_from_edge _ task cfg k' m Hwf Hcfg Hin)
      as (e & He & Hitem).
    rewrite Hname in He. unfold mapped_parameters.
    apply list_elem_of_bind. exists e. split; [|done].
    unfold edge_parameters. apply list_elem_of_fmap. by exists (k', m). }
  destruct (get_component_inputs _ _ _ w) as [[l1|] w1] eqn:Hin;
    pose proof (get_component_inputs_values _ _ _ _ _ _ l d k Hin Hl Hk') as Hvals.
  - revert Hrun. unfold gets, lift.
    destruct (execute_begin_cases task) as [[-> _]|[-> _]];
      unfold put_node, modify, pure; by intros [= _ <-].
  - by injection Hrun as _ <-.
Qed.

Lemma step_values p0 (data : input_data_t) ev s w' :
  wf_pipeline p0 -> run_invariant p0 s ->
  outcome_world (step data ev s) = Some w' ->
  writes_only_mapped data p0 (world s) w'.
Proof.
  intros Hwf0 Hinv Hout l d k Hl Hk.
  pose proof (run_invariant_wf p0 Hwf0 s Hinv) as Hwf.
  destruct ev as [n|n]; cbn [step] in Hout.
  - case_decide; [|done].
    destruct (run_task_begin n data (world s)) as [r w1] eqn:Hrun.
    assert (w1 = w') as ->.
    { destruct r as [[kwargs|]|e]; cbn [outcome_world world] in Hout; congruence. }
    apply (run_task_begin_values _ _ _ _ _ l d k Hwf Hrun Hl).
    intros Hn. unfold mapped_parameters.
    rewrite (previous_edges_ext n p0); [by apply Hk|apply (inv_edges _ _ Hinv)].
  - destruct (find_inflight n (inflight s)) as [kwargs|]; [|done].
    destruct (run_task_finish n kwargs (world s)) as [r w1] eqn:Hrun.
    assert (w1 = w') as ->.
    { destruct r as [nexts|e]; cbn [outcome_world world] in Hout; congruence. }
    apply run_task_finish_heap in Hrun. exists d. by rewrite Hrun.
Qed.

Lemma run_events_values p0 (data : input_data_t) evs s w' :
  wf_pipeline p0 -> run_invariant p0 s ->
  outcome_world (run_events data evs s) = Some w' ->
  writes_only_mapped data p0 (world s) w'.
Proof.
  intros Hwf0. revert s. induction evs as [|ev evs IH]; intros s Hinv; cbn [run_events].
  - cbn [outcome_world]. intros [= <-]. apply writes_only_mapped_refl.
  - destruct (step data ev s) as [|e w1|s1] eqn:Hstep.
    + done.
    + intros Hw. apply (step_values p0 data ev s); [done..|]. by rewrite Hstep.
    + intros Hw. apply (writes_only_mapped_trans data p0 _ (world s1)).
      * apply (step_values p0 data ev s); [done..|]. by rewrite Hstep.
      * apply IH; [|done]. by apply (run_invariant_step p0 Hwf0 data ev s).
Qed.

(** X18. What [run] does to the caller's heap, whatever it returns or raises
    and under every schedule: no dictionary loses a key; a dictionary that
    [input_data] does not hold is left exactly as it was; and in a dictionary
    that [input_data] holds, a key keeps its value unless an edge maps that
    key into a component the dictionary was passed for (those keys are
    overwritten with the mapped values).  The graph of the pipeline is
    untouched by a run that returns. *)
Theorem run_writes_only_mapped_keys_of_the_dictionaries_passed
    (input_data : input_data_t) (w : World) (evs : list event)
    (r : result (gmap string value)) (w' : World) :
  run input_data evs w = Some (r, w') ->
  (forall l, dom (deref l w) ⊆ dom (deref l w')) /\
  (forall l d, heap w !! l = Some d -> (forall n, input_data !! n <> Some l) ->
     heap w' !! l = Some d) /\
  (wf_pipeline (pipeline w) ->
     (forall l d k,
        heap w !! l = Some d ->
        (forall n, input_data !! n = Some l ->
                   k ∉ mapped_parameters n (pipeline w)) ->
        exists d', heap w' !! l = Some d' /\ d' !! k = d !! k) /\
     (forall res, r = Ok res ->
        node_names (pipeline w') = node_names (pipeline w) /\
        _edges (pipeline w') = _edges (pipeline w) /\
        forall n, component_of n (pipeline w') = component_of n (pipeline w))).
Proof.
  unfold run.
  destruct (validate_inputs_config _ _ _) as [[]|e1] eqn:Hval.
  - cbv zeta.
    destruct (run_events _ _ _) as [|e2 w2|s] eqn:Hrun; [done| |].
    + intros [= <- <-].
      destruct (run_events_frame input_data evs
                  (orchestrator_start (with_pipeline (reinitialize (pipeline w)) w)) w2)
        as [Hdom Hframe]; [by rewrite Hrun|].
      split; [done|]. split; [done|]. intros Hwf. split; [|done].
      apply (run_events_values (reinitialize (pipeline w)) input_data evs
               (orchestrator_start (with_pipeline (reinitialize (pipeline w)) w)) w2
               (wf_reinitialize _ Hwf) (run_invariant_start _ w Hwf)).
      by rewrite Hrun.
    + destruct (quiescent s); [|done]. intros [= <- <-].
      destruct (run_events_frame input_data evs
                  (orchestrator_start (with_pipeline (reinitialize (pipeline w)) w))
                  (world s)) as [Hdom Hframe]; [by rewrite Hrun|].
      split; [done|]. split; [done|]. intros Hwf. split.
      * apply (run_events_values (reinitialize (pipeline w)) input_data evs
                 (orchestrator_start (with_pipeline (reinitialize (pipeline w)) w))
                 (world s) (wf_reinitialize _ Hwf) (run_invariant_start _ w Hwf)).
        by rewrite Hrun.
      * intros res _.
        pose proof (run_invariant_run_events _ (wf_reinitialize _ Hwf) input_data evs _ s
                      (run_invariant_start _ w Hwf) Hrun) as Hinv.
        split_and!.
        -- rewrite (inv_names _ _ Hinv). apply node_names_reinitialize.
        -- by rewrite (inv_edges _ _ Hinv).
        -- intros n. rewrite (inv_components _ _ Hinv). apply component_of_reinitialize.
  - intros [= <- <-]. split; [done|]. split; [done|]. intros _. split; [|done].
    intros l d k Hl _. by exists d.
Qed.

Lemma run_writes_only_mapped_keys_of_the_dictionaries_passed_witness :
  wf_pipeline (chain "P1.y") /\
  exists r w',
    run caller_data [Start "P1"; Complete "P1"; Start "P2"; Complete "P2"]
      (mkWorld (chain "P1.y") caller_heap_keep []) = Some (r, w') /\
    (forall l, dom (deref l (mkWorld (chain "P1.y") caller_heap_keep []))
               ⊆ dom (deref l w')) /\
    exists d', heap w' !! 0 = Some d' /\ d' !! "keep" = Some (VInt 7).
Proof.
  assert (wf_pipeline (chain "P1.y")) as Hwf.
  { apply (bool_decide_unpack _). vm_compute. exact I. }
  split; [exact Hwf|].
  assert (exists r w',
            run caller_data [Start "P1"; Complete "P1"; Start "P2"; Complete "P2"]
              (mkWorld (chain "P1.y") caller_heap_keep []) = Some (r, w'))
    as (r & w' & Hrun).
  { eexists _, _. vm_compute. reflexivity. }
  exists r, w'. split; [exact Hrun|].
  destruct (run_writes_only_mapped_keys_of_the_dictionaries_passed caller_data
              (mkWorld (chain "P1.y") caller_heap_keep []) _ r w' Hrun)
    as (Hdom & _ & Hvals).
  split; [exact Hdom|].
  destruct (proj1 (Hvals Hwf) 0 {["x" := VInt 1; "keep" := VInt 7]} "keep")
    as (d' & Hd' & Hkeep).
  - vm_compute. reflexivity.
  - intros n Hn. unfold caller_data in Hn.
    apply lookup_singleton_Some in Hn as [<- _].
    apply (bool_decide_unpack _). vm_compute. exact I.
  - exists d'. split; [exact Hd'|]. rewrite Hkeep. vm_compute. reflexivity.
Defined.

(** ** The result of a run and the order of its steps *)

(** Validation does not ask that a reference names a predecessor of the
    task, and then the order of the steps decides: the pipeline [crossed]
    passes validation, one schedule returns the results of the leaves and
    another raises a lookup error for the component referred to. *)
Example run_outcome_can_depend_on_the_schedule :
  validate_inputs_config ∅ ∅ crossed = Ok tt /\
  wf_pipeline crossed /\ is_cyclic crossed = false /\
  (exists res w',
     run ∅ [Start "A"; Start "B"; Complete "B"; Complete "A"; Start "C"; Complete "C"]
       (mkWorld crossed ∅ []) = Some (Ok res, w') /\
     res !! "C" = Some (VDict {["z" := VInt 5]})) /\
  (exists w',
     run ∅ [Start "A"; Complete "A"; Start "C"] (mkWorld crossed ∅ [])
     = Some (Raise (KeyError "B"), w')).
Proof.
  split; [by vm_compute|]. split; [apply (bool_decide_unpack _); by vm_compute|].
  split; [by vm_compute|]. split.
  - eexists _, _. split; by vm_compute.
  - eexists. by vm_compute.
Qed.

Lemma resolved_Ok_store st m v :
  resolved st m = Ok v -> is_Some (st !! (parse_mapping m).1).
Proof.
  unfold resolved, store_get. destruct (parse_mapping m) as [c fo]. cbn [fst].
  by destruct (st !! c).
Qed.

Lemma resolved_agree st st' m :
  st !! (parse_mapping m).1 = st' !! (parse_mapping m).1 ->
  resolved st m = resolved st' m.
Proof.
  unfold resolved, store_get. destruct (parse_mapping m) as [c fo]. cbn [fst].
  by intros ->.
Qed.

Lemma overlay_ext st st' d cfg :
  (forall item, item ∈ cfg -> resolved st item.2 = resolved st' item.2) ->
  overlay st d cfg = overlay st' d cfg.
Proof.
  unfold overlay. revert d. induction cfg as [|item cfg IH]; intros d Hext; [done|].
  cbn [foldl]. rewrite (Hext item) by left. apply IH.
  intros item' Hin. apply Hext. by right.
Qed.

Lemma task_config_ext p p' n :
  _edges p' = _edges p -> task_config p' n = task_config p n.
Proof.
  intros He. unfold task_config, incoming_config. by rewrite (previous_edges_ext n p p' He).
Qed.

Lemma run_task_begin_frame_one n (data : input_data_t) w r w' :
  run_task_begin n data w = (r, w') ->
  forall l d, heap w !! l = Some d -> data !! n <> Some l -> heap w' !! l = Some d.
Proof.
  unfold run_task_begin, bind, get_node, get_node_by_name.
  destruct (find_node n (_nodes (pipeline w))) as [task|] eqn:Hfind;
    [|by intros [= _ <-]].
  destruct (find_node_Some _ _ _ Hfind) as [Hname _]. rewrite Hname.
  destruct (get_input_config_for_task task (pipeline w)) as [cfg|]; [|by intros [= _ <-]].
  destruct (get_component_inputs _ _ _ w) as [[l|] w1] eqn:Hin;
    pose proof (get_component_inputs_frame _ _ _ _ _ _ Hin) as Hframe.
  - unfold gets, lift.
    destruct (execute_begin_cases task) as [[-> _]|[-> _]];
      unfold put_node, modify, pure; intros [= _ <-] l' d Hl' Hout;
      by apply Hframe.
  - intros [= _ <-] l' d Hl' Hout. by apply Hframe.
Qed.

Lemma run_inputs_invariant_start p w (data : input_data_t) :
  run_inputs_invariant (reinitialize p) data (heap w)
    (orchestrator_start (with_pipeline (reinitialize p) w)).
Proof.
  constructor; cbn [orchestrator_start world invoked with_pipeline heap].
  - done.
  - by intros n kwargs ?%elem_of_nil.
  - intros i n kwargs item Hi. by rewrite lookup_nil in Hi.
Qed.

Section RunInputsInvariant.
Variable p0 : Pipeline.
Hypothesis p0_wf : wf_pipeline p0.
Variable input_data : input_data_t.
Variable h0 : gmap loc pydict.
Hypothesis inputs_separate : separate_inputs input_data h0.

Lemma untouched_after_start s n r w' :
  run_inputs_invariant p0 input_data h0 s ->
  run_task_begin n input_data (world s) = (r, w') ->
  forall m l0, input_data !! m = Some l0 -> m <> n -> m ∉ (invoked s).*1 ->
               heap w' !! l0 = h0 !! l0.
Proof using inputs_separate.
  intros Hinp Hrun m l0 Hm Hne Hnot.
  destruct inputs_separate as [Halloc Hinj].
  destruct (Halloc m l0 Hm) as [d Hd].
  rewrite Hd. apply (run_task_begin_frame_one _ _ _ _ _ Hrun).
  - by rewrite (inv_untouched _ _ _ _ Hinp m l0 Hm Hnot).
  - intros Hn. apply Hne. by apply (Hinj m n l0).
Qed.

Lemma run_inputs_invariant_step ev s s' :
  run_invariant p0 s -> run_store_invariant h0 s ->
  run_inputs_invariant p0 input_data h0 s ->
  step input_data ev s = Continue s' ->
  run_inputs_invariant p0 input_data h0 s'.
Proof using p0_wf inputs_separate.
  intros Hinv Hsto Hinp.
  pose proof (run_invariant_wf p0 p0_wf s Hinv) as Hwf.
  destruct ev as [n|n]; cbn [step].
  - case_decide as Hpend; [|done].
    destruct (run_task_begin n input_data (world s)) as [[[kwargs|]|e] w'] eqn:Hrun;
      [| |done]; intros [= <-].
    + pose proof (untouched_after_start s n _ w' Hinp Hrun) as Huntouched.
      pose proof (run_task_begin_cases _ _ _ _ _ Hrun)
        as (task0 & cfg0 & Hfind0 & _ & Hp' & Hnr & Hnd).
      assert (_store (pipeline w') = _store (pipeline (world s))) as Hstore.
      { rewrite Hp'.
        by destruct (stores_set_node_status n RUNNING _ task0 Hfind0) as [-> _]. }
      assert (n ∉ (invoked s).*1) as Hn_new.
      { intros Hin. apply (inv_invoked_status _ _ Hinv) in Hin.
        rewrite (status_of_node _ _ _ Hfind0) in Hin.
        destruct Hin as [[= ?]|[= ?]]; done. }
      apply run_task_begin_kwargs in Hrun as (task & cfg & Hfind & Hcfg & Hres & Hkw).
      destruct (find_node_Some _ _ _ Hfind) as [Hname _].
      assert (cfg = task_config p0 n) as ->.
      { revert Hcfg. rewrite (get_input_config_for_task_spec _ task Hwf).
        case_decide; [|done]. intros [= <-]. rewrite Hname.
        apply (task_config_ext p0). apply (inv_edges _ _ Hinv). }
      assert (match input_data !! n with
              | Some l0 => deref l0 (world s)
              | None => ∅
              end = user_inputs input_data h0 n) as Huser.
      { unfold user_inputs, deref. destruct (input_data !! n) as [l0|] eqn:Hl0; [|done].
        by rewrite (inv_untouched _ _ _ _ Hinp n l0 Hl0 Hn_new). }
      rewrite Huser in Hkw.
      constructor; cbn [world invoked].
      * intros m l0 Hm Hnot. rewrite fmap_app, not_elem_of_app in Hnot.
        destruct Hnot as [Hnot Hne]. apply (Huntouched m l0 Hm); [|done].
        intros ->. apply Hne. cbn. apply list_elem_of_here.
      * intros m kw [Hin|Hin%list_elem_of_singleton]%elem_of_app; rewrite Hstore.
        -- by apply (inv_kwargs _ _ _ _ Hinp).
        -- by injection Hin as -> ->.
      * intros i m kw item Hi Hitem.
        destruct (decide (i < length (invoked s))) as [Hlt|Hge].
        -- rewrite lookup_app_l in Hi by done.
           destruct (inv_references_before _ _ _ _ Hinp i m kw item Hi Hitem)
             as (j & kw' & Hj & Hjl).
           exists j, kw'. split; [done|]. rewrite lookup_app_l; [done|lia].
        -- rewrite lookup_app_r in Hi by lia.
           apply list_lookup_singleton_Some in Hi as [_ [= <- <-]].
           rewrite Forall_forall in Hres. destruct (Hres item Hitem) as [v Hv].
           apply resolved_Ok_store in Hv.
           apply (inv_store_sound _ _ Hsto (parse_mapping item.2).1) in Hv.
           assert ((parse_mapping item.2).1 ∈ (invoked s).*1) as Hin.
           { apply (inv_invoked_status _ _ Hinv). by right. }
           apply list_elem_of_fmap in Hin as ([c kw'] & Hc & Hin). cbn in Hc. subst c.
           apply list_elem_of_lookup in Hin as [j Hj].
           exists j, kw'. pose proof (lookup_lt_Some _ _ _ Hj).
           split; [lia|]. by rewrite lookup_app_l.
    + pose proof (untouched_after_start s n _ w' Hinp Hrun) as Huntouched.
      apply run_task_begin_cases in Hrun as (task & cfg & Hfind & _ & Hp' & Hst).
      assert (n ∈ (invoked s).*1) as Hn_old.
      { apply (inv_invoked_status _ _ Hinv).
        rewrite (status_of_node _ _ _ Hfind). destruct Hst as [-> | ->]; auto. }
      constructor; cbn [world invoked]; rewrite ?Hp'.
      * intros m l0 Hm Hnot. apply (Huntouched m l0 Hm); [|done]. by intros ->.
      * apply (inv_kwargs _ _ _ _ Hinp).
      * apply (inv_references_before _ _ _ _ Hinp).
  - destruct (find_inflight n (inflight s)) as [kwargs|] eqn:Hfl; [|done].
    destruct (run_task_finish n kwargs (world s)) as [[nexts|e] w'] eqn:Hrun; [|done].
    intros [= <-].
    apply find_inflight_Some in Hfl.
    pose proof (inv_inflight_running _ _ Hinv n kwargs Hfl) as Hrunning.
    apply run_task_finish_cases in Hrun
      as (task & out & ys & Hfind & Hout & Hnd & Hp' & Hheap & _ & _).
    assert (_store (pipeline w') = <[n := saved out]> (_store (pipeline (world s))))
      as Hstore.
    { rewrite Hp'. unfold add_result_for_component, store_add. cbn [_store with_stores].
      by destruct (stores_set_node_status n DONE _ task Hfind) as [-> _]. }
    assert (_store (pipeline (world s)) !! n = None) as Hfresh.
    { destruct (_store (pipeline (world s)) !! n) as [v|] eqn:Hv; [|done].
      assert (status_of n (pipeline (world s)) = Some DONE) as Hd.
      { apply (inv_store_sound _ _ Hsto). by rewrite Hv. }
      congruence. }
    assert (forall m v, resolved (_store (pipeline (world s))) m = Ok v ->
                        resolved (_store (pipeline w')) m = Ok v) as Hmono.
    { intros m v Hv. rewrite <- Hv. symmetry. apply resolved_agree.
      rewrite Hstore. apply resolved_Ok_store in Hv.
      rewrite lookup_insert_ne; [done|]. intros Heq. rewrite <- Heq, Hfresh in Hv.
      by destruct Hv. }
    constructor; cbn [world invoked].
    + intros m l0 Hm Hnot. rewrite Hheap.
      exact (inv_untouched _ _ _ _ Hinp m l0 Hm Hnot).
    + intros m kw Hin.
      destruct (inv_kwargs _ _ _ _ Hinp m kw Hin) as [Hres Hkw].
      split.
      * eapply Forall_impl; [exact Hres|]. intros item [v Hv]. exists v. by apply Hmono.
      * rewrite Hkw. apply overlay_ext. intros item Hitem.
        rewrite Forall_forall in Hres. destruct (Hres item Hitem) as [v Hv].
        by rewrite Hv, (Hmono _ _ Hv).
    + apply (inv_references_before _ _ _ _ Hinp).
Qed.

Lemma run_inputs_invariant_run_events evs s s' :
  run_invariant p0 s -> run_store_invariant h0 s ->
  run_inputs_invariant p0 input_data h0 s ->
  run_events input_data evs s = Continue s' ->
  run_invariant p0 s' /\ run_store_invariant h0 s' /\
  run_inputs_invariant p0 input_data h0 s'.
Proof using p0_wf inputs_separate.
  revert s. induction evs as [|ev evs IH]; intros s Hinv Hsto Hinp; cbn [run_events].
  - by intros [= <-].
  - destruct (step input_data ev s) as [| |s1] eqn:Hstep; [done..|].
    apply IH.
    + by apply (run_invariant_step p0 p0_wf input_data ev s).
    + by apply (run_store_invariant_step p0 p0_wf input_data h0 ev s).
    + by apply (run_inputs_invariant_step ev s).
Qed.

(** Two states at rest of runs from the same start agree on every call made
    in the first. *)
Lemma calls_agree s1 s2 :
  is_cyclic p0 = false ->
  run_invariant p0 s1 -> run_store_invariant h0 s1 ->
  run_inputs_invariant p0 input_data h0 s1 ->
  run_invariant p0 s2 -> run_store_invariant h0 s2 ->
  run_inputs_invariant p0 input_data h0 s2 ->
  quiescent s1 = true -> quiescent s2 = true ->
  forall i n kwargs, invoked s1 !! i = Some (n, kwargs) ->
    (n, kwargs) ∈ invoked s2 /\
    _store (pipeline (world s1)) !! n = _store (pipeline (world s2)) !! n.
Proof using p0_wf.
  intros Hacyc Hinv1 Hsto1 Hinp1 Hinv2 Hsto2 Hinp2 Hq1 Hq2 i.
  induction (lt_wf i) as [i _ IH]. intros n kwargs Hi.
  assert ((n, kwargs) ∈ invoked s1) as Hin1 by by apply list_elem_of_lookup_2 in Hi.
  assert (n ∈ (invoked s1).*1) as Hn1.
  { apply list_elem_of_fmap. by exists (n, kwargs). }
  assert (n ∈ node_names p0) as Hname.
  { apply (inv_invoked_status _ _ Hinv1) in Hn1.
    destruct Hn1 as [H|H]; apply status_of_is_Some in H;
      by rewrite (inv_names _ _ Hinv1) in H. }
  pose proof (at_rest_all_done p0 s1 p0_wf Hacyc Hinv1 Hq1 n Hname) as Hdone1.
  pose proof (at_rest_all_done p0 s2 p0_wf Hacyc Hinv2 Hq2 n Hname) as Hdone2.
  destruct (inv_store_done _ _ Hsto2 n Hdone2) as (kw2 & c2 & out2 & Hin2 & Hc2 & Hout2 & Hs2).
  destruct (inv_kwargs _ _ _ _ Hinp1 n kwargs Hin1) as [Hres1 Hkw1].
  destruct (inv_kwargs _ _ _ _ Hinp2 n kw2 Hin2) as [Hres2 Hkw2].
  assert (kwargs = kw2) as <-.
  { rewrite Hkw1, Hkw2. apply overlay_ext. intros item Hitem.
    destruct (inv_references_before _ _ _ _ Hinp1 i n kwargs item Hi Hitem)
      as (j & kw' & Hj & Hjl).
    apply resolved_agree. by apply (IH j Hj _ kw'). }
  split; [done|].
  destruct (inv_store_done _ _ Hsto1 n Hdone1)
    as (kw1 & c1 & out1 & Hin1' & Hc1 & Hout1 & Hs1).
  assert ((n, kw1) = (n, kwargs)) as Heq.
  { by apply (NoDup_fmap_eq fst (invoked s1) _ _ (inv_invoked_nodup _ _ Hinv1)). }
  injection Heq as ->.
  rewrite (inv_components _ _ Hinv1) in Hc1. rewrite (inv_components _ _ Hinv2) in Hc2.
  rewrite Hs1, Hs2. congruence.
Qed.

End RunInputsInvariant.

Lemma final_result_is_stored p0 h0 s n v :
  run_invariant p0 s -> run_store_invariant h0 s ->
  _final_results (pipeline (world s)) !! n = Some v ->
  _store (pipeline (world s)) !! n = Some v.
Proof.
  intros Hinv Hsto Hv.
  destruct (inv_final_sound _ _ Hinv n v Hv)
    as (_ & Hdone & kwargs & c & out & Hin & Hc & Hout & ->).
  destruct (inv_store_done _ _ Hsto n Hdone) as (kw' & c' & out' & Hin' & Hc' & Hout' & Hs).
  assert ((n, kw') = (n, kwargs)) as Heq.
  { by apply (NoDup_fmap_eq fst (invoked s) _ _ (inv_invoked_nodup _ _ Hinv)). }
  injection Heq as ->. rewrite Hs. congruence.
Qed.

(** X19. On an acyclic pipeline, when the dictionaries of [input_data] exist
    and no two components share one, the order in which the event loop takes
    the steps does not show in the outcome: two schedules that both run to
    the end leave the same final results, the same result store, and have
    called every component on the same keyword arguments. *)
Theorem run_result_is_independent_of_the_schedule (input_data : input_data_t)
    (w : World) (evs1 evs2 : list event) (s1 s2 : Sched) :
  wf_pipeline (pipeline w) -> is_cyclic (pipeline w) = false ->
  separate_inputs input_data (heap w) ->
  run_events input_data evs1
    (orchestrator_start (with_pipeline (reinitialize (pipeline w)) w)) = Continue s1 ->
  quiescent s1 = true ->
  run_events input_data evs2
    (orchestrator_start (with_pipeline (reinitialize (pipeline w)) w)) = Continue s2 ->
  quiescent s2 = true ->
  _final_results (pipeline (world s1)) = _final_results (pipeline (world s2)) /\
  _store (pipeline (world s1)) = _store (pipeline (world s2)) /\
  (forall item, item ∈ invoked s1 <-> item ∈ invoked s2).
Proof.
  intros Hwf Hacyc Hsep Hrun1 Hq1 Hrun2 Hq2.
  pose proof (wf_reinitialize _ Hwf) as Hwf1.
  set (p0 := reinitialize (pipeline w)) in *.
  assert (is_cyclic p0 = false) as Hacyc0 by by (unfold p0; rewrite is_cyclic_reinitialize).
  destruct (run_inputs_invariant_run_events p0 Hwf1 input_data (heap w) Hsep evs1 _ s1
              (run_invariant_start _ w Hwf) (run_store_invariant_start _ w)
              (run_inputs_invariant_start _ w input_data) Hrun1)
    as (Hinv1 & Hsto1 & Hinp1).
  destruct (run_inputs_invariant_run_events p0 Hwf1 input_data (heap w) Hsep evs2 _ s2
              (run_invariant_start _ w Hwf) (run_store_invariant_start _ w)
              (run_inputs_invariant_start _ w input_data) Hrun2)
    as (Hinv2 & Hsto2 & Hinp2).
  pose proof (calls_agree p0 Hwf1 input_data (heap w) s1 s2 Hacyc0
                Hinv1 Hsto1 Hinp1 Hinv2 Hsto2 Hinp2 Hq1 Hq2) as H12.
  pose proof (calls_agree p0 Hwf1 input_data (heap w) s2 s1 Hacyc0
                Hinv2 Hsto2 Hinp2 Hinv1 Hsto1 Hinp1 Hq2 Hq1) as H21.
  assert (forall s, run_invariant p0 s -> run_store_invariant (heap w) s ->
            forall n, n ∉ node_names p0 -> _store (pipeline (world s)) !! n = None)
    as Hnone.
  { intros s Hinv Hsto n Hn.
    destruct (_store (pipeline (world s)) !! n) as [v|] eqn:Hv; [|done].
    destruct Hn. rewrite <- (inv_names _ _ Hinv).
    apply (status_of_is_Some n _ DONE). apply (inv_store_sound _ _ Hsto). by rewrite Hv. }
  assert (_store (pipeline (world s1)) = _store (pipeline (world s2))) as Hstore.
  { apply map_eq. intros n.
    destruct (decide (n ∈ node_names p0)) as [Hn|Hn].
    - pose proof (at_rest_all_done p0 s1 Hwf1 Hacyc0 Hinv1 Hq1 n Hn) as Hdone.
      assert (n ∈ (invoked s1).*1) as Hin.
      { apply (inv_invoked_status _ _ Hinv1). by right. }
      apply list_elem_of_fmap in Hin as ([n' kwargs] & Hn' & [i Hi]%list_elem_of_lookup).
      cbn in Hn'. subst n'. by destruct (H12 i n kwargs Hi).
    - by rewrite (Hnone s1 Hinv1 Hsto1 n Hn), (Hnone s2 Hinv2 Hsto2 n Hn). }
  assert (forall sa sb,
            run_invariant p0 sa -> run_store_invariant (heap w) sa ->
            run_invariant p0 sb -> quiescent sb = true ->
            forall n v, _final_results (pipeline (world sa)) !! n = Some v ->
                        is_Some (_final_results (pipeline (world sb)) !! n)) as Hsome.
  { intros sa sb Hinva Hstoa Hinvb Hqb n v Hv.
    destruct (inv_final_sound _ _ Hinva n v Hv) as (Hleaf & Hdone & _).
    apply (inv_final_complete _ _ Hinvb).
    - rewrite <- Hleaf. apply is_leaf_ext.
      by rewrite (inv_edges _ _ Hinva), (inv_edges _ _ Hinvb).
    - apply (at_rest_all_done p0 sb Hwf1 Hacyc0 Hinvb Hqb).
      rewrite <- (inv_names _ _ Hinva). by apply (status_of_is_Some n _ DONE). }
  split_and!.
  - apply map_eq. intros n.
    destruct (_final_results (pipeline (world s1)) !! n) as [v1|] eqn:Hv1;
      destruct (_final_results (pipeline (world s2)) !! n) as [v2|] eqn:Hv2.
    + apply (final_result_is_stored p0 (heap w) s1 n v1 Hinv1 Hsto1) in Hv1.
      apply (final_result_is_stored p0 (heap w) s2 n v2 Hinv2 Hsto2) in Hv2.
      congruence.
    + destruct (Hsome s1 s2 Hinv1 Hsto1 Hinv2 Hq2 n v1 Hv1) as [v2 Hv2']. congruence.
    + destruct (Hsome s2 s1 Hinv2 Hsto2 Hinv1 Hq1 n v2 Hv2) as [v1 Hv1']. congruence.
    + done.
  - done.
  - intros [n kwargs]. split.
    + intros [i Hi]%list_elem_of_lookup. by destruct (H12 i n kwargs Hi).
    + intros [i Hi]%list_elem_of_lookup. by destruct (H21 i n kwargs Hi).
Qed.

Lemma run_result_is_independent_of_the_schedule_witness :
  wf_pipeline diamond /\ is_cyclic diamond = false /\ separate_inputs ∅ ∅ /\
  exists s1 s2,
    run_events ∅ [Start "A"; Start "B"; Complete "A"; Complete "B"; Start "C"; Complete "C"]
      (orchestrator_start (mkWorld (reinitialize diamond) ∅ [])) = Continue s1 /\
    run_events ∅ [Start "B"; Complete "B"; Start "A"; Complete "A"; Start "C"; Complete "C"]
      (orchestrator_start (mkWorld (reinitialize diamond) ∅ [])) = Continue s2 /\
    _final_results (pipeline (world s1)) = _final_results (pipeline (world s2)).
Proof.
  assert (wf_pipeline diamond) as Hwf.
  { apply (bool_decide_unpack _). vm_compute. exact I. }
  assert (is_cyclic diamond = false) as Hacyc by (vm_compute; reflexivity).
  assert (separate_inputs ∅ ∅) as Hsep.
  { split; intros n; intros; rewrite lookup_empty in *; discriminate. }
  split; [exact Hwf|]. split; [exact Hacyc|]. split; [exact Hsep|].
  assert (exists s1,
            run_events ∅ [Start "A"; Start "B"; Complete "A"; Complete "B";
                          Start "C"; Complete "C"]
              (orchestrator_start (mkWorld (reinitialize diamond) ∅ []))
            = Continue s1 /\ quiescent s1 = true) as (s1 & Hrun1 & Hq1).
  { eexists. split; vm_compute; reflexivity. }
  assert (exists s2,
            run_events ∅ [Start "B"; Complete "B"; Start "A"; Complete "A";
                          Start "C"; Complete "C"]
              (orchestrator_start (mkWorld (reinitialize diamond) ∅ []))
            = Continue s2 /\ quiescent s2 = true) as (s2 & Hrun2 & Hq2).
  { eexists. split; vm_compute; reflexivity. }
  exists s1, s2. split; [exact Hrun1|]. split; [exact Hrun2|].
  exact (proj1 (run_result_is_independent_of_the_schedule ∅ (mkWorld diamond ∅ [])
                  _ _ s1 s2 Hwf Hacyc Hsep Hrun1 Hq1 Hrun2 Hq2)).
Defined.

(** ** The further properties on the example pipelines *)

Lemma get_input_config_for_task_merges_edges_witness :
  wf_pipeline chain_P1_done /\
  exists cfg,
    get_input_config_for_task (new_task "P2" component_P2) chain_P1_done = Ok cfg /\
    NoDup cfg.*1 /\ dict_get "x" cfg = Some "P1.y".
Proof.
  assert (wf_pipeline chain_P1_done) as Hwf.
  { apply (bool_decide_unpack _). vm_compute. exact I. }
  split; [exact Hwf|].
  destruct (get_input_config_for_task_merges_edges chain_P1_done
              (new_task "P2" component_P2) Hwf) as (_ & _ & Hex & Hok).
  destruct Hex as [cfg Hcfg].
  { apply (bool_decide_unpack _). vm_compute. exact I. }
  exists cfg. split; [exact Hcfg|].
  destruct (Hok cfg Hcfg) as (Hnd & Hget & _).
  split; [exact Hnd|]. rewrite Hget. vm_compute. reflexivity.
Defined.

Lemma next_yields_tasks_with_input_config_witness :
  wf_pipeline chain_P1_done /\
  exists cfg, get_input_config_for_task (new_task "P2" component_P2) chain_P1_done = Ok cfg.
Proof.
  assert (wf_pipeline chain_P1_done) as Hwf.
  { apply (bool_decide_unpack _). vm_compute. exact I. }
  split; [exact Hwf|].
  apply (proj1 (next_yields_tasks_with_input_config chain_P1_done
                  (new_task "P2" component_P2) Hwf)).
  vm_compute. reflexivity.
Defined.

Lemma connect_keeps_one_edge_per_pair_witness :
  NoDup (edge_keys (chain "P1.y")) /\
  NoDup (edge_keys (connect "P1" "P2" None (chain "P1.y")).2).
Proof.
  assert (NoDup (edge_keys (chain "P1.y"))) as Hnd.
  { apply (bool_decide_unpack _). vm_compute. exact I. }
  split; [exact Hnd|].
  exact (proj1 (connect_keeps_one_edge_per_pair (chain "P1.y") "P1" "P2" None
                  (connect "P1" "P2" None (chain "P1.y")).1
                  (connect "P1" "P2" None (chain "P1.y")).2
                  Hnd (surjective_pairing _))).
Defined.

Lemma connect_never_recovers_from_cycle_witness :
  wf_pipeline two_cycle /\ is_cyclic two_cycle = true /\
  (connect "A" "B" (Some [("x", "A.y")]) two_cycle).1 = Raise PipelineDefinitionError.
Proof.
  assert (wf_pipeline two_cycle) as Hwf.
  { apply (bool_decide_unpack _). vm_compute. exact I. }
  assert (is_cyclic two_cycle = true) as Hcyc by (vm_compute; reflexivity).
  split; [exact Hwf|]. split; [exact Hcyc|].
  exact (proj1 (connect_never_recovers_from_cycle two_cycle "A" "B"
                  (Some [("x", "A.y")]) _ _ Hwf Hcyc (surjective_pairing _))).
Defined.

Lemma get_component_inputs_keeps_writes_on_failure_witness :
  caller_data !! "P2" = Some 0 /\
  resolved (_store chain_P1_done) "ghost.v" = Raise (KeyError "ghost") /\
  exists w',
    get_component_inputs "P2" [("x", "P1.y"); ("u", "ghost.v")] caller_data
      (mkWorld chain_P1_done caller_heap []) = (Raise (KeyError "ghost"), w') /\
    exists v, resolved (_store chain_P1_done) "P1.y" = Ok v /\
              deref 0 w' !! "x" = Some v.
Proof.
  assert (caller_data !! "P2" = Some 0) as Hdata by (vm_compute; reflexivity).
  assert (resolved (_store chain_P1_done) "ghost.v" = Raise (KeyError "ghost")) as Hghost
    by (vm_compute; reflexivity).
  split; [exact Hdata|]. split; [exact Hghost|].
  destruct (get_component_inputs_keeps_writes_on_failure "P2" [("x", "P1.y")] []
              "u" "ghost.v" caller_data (mkWorld chain_P1_done caller_heap []) 0
              (KeyError "ghost") Hdata)
    as (w' & Hrun & _ & _ & Hvals & _).
  - apply NoDup_singleton.
  - constructor; [|constructor]. exists (VInt 5). vm_compute. reflexivity.
  - exact Hghost.
  - exists w'. split; [exact Hrun|].
    apply (Hvals "x" "P1.y"). apply list_elem_of_here.
Defined.

Lemma run_raises_only_definition_component_or_reference_errors_witness :
  wf_pipeline failing_pipeline /\
  exists w',
    run ∅ [Start "F"; Complete "F"] (mkWorld failing_pipeline ∅ [])
    = Some (Raise (ComponentFailure "boom"), w') /\
    node_names (pipeline w') = node_names failing_pipeline.
Proof.
  assert (wf_pipeline failing_pipeline) as Hwf.
  { apply (bool_decide_unpack _). vm_compute. exact I. }
  split; [exact Hwf|].
  assert (exists w', run ∅ [Start "F"; Complete "F"] (mkWorld failing_pipeline ∅ [])
                     = Some (Raise (ComponentFailure "boom"), w')) as [w' Hrun].
  { eexists. vm_compute. reflexivity. }
  exists w'. split; [exact Hrun|].
  exact (proj1 (proj2 (proj2
    (run_raises_only_definition_component_or_reference_errors ∅
       (mkWorld failing_pipeline ∅ []) _ _ w' Hwf Hrun)))).
Defined.

Lemma components_are_called_after_their_dependencies_witness :
  wf_pipeline (chain "P1.y") /\
  exists s,
    run_events ∅ [Start "P1"; Complete "P1"; Start "P2"; Complete "P2"]
      (orchestrator_start (mkWorld (reinitialize (chain "P1.y")) ∅ [])) = Continue s /\
    forall i n kwargs, invoked s !! i = Some (n, kwargs) ->
      forall d, d ∈ previous_edges n (chain "P1.y") ->
        exists j kwargs', j < i /\ invoked s !! j = Some (start d, kwargs').
Proof.
  assert (wf_pipeline (chain "P1.y")) as Hwf.
  { apply (bool_decide_unpack _). vm_compute. exact I. }
  split; [exact Hwf|].
  assert (exists s,
            run_events ∅ [Start "P1"; Complete "P1"; Start "P2"; Complete "P2"]
              (orchestrator_start (mkWorld (reinitialize (chain "P1.y")) ∅ []))
            = Continue s) as [s Hrun].
  { eexists. vm_compute. reflexivity. }
  exists s. split; [exact Hrun|].
  intros i n kwargs Hi d Hd.
  destruct (proj2 (components_are_called_after_their_dependencies ∅
                     (mkWorld (chain "P1.y") ∅ []) _ s Hwf Hrun i n kwargs Hi) d Hd)
    as (j & kwargs' & _ & _ & Hj & Hjl & _).
  exists j, kwargs'. split; [exact Hj|exact Hjl].
Defined.

Lemma validated_run_supplies_mandatory_inputs_witness :
  wf_pipeline (chain "P1.y") /\
  validate_inputs_config ∅ ∅ (chain "P1.y") = Ok tt /\
  exists s,
    run_events ∅ [Start "P1"; Complete "P1"; Start "P2"; Complete "P2"]
      (orchestrator_start (mkWorld (reinitialize (chain "P1.y")) ∅ [])) = Continue s /\
    forall kwargs, ("P2", kwargs) ∈ invoked s -> is_Some (kwargs !! "x").
Proof.
  assert (wf_pipeline (chain "P1.y")) as Hwf.
  { apply (bool_decide_unpack _). vm_compute. exact I. }
  assert (validate_inputs_config ∅ ∅ (chain "P1.y") = Ok tt) as Hval
    by (vm_compute; reflexivity).
  split; [exact Hwf|]. split; [exact Hval|].
  assert (exists s,
            run_events ∅ [Start "P1"; Complete "P1"; Start "P2"; Complete "P2"]
              (orchestrator_start (mkWorld (reinitialize (chain "P1.y")) ∅ []))
            = Continue s) as [s Hrun].
  { eexists. vm_compute. reflexivity. }
  exists s. split; [exact Hrun|].
  intros kwargs Hin.
  apply (validated_run_supplies_mandatory_inputs ∅ (mkWorld (chain "P1.y") ∅ []) _ s
           Hwf Hval Hrun "P2" kwargs component_P2 "x" Hin).
  - vm_compute. reflexivity.
  - vm_compute. reflexivity.
Defined.

Lemma acyclic_run_executes_every_task_witness :
  wf_pipeline (chain "P1.y") /\ is_cyclic (chain "P1.y") = false /\
  exists s,
    run_events ∅ [Start "P1"; Complete "P1"; Start "P2"; Complete "P2"]
      (orchestrator_start (mkWorld (reinitialize (chain "P1.y")) ∅ [])) = Continue s /\
    quiescent s = true /\ length (invoked s) = 2.
Proof.
  assert (wf_pipeline (chain "P1.y")) as Hwf.
  { apply (bool_decide_unpack _). vm_compute. exact I. }
  assert (is_cyclic (chain "P1.y") = false) as Hacyc by (vm_compute; reflexivity).
  split; [exact Hwf|]. split; [exact Hacyc|].
  assert (exists s,
            run_events ∅ [Start "P1"; Complete "P1"; Start "P2"; Complete "P2"]
              (orchestrator_start (mkWorld (reinitialize (chain "P1.y")) ∅ []))
            = Continue s /\ quiescent s = true) as (s & Hrun & Hq).
  { eexists. split; vm_compute; reflexivity. }
  exists s. split; [exact Hrun|]. split; [exact Hq|].
  exact (proj2 (proj2 (acyclic_run_executes_every_task ∅ (mkWorld (chain "P1.y") ∅ [])
                         _ s Hwf Hacyc Hrun Hq))).
Defined.

Lemma run_succeeds_when_components_do_witness :
  wf_pipeline (chain "P1.y") /\
  components_return_models (chain "P1.y") /\
  references_predecessors (chain "P1.y") /\
  validate_inputs_config ∅ ∅ (chain "P1.y") = Ok tt /\
  exists evs res w', run ∅ evs (mkWorld (chain "P1.y") ∅ []) = Some (Ok res, w').
Proof.
  assert (wf_pipeline (chain "P1.y")) as Hwf.
  { apply (bool_decide_unpack _). vm_compute. exact I. }
  assert (components_return_models (chain "P1.y")) as Hmodels.
  { intros t kwargs Ht. unfold chain in Ht. cbn [_nodes] in Ht.
    apply elem_of_cons in Ht as [->|Ht]; [eexists; reflexivity|].
    apply list_elem_of_singleton in Ht as ->. eexists. reflexivity. }
  assert (references_predecessors (chain "P1.y")) as Hrefs.
  { apply (bool_decide_unpack _). vm_compute. exact I. }
  assert (validate_inputs_config ∅ ∅ (chain "P1.y") = Ok tt) as Hval
    by (vm_compute; reflexivity).
  split; [exact Hwf|]. split; [exact Hmodels|]. split; [exact Hrefs|].
  split; [exact Hval|].
  exact (proj2 (run_succeeds_when_components_do ∅ (mkWorld (chain "P1.y") ∅ [])
                  Hwf Hmodels Hrefs Hval)).
Defined.

Lemma tasks_on_a_cycle_never_run_witness :
  wf_pipeline two_cycle /\ path (successors two_cycle) "A" "A" /\
  forall evs s,
    run_events ∅ evs (orchestrator_start (mkWorld (reinitialize two_cycle) ∅ []))
    = Continue s ->
    "A" ∉ (invoked s).*1.
Proof.
  assert (wf_pipeline two_cycle) as Hwf.
  { apply (bool_decide_unpack _). vm_compute. exact I. }
  assert (path (successors two_cycle) "A" "A") as Hpath.
  { apply (path_step _ "A" "B" "A").
    - apply (bool_decide_unpack _). vm_compute. exact I.
    - apply path_edge. apply (bool_decide_unpack _). vm_compute. exact I. }
  split; [exact Hwf|]. split; [exact Hpath|].
  intros evs s Hrun.
  exact (proj1 (tasks_on_a_cycle_never_run ∅ (mkWorld two_cycle ∅ []) evs s "A" "A"
                  Hwf Hpath (or_introl eq_refl) Hrun)).
Defined.

(** ** [Pipeline.run], from validation to the result *)



